(** * A shallow embedding of [pipeline.py]: the per-track aggregator
      [TrackStats] and the engine [StreamProcessor].

    Python values are modelled as follows:
    - [int] is [Z] (unbounded);
    - [float] is IEEE-754 binary64, represented by the rational it denotes
      (type [float64] below), every arithmetic result being rounded to the
      nearest double, ties to even;
    - [str] is [string];
    - a [set] of strings is a [gset string];
    - a [dict] is an association list in insertion order, because
      [max(d, key=d.get)] and [sorted(d.values())] observe that order;
    - a raised exception is the [Raise] result of the [result] monad. *)

From Stdlib Require Import ZArith QArith Qround Qpower Qabs Lia Lqa.
From Stdlib Require Import String List Sorted Permutation.
From Stdlib Require Import Floats.
From stdpp Require Import gmap strings.

Import ListNotations.
Local Open Scope Z_scope.

(* ===================================================================== *)
(** * Exceptions                                                          *)
(* ===================================================================== *)

Inductive exn : Type :=
| ZeroDivisionError
| OverflowError
| ValueError.

Inductive result (A : Type) : Type :=
| Ok (a : A)
| Raise (e : exn).

Arguments Ok {A} a.
Arguments Raise {A} e.

#[global] Instance result_ret : MRet result := fun A a => Ok a.

#[global] Instance result_bind : MBind result := fun A B k m =>
  match m with
  | Ok a => k a
  | Raise e => Raise e
  end.

(* ===================================================================== *)
(** * Python floats (IEEE-754 binary64)                                   *)
(* ===================================================================== *)

Module Float64.

(** A double is the rational it denotes, an infinity or a NaN.  The two
    zeros are identified: no operation used by the pipeline tells them
    apart. *)
Inductive float64 : Type :=
| Finite (v : Q)
| Inf (negative : bool)
| NaN.

Definition pow2 (e : Z) : Q := Qpower 2 e.

(** [ilog2 q] is the integer part of the binary logarithm of [q > 0]. *)
Definition ilog2 (q : Q) : Z :=
  let k := Z.log2 (Qnum q) - Z.log2 (Zpos (Qden q)) in
  if Qle_bool (pow2 k) q then k else k - 1.

(** Nearest integer, ties to even. *)
Definition round_half_even (x : Q) : Z :=
  let f := Qfloor x in
  match Qcompare (x - inject_Z f) (1 # 2) with
  | Lt => f
  | Gt => f + 1
  | Eq => if Z.even f then f else f + 1
  end.

(** Exponent of the unit in the last place of the double nearest [q]:
    53 bits of precision, subnormals below [2^-1022]. *)
Definition ulp_exp (q : Q) : Z := Z.max (ilog2 (Qabs q) - 52) (-1074).

(** Rounding of the exact result of an operation to binary64
    (round to nearest, ties to even; overflow gives an infinity). *)
Definition round_to_double (q : Q) : float64 :=
  if Qeq_bool q 0 then Finite 0
  else
    let e := ulp_exp q in
    let v := (inject_Z (round_half_even (q / pow2 e)) * pow2 e)%Q in
    if Qle_bool (pow2 1024) (Qabs v)
    then Inf (negb (Qle_bool 0 q))
    else Finite (Qred v).

(** The double denoted by the Python literal [m / 10^digits], for instance
    [float_literal 667 1] is [66.7]. *)
Definition float_literal (m : Z) (digits : nat) : float64 :=
  round_to_double (inject_Z m / inject_Z (10 ^ Z.of_nat digits)).

(** [float(n)] for an [int] (exact when [n] fits in 53 bits). *)
Definition of_int (n : Z) : float64 := round_to_double (inject_Z n).

(** [x * y] on floats. *)
Definition float_mul (x y : float64) : float64 :=
  match x, y with
  | NaN, _ | _, NaN => NaN
  | Finite a, Finite b => round_to_double (a * b)
  | Inf s, Finite b | Finite b, Inf s =>
      if Qeq_bool b 0 then NaN else Inf (xorb s (negb (Qle_bool 0 b)))
  | Inf s, Inf s' => Inf (xorb s s')
  end.

(** [x - y] on floats. *)
Definition float_sub (x y : float64) : float64 :=
  match x, y with
  | NaN, _ | _, NaN => NaN
  | Finite a, Finite b => round_to_double (a - b)
  | Inf s, Finite _ => Inf s
  | Finite _, Inf s => Inf (negb s)
  | Inf s, Inf s' => if Bool.eqb s s' then NaN else Inf s
  end.

(** [x < y] on floats (false as soon as a NaN is involved). *)
Definition float_lt (x y : float64) : bool :=
  match x, y with
  | NaN, _ | _, NaN => false
  | Finite a, Finite b => negb (Qle_bool b a)
  | Inf s, Finite _ => s
  | Finite _, Inf s => negb s
  | Inf s, Inf s' => s && negb s'
  end.

(** [a / b] on two [int]s: the correctly rounded quotient;
    [ZeroDivisionError] when [b] is 0, [OverflowError] when the quotient
    is too large for a float. *)
Definition int_truediv (a b : Z) : result float64 :=
  if b =? 0 then Raise ZeroDivisionError
  else
    match round_to_double (inject_Z a / inject_Z b) with
    | Inf _ => Raise OverflowError
    | r => Ok r
    end.

(** [round(x, ndigits)] on a float, [ndigits >= 0]: the exact value of [x]
    is rounded to [ndigits] decimals (ties to even) and the decimal obtained
    is converted to the nearest double.  Infinities and NaN round to
    themselves; [OverflowError] when the rounded value is too large. *)
Definition py_round (x : float64) (ndigits : nat) : result float64 :=
  match x with
  | Finite v =>
      let scale := inject_Z (10 ^ Z.of_nat ndigits) in
      match round_to_double (inject_Z (round_half_even (v * scale)) / scale) with
      | Inf _ => Raise OverflowError
      | r => Ok r
      end
  | _ => Ok x
  end.

(** Conversion from Rocq's own binary64 numbers, used to test the
    definitions above against the hardware operations. *)
Definition of_spec_float (f : spec_float) : float64 :=
  match f with
  | S754_zero _ => Finite 0
  | S754_infinity s => Inf s
  | S754_nan => NaN
  | S754_finite s m e =>
      Finite (Qred (inject_Z (if s then Z.neg m else Z.pos m) * pow2 e))
  end.

Definition of_prim (f : PrimFloat.float) : float64 := of_spec_float (Prim2SF f).

End Float64.
Import Float64.

(* ===================================================================== *)
(** * Python containers                                                   *)
(* ===================================================================== *)

(** A [dict] keyed by strings, in insertion order. *)
Definition dict (V : Type) : Type := list (string * V).

Section Dict.
Context {V : Type}.

(** [d.get(k)] *)
Fixpoint dict_get (d : dict V) (k : string) : option V :=
  match d with
  | [] => None
  | (k', v) :: d' => if String.eqb k' k then Some v else dict_get d' k
  end.

(** [k in d] *)
Definition dict_contains (d : dict V) (k : string) : bool :=
  match dict_get d k with
  | Some _ => true
  | None => false
  end.

(** [d[k] = v]: an existing key keeps its place, a new key goes last. *)
Fixpoint dict_setitem (d : dict V) (k : string) (v : V) : dict V :=
  match d with
  | [] => [(k, v)]
  | (k', v') :: d' =>
      if String.eqb k' k then (k', v) :: d'
      else (k', v') :: dict_setitem d' k v
  end.

(** Iteration over [d], and [d.values()]. *)
Definition dict_keys (d : dict V) : list string := map fst d.
Definition dict_values (d : dict V) : list V := map snd d.
End Dict.

Section Builtins.
Context {A : Type}.

(** The loop of [max(iterable, key=f)]: the running maximum is replaced
    only by an item whose key is strictly greater. *)
Fixpoint max_loop (key : A -> Z) (best : A) (rest : list A) : A :=
  match rest with
  | [] => best
  | x :: rest' =>
      if key x >? key best then max_loop key x rest'
      else max_loop key best rest'
  end.

(** [max(items, key=f)]; [ValueError] on an empty iterable. *)
Definition py_max (items : list A) (key : A -> Z) : result A :=
  match items with
  | [] => Raise ValueError
  | x :: rest => Ok (max_loop key x rest)
  end.

(** [sorted(items, key=f, reverse=True)]: a stable sort in descending
    order of the key, items with equal keys staying in their order. *)
Fixpoint insert_desc (key : A -> Z) (x : A) (l : list A) : list A :=
  match l with
  | [] => [x]
  | y :: l' =>
      if key x >=? key y then x :: y :: l'
      else y :: insert_desc key x l'
  end.

Fixpoint sorted_reverse (key : A -> Z) (items : list A) : list A :=
  match items with
  | [] => []
  | x :: items' => insert_desc key x (sorted_reverse key items')
  end.

(** The slice [l[:n]]; a negative [n] counts from the end. *)
Definition slice_to (l : list A) (n : Z) : list A :=
  if n <? 0 then firstn (Z.to_nat (Z.of_nat (length l) + n)) l
  else firstn (Z.to_nat n) l.
End Builtins.

(** [max(d, key=d.get)] on a dict of counters. *)
Definition max_by_count (d : dict Z) : result string :=
  py_max (dict_keys d) (fun k => default 0 (dict_get d k)).

(* ===================================================================== *)
(** * 1. Catalog                                                          *)
(* ===================================================================== *)

Record CatalogEntry : Type := {
  cat_track_id : string;
  cat_title : string;
  cat_album : string;
  cat_duration_s : Z;
  cat_release_year : Z
}.

Definition CATALOG : list CatalogEntry := [
  {| cat_track_id := "jw-001"; cat_title := "In My Room";
     cat_album := "In My Room (Single)"; cat_duration_s := 183; cat_release_year := 2024 |};
  {| cat_track_id := "jw-002"; cat_title := "Last Summer";
     cat_album := "Last Summer (Single)"; cat_duration_s := 172; cat_release_year := 2024 |};
  {| cat_track_id := "jw-003"; cat_title := "Kill You Off";
     cat_album := "PRESSURE"; cat_duration_s := 148; cat_release_year := 2025 |};
  {| cat_track_id := "jw-004"; cat_title := "Pearl";
     cat_album := "PRESSURE"; cat_duration_s := 141; cat_release_year := 2025 |};
  {| cat_track_id := "jw-005"; cat_title := "Loser";
     cat_album := "PRESSURE"; cat_duration_s := 167; cat_release_year := 2025 |};
  {| cat_track_id := "jw-006"; cat_title := "Fingernails";
     cat_album := "PRESSURE"; cat_duration_s := 144; cat_release_year := 2025 |};
  {| cat_track_id := "jw-007"; cat_title := "Limewire";
     cat_album := "PRESSURE"; cat_duration_s := 158; cat_release_year := 2025 |};
  {| cat_track_id := "jw-008"; cat_title := "Jennifer's Body";
     cat_album := "PRESSURE"; cat_duration_s := 153; cat_release_year := 2025 |};
  {| cat_track_id := "jw-009"; cat_title := "Sunshine State";
     cat_album := "PRESSURE"; cat_duration_s := 176; cat_release_year := 2025 |};
  {| cat_track_id := "jw-010"; cat_title := "You've Lost A Lot of Blood";
     cat_album := "PRESSURE"; cat_duration_s := 182; cat_release_year := 2025 |}
]%string.

(* ===================================================================== *)
(** * 2. Data models                                                      *)
(* ===================================================================== *)

Module StreamEvent.
Record t : Type := {
  event_id : string;
  track_id : string;
  user_id : string;
  platform : string;
  region : string;
  device : string;
  timestamp : float64;
  listened_s : Z;
  completed : bool
}.
End StreamEvent.

Module TrackStats.
Record t : Type := {
  track_id : string;
  title : string;
  total_streams : Z;
  unique_users : Z;
  completion_pct : float64;
  avg_listen_s : float64;
  top_platform : string;
  top_region : string;
  _user_set : gset string;
  _listen_total : Z;
  _completions : Z;
  _platform_counts : dict Z;
  _region_counts : dict Z
}.

(** [TrackStats(track_id, title)]: every other field at its default. *)
Definition new (track_id title : string) : t := {|
  track_id := track_id;
  title := title;
  total_streams := 0;
  unique_users := 0;
  completion_pct := Finite 0;
  avg_listen_s := Finite 0;
  top_platform := "";
  top_region := "";
  _user_set := ∅;
  _listen_total := 0;
  _completions := 0;
  _platform_counts := [];
  _region_counts := []
|}.

Definition ingest (self : t) (event : StreamEvent.t) : result t :=
  let total_streams' := total_streams self + 1 in
  let user_set' := {[ StreamEvent.user_id event ]} ∪ _user_set self in
  let unique_users' := Z.of_nat (size user_set') in
  let listen_total' := _listen_total self + StreamEvent.listened_s event in
  avg_listen_s' ← int_truediv listen_total' total_streams';
  let completions' :=
    if StreamEvent.completed event then _completions self + 1
    else _completions self in
  ratio ← int_truediv completions' total_streams';
  completion_pct' ← py_round (float_mul ratio (of_int 100)) 1;
  let platform_counts' :=
    dict_setitem (_platform_counts self) (StreamEvent.platform event)
      (default 0 (dict_get (_platform_counts self) (StreamEvent.platform event)) + 1) in
  let region_counts' :=
    dict_setitem (_region_counts self) (StreamEvent.region event)
      (default 0 (dict_get (_region_counts self) (StreamEvent.region event)) + 1) in
  top_platform' ← max_by_count platform_counts';
  top_region' ← max_by_count region_counts';
  Ok {|
    track_id := track_id self;
    title := title self;
    total_streams := total_streams';
    unique_users := unique_users';
    completion_pct := completion_pct';
    avg_listen_s := avg_listen_s';
    top_platform := top_platform';
    top_region := top_region';
    _user_set := user_set';
    _listen_total := listen_total';
    _completions := completions';
    _platform_counts := platform_counts';
    _region_counts := region_counts'
  |}.

(** Successive calls of [ingest] on one aggregate. *)
Fixpoint ingest_all (self : t) (events : list StreamEvent.t) : result t :=
  match events with
  | [] => Ok self
  | e :: events' => self' ← ingest self e; ingest_all self' events'
  end.
End TrackStats.

(* ===================================================================== *)
(** * 4. Stream processor                                                 *)
(* ===================================================================== *)

Module StreamProcessor.
Definition WINDOW_SIZE : Z := 60.

Record t : Type := {
  _catalog_map : dict CatalogEntry;
  stats : dict TrackStats.t;
  _window : list float64;
  _total_processed : Z;
  _anomalies : list string
}.

(** [StreamProcessor()] *)
Definition init : t := {|
  _catalog_map :=
    fold_left (fun d c => dict_setitem d (cat_track_id c) c) CATALOG [];
  stats :=
    fold_left
      (fun d c =>
         dict_setitem d (cat_track_id c)
           (TrackStats.new (cat_track_id c) (cat_title c)))
      CATALOG [];
  _window := [];
  _total_processed := 0;
  _anomalies := []
|}.

(** The engine together with the number of readings of the clock made so
    far: the [k]-th call of [time.time()] returns [time_time k]. *)
Record world : Type := {
  self : t;
  clock_reads : nat
}.

Definition start : world := {| self := init; clock_reads := 0 |}.

(** [while self._window and self._window[0] < cutoff: popleft()] *)
Fixpoint evict (cutoff : float64) (window : list float64) : list float64 :=
  match window with
  | [] => []
  | x :: window' =>
      if float_lt x cutoff then evict cutoff window' else window
  end.

Section Clock.
Variable time_time : nat -> float64.

Definition process (w : world) (event : StreamEvent.t) : result world :=
  match dict_get (stats (self w)) (StreamEvent.track_id event) with
  | None => Ok w
  | Some track =>
      track' ← TrackStats.ingest track event;
      let stats' :=
        dict_setitem (stats (self w)) (StreamEvent.track_id event) track' in
      let total_processed' := _total_processed (self w) + 1 in
      let now := time_time (clock_reads w) in
      let window' := _window (self w) ++ [now] in
      let cutoff := float_sub now (of_int WINDOW_SIZE) in
      Ok {|
        self := {|
          _catalog_map := _catalog_map (self w);
          stats := stats';
          _window := evict cutoff window';
          _total_processed := total_processed';
          _anomalies := _anomalies (self w)
        |};
        clock_reads := S (clock_reads w)
      |}
  end.

Fixpoint process_batch (w : world) (events : list StreamEvent.t)
  : result world :=
  match events with
  | [] => Ok w
  | e :: events' => w' ← process w e; process_batch w' events'
  end.
End Clock.

Definition throughput (self : t) : result float64 :=
  int_truediv (Z.of_nat (length (_window self))) WINDOW_SIZE.

Definition top_tracks (self : t) (n : Z) : list TrackStats.t :=
  slice_to (sorted_reverse TrackStats.total_streams (dict_values (stats self))) n.
End StreamProcessor.

(* ===================================================================== *)
(** * Vocabulary of the properties                                        *)
(* ===================================================================== *)

(** Position of the first occurrence of [x] in [l] ([length l] if none). *)
Fixpoint index_of (x : string) (l : list string) : nat :=
  match l with
  | [] => 0%nat
  | y :: l' => if String.eqb y x then 0%nat else S (index_of x l')
  end.

(** Number of occurrences, as a Python [int]. *)
Definition occurrences (x : string) (l : list string) : Z :=
  Z.of_nat (count_occ string_dec l x).

(** [d[k] = d.get(k, 0) + 1] *)
Definition dict_incr (d : dict Z) (k : string) : dict Z :=
  dict_setitem d k (default 0 (dict_get d k) + 1).

Definition tally (l : list string) : dict Z := fold_left dict_incr l [].

(** The value selected by [max(d, key=d.get)] on the tally of [l]: the most
    frequent value, and among the most frequent ones the first seen. *)
Definition most_frequent_first_seen (l : list string) (v : string) : Prop :=
  In v l /\
  (forall y, occurrences y l <= occurrences v l) /\
  (forall y, (index_of y l < index_of v l)%nat ->
             occurrences y l < occurrences v l).

(** What the events ingested into an aggregate add up to. *)
Definition listened_total (events : list StreamEvent.t) : Z :=
  fold_right (fun e acc => StreamEvent.listened_s e + acc) 0 events.

Definition completed_count (events : list StreamEvent.t) : Z :=
  Z.of_nat (length (List.filter StreamEvent.completed events)).

Definition distinct_users (events : list StreamEvent.t) : gset string :=
  list_to_set (map StreamEvent.user_id events).

(** [round(completions / total * 100, 1)] *)
Definition completion_formula (completions total : Z) : result float64 :=
  ratio ← int_truediv completions total;
  py_round (float_mul ratio (of_int 100)) 1.

(** The state of an aggregate in terms of the events it has ingested. *)
Record history (events : list StreamEvent.t) (s : TrackStats.t) : Prop := {
  h_total : TrackStats.total_streams s = Z.of_nat (length events);
  h_users : TrackStats._user_set s = distinct_users events;
  h_unique : TrackStats.unique_users s = Z.of_nat (size (distinct_users events));
  h_listen : TrackStats._listen_total s = listened_total events;
  h_completions : TrackStats._completions s = completed_count events;
  h_platforms :
    TrackStats._platform_counts s = tally (map StreamEvent.platform events);
  h_regions :
    TrackStats._region_counts s = tally (map StreamEvent.region events);
  h_avg : events <> [] ->
    int_truediv (listened_total events) (Z.of_nat (length events))
    = Ok (TrackStats.avg_listen_s s);
  h_pct : events <> [] ->
    completion_formula (completed_count events) (Z.of_nat (length events))
    = Ok (TrackStats.completion_pct s);
  h_top_platform : events <> [] ->
    max_by_count (tally (map StreamEvent.platform events))
    = Ok (TrackStats.top_platform s);
  h_top_region : events <> [] ->
    max_by_count (tally (map StreamEvent.region events))
    = Ok (TrackStats.top_region s);
  h_fresh : events = [] ->
    s = TrackStats.new (TrackStats.track_id s) (TrackStats.title s)
}.

(** Events with a plausible [listened_s]: not negative, and small enough for
    an average of them to be a float. *)
Definition well_formed (e : StreamEvent.t) : Prop :=
  0 <= StreamEvent.listened_s e <= 2 ^ 1023.

(** [event.track_id] is one of the catalog. *)
Definition in_catalog (e : StreamEvent.t) : bool :=
  existsb (fun c => String.eqb (cat_track_id c) (StreamEvent.track_id e)) CATALOG.

(** The events addressed to track [k]. *)
Definition for_track (k : string) (events : list StreamEvent.t)
  : list StreamEvent.t :=
  List.filter (fun e => String.eqb (StreamEvent.track_id e) k) events.

(** [sum(s.total_streams for s in self.stats.values())] *)
Definition sum_total_streams (p : StreamProcessor.t) : Z :=
  fold_right (fun s acc => TrackStats.total_streams s + acc) 0
    (dict_values (StreamProcessor.stats p)).

(** States reached from a fresh engine by successive calls of [process],
    with the events passed so far. *)
Inductive reachable (time_time : nat -> float64)
  : list StreamEvent.t -> StreamProcessor.world -> Prop :=
| reachable_start : reachable time_time [] StreamProcessor.start
| reachable_process events w e w' :
    reachable time_time events w ->
    StreamProcessor.process time_time w e = Ok w' ->
    reachable time_time (events ++ [e]) w'.

(** The aggregate stored for a catalog entry, after [events]. *)
Definition aggregate_of (events : list StreamEvent.t) (c : CatalogEntry)
  (entry : string * TrackStats.t) : Prop :=
  fst entry = cat_track_id c /\
  TrackStats.track_id (snd entry) = cat_track_id c /\
  TrackStats.title (snd entry) = cat_title c /\
  history (for_track (cat_track_id c) events) (snd entry).

Record engine_inv (events : list StreamEvent.t) (w : StreamProcessor.world)
  : Prop := {
  inv_stats : Forall2 (aggregate_of events) CATALOG
                (StreamProcessor.stats (StreamProcessor.self w));
  inv_total : StreamProcessor._total_processed (StreamProcessor.self w)
              = Z.of_nat (length (List.filter in_catalog events));
  inv_sum : sum_total_streams (StreamProcessor.self w)
            = StreamProcessor._total_processed (StreamProcessor.self w);
  inv_clock : StreamProcessor.clock_reads w
              = length (List.filter in_catalog events)
}.

(** Position of a track in the declaration order of [CATALOG]. *)
Definition catalog_rank (s : TrackStats.t) : nat :=
  index_of (TrackStats.track_id s) (map cat_track_id CATALOG).

(** The order of the leaderboard: more streams first, and for equal
    streams the track declared first in the catalog. *)
Definition ranks_before (a b : TrackStats.t) : Prop :=
  TrackStats.total_streams a > TrackStats.total_streams b \/
  (TrackStats.total_streams a = TrackStats.total_streams b /\
   (catalog_rank a < catalog_rank b)%nat).

(** The order produced by a stable sort in descending order of [key] of a
    list whose items stood in increasing order of [pos]. *)
Definition before {A : Type} (key : A -> Z) (pos : A -> nat) (x y : A) : Prop :=
  key x > key y \/ (key x = key y /\ (pos x < pos y)%nat).

(** The tie-break rule as the specification words it: the leader is replaced
    only by a value whose new count is strictly greater than the leader's. *)
Definition leader_step (st : string * dict Z) (x : string) : string * dict Z :=
  let counts' := dict_incr (snd st) x in
  if default 0 (dict_get counts' x) >? default 0 (dict_get counts' (fst st))
  then (x, counts')
  else (fst st, counts').

Definition first_to_reach_max (l : list string) : string :=
  fst (fold_left leader_step l (""%string, [])).

(** [p] passes [leader] in the tally of [l]: more occurrences, or as many
    and an earlier first appearance. *)
Definition overtakes (l : list string) (p leader : string) : Prop :=
  occurrences p l > occurrences leader l \/
  (occurrences p l = occurrences leader l /\
   (index_of p l < index_of leader l)%nat).

(** Two sequences of values with the same counts and the same order of
    first appearances. *)
Definition same_tally (l l' : list string) : Prop :=
  (forall x, occurrences x l = occurrences x l') /\
  (forall x y, (index_of x l < index_of y l)%nat <->
               (index_of x l' < index_of y l')%nat).

(** Calling [process] on each event in turn, as a caller would. *)
Definition sequential_calls (time_time : nat -> float64)
  (w : StreamProcessor.world) (events : list StreamEvent.t)
  : result StreamProcessor.world :=
  fold_left (fun r e => w' ← r; StreamProcessor.process time_time w' e)
    events (Ok w).

(** What the docstring of [throughput] promises, "events per second over the
    last WINDOW_SIZE seconds", for a call made when the clock reads [now]. *)
Definition throughput_last_window (now : float64) (p : StreamProcessor.t)
  : result float64 :=
  let cutoff := float_sub now (of_int StreamProcessor.WINDOW_SIZE) in
  int_truediv
    (Z.of_nat (length (StreamProcessor.evict cutoff (StreamProcessor._window p))))
    StreamProcessor.WINDOW_SIZE.

(** Sample data. *)
Definition play (track user plat reg : string) (listened : Z) (finished : bool)
  : StreamEvent.t := {|
  StreamEvent.event_id := "0123456789ab";
  StreamEvent.track_id := track;
  StreamEvent.user_id := user;
  StreamEvent.platform := plat;
  StreamEvent.region := reg;
  StreamEvent.device := "Web";
  StreamEvent.timestamp := Finite 0;
  StreamEvent.listened_s := listened;
  StreamEvent.completed := finished
|}.

Definition three_plays : list StreamEvent.t := [
  play "jw-001" "user_00001" "Spotify" "US-West" 100 false;
  play "jw-001" "user_00002" "Tidal" "US-East" 150 true;
  play "jw-001" "user_00003" "Spotify" "APAC" 183 true
]%string.

Definition tie_plays : list StreamEvent.t := [
  play "jw-001" "user_00001" "Tidal" "APAC" 100 false;
  play "jw-001" "user_00002" "Spotify" "LATAM" 150 true;
  play "jw-001" "user_00003" "Spotify" "LATAM" 183 true
]%string.

Definition tie_last : StreamEvent.t :=
  play "jw-001" "user_00004" "Tidal" "APAC" 120 true.

Definition mixed_plays : list StreamEvent.t := [
  play "jw-002" "user_00001" "Spotify" "US-West" 100 false;
  play "jw-404" "user_00002" "Tidal" "US-East" 150 true;
  play "jw-005" "user_00001" "Spotify" "APAC" 167 true;
  play "jw-005" "user_00003" "Tidal" "APAC" 120 true
]%string.

(** A clock that is read at 1000 s, then 61 s later, then every second. *)
Definition idle_clock (k : nat) : float64 :=
  match k with
  | O => Finite 1000
  | S k' => Finite (inject_Z (1061 + Z.of_nat k'))
  end.

(** A clock that is read every quarter of a second from 1000 s on. *)
Definition burst_clock (k : nat) : float64 :=
  Finite (Qred (1000 + inject_Z (Z.of_nat k) / 4)).

Definition run_aggregate (events : list StreamEvent.t) : TrackStats.t :=
  match TrackStats.ingest_all (TrackStats.new "jw-001" "In My Room") events with
  | Ok s => s
  | Raise _ => TrackStats.new "jw-001" "In My Room"
  end.

Definition run_engine (events : list StreamEvent.t) : StreamProcessor.world :=
  match StreamProcessor.process_batch idle_clock StreamProcessor.start events with
  | Ok w => w
  | Raise _ => StreamProcessor.start
  end.

(* ===================================================================== *)
(** * More of Python's builtins                                           *)
(* ===================================================================== *)

(** [x + y] on floats. *)
Definition float_add (x y : float64) : float64 :=
  match x, y with
  | NaN, _ | _, NaN => NaN
  | Finite a, Finite b => round_to_double (a + b)
  | Inf s, Finite _ | Finite _, Inf s => Inf s
  | Inf s, Inf s' => if Bool.eqb s s' then Inf s else NaN
  end.

(** [float(n)], the conversion an [int] undergoes when it meets a float in
    an arithmetic operation; [OverflowError] when [n] is too large. *)
Definition int_to_float (n : Z) : result float64 :=
  match round_to_double (inject_Z n) with
  | Inf _ => Raise OverflowError
  | r => Ok r
  end.

(** [round(x)] on a float: the nearest [int], ties to even. *)
Definition py_round_int (x : float64) : result Z :=
  match x with
  | Finite v => Ok (round_half_even v)
  | Inf _ => Raise OverflowError
  | NaN => Raise ValueError
  end.

(** [int(x)] on a float: truncation towards zero. *)
Definition py_int (x : float64) : result Z :=
  match x with
  | Finite v => Ok (if Qle_bool 0 v then Qfloor v else Qceiling v)
  | Inf _ => Raise OverflowError
  | NaN => Raise ValueError
  end.

(** [n >= x] for an [int] and a float: Python compares the exact values. *)
Definition int_ge_float (n : Z) (x : float64) : bool :=
  match x with
  | Finite v => Qle_bool v (inject_Z n)
  | Inf s => s
  | NaN => false
  end.

(** A string with characters beyond ASCII, as the list of its code points;
    [s * n] repeats it ([n <= 0] gives the empty string). *)
Definition unicode : Type := list N.

Definition str_mul (s : unicode) (n : Z) : unicode := concat (repeat s (Z.to_nat n)).

(** The characters U+2588 (full block) and U+2591 (light shade) of [bar]. *)
Definition FULL_BLOCK : unicode := [9608%N].
Definition LIGHT_SHADE : unicode := [9617%N].

(* ===================================================================== *)
(** * 3. Event generator                                                  *)
(* ===================================================================== *)

Module EventProducer.

(** What the calls of [random], [time] and [hashlib] made by one call of
    [emit] return. *)
Record draws : Type := {
  track : CatalogEntry;   (* random.choices(CATALOG, weights=TRACK_WEIGHTS, k=1)[0] *)
  beta : float64;         (* random.betavariate(5, 2) *)
  hexdigest : string;     (* hashlib.md5(raw_id.encode()).hexdigest() *)
  user : string;          (* random.choice(self._user_pool) *)
  platform : string;      (* random.choice(PLATFORMS) *)
  region : string;        (* random.choices(GEO_REGIONS, ...)[0] *)
  device : string;        (* random.choices(DEVICES, ...)[0] *)
  now : float64           (* time.time(), for the timestamp *)
}.

Definition emit (d : draws) (ts_offset_s : float64) : result StreamEvent.t :=
  let duration_s := cat_duration_s (track d) in
  duration ← int_to_float duration_s;
  listened ← py_int (float_mul (beta d) duration);
  let listened := Z.max 10 (Z.min listened duration_s) in
  let completed := int_ge_float listened (float_mul (float_literal 70 2) duration) in
  Ok {|
    StreamEvent.event_id := substring 0 12 (hexdigest d);
    StreamEvent.track_id := cat_track_id (track d);
    StreamEvent.user_id := user d;
    StreamEvent.platform := platform d;
    StreamEvent.region := region d;
    StreamEvent.device := device d;
    StreamEvent.timestamp := float_add (now d) ts_offset_s;
    StreamEvent.listened_s := listened;
    StreamEvent.completed := completed
  |}.

(** [[self.emit(i * 0.1) for i in indices]], the [i]-th call of [emit]
    making the draws [ds i]. *)
Fixpoint emit_each (ds : nat -> draws) (indices : list nat)
  : result (list StreamEvent.t) :=
  match indices with
  | [] => Ok []
  | i :: indices' =>
      fi ← int_to_float (Z.of_nat i);
      e ← emit (ds i) (float_mul fi (float_literal 1 1));
      es ← emit_each ds indices';
      Ok (e :: es)
  end.

(** [batch(n)]; [range(n)] is empty for [n <= 0]. *)
Definition batch (ds : nat -> draws) (n : Z) : result (list StreamEvent.t) :=
  emit_each ds (seq 0 (Z.to_nat n)).

End EventProducer.

(* ===================================================================== *)
(** * 4. Stream processor (continued)                                     *)
(* ===================================================================== *)

(** The dict returned by [StreamProcessor.summary]. *)
Record Summary : Type := {
  total_events_processed : Z;
  unique_tracks_streamed : Z;
  throughput_eps : float64;
  top_3_tracks : list (string * Z)   (* title, streams *)
}.

Definition summary (self : StreamProcessor.t) : result Summary :=
  let top := StreamProcessor.top_tracks self 3 in
  eps ← (t ← StreamProcessor.throughput self; py_round t 2);
  Ok {|
    total_events_processed := StreamProcessor._total_processed self;
    unique_tracks_streamed :=
      Z.of_nat (length (List.filter (fun s => 0 <? TrackStats.total_streams s)
                          (dict_values (StreamProcessor.stats self))));
    throughput_eps := eps;
    top_3_tracks :=
      map (fun s => (TrackStats.title s, TrackStats.total_streams s)) top
  |}.

(* ===================================================================== *)
(** * 5. Reporting                                                        *)
(* ===================================================================== *)

(** [int(round(value / max_val * width)) if max_val else 0], the first line
    of [bar], on [int] arguments, as [print_report] calls it. *)
Definition bar_filled (value max_val width : Z) : result Z :=
  if max_val =? 0 then Ok 0
  else
    ratio ← int_truediv value max_val;
    w ← int_to_float width;
    py_round_int (float_mul ratio w).

(** [bar(value, max_val, width)] *)
Definition bar (value max_val width : Z) : result unicode :=
  filled ← bar_filled value max_val width;
  Ok (str_mul FULL_BLOCK filled ++ str_mul LIGHT_SHADE (width - filled)).

(** The bars of the leaderboard of [print_report]:
    [tracks = processor.top_tracks(len(CATALOG))],
    [max_streams = tracks[0].total_streams if tracks else 1], and
    [bar(t.total_streams, max_streams)] for each track. *)
Definition leaderboard_bars (self : StreamProcessor.t) : list (result unicode) :=
  let tracks := StreamProcessor.top_tracks self (Z.of_nat (length CATALOG)) in
  let max_streams :=
    match tracks with
    | t :: _ => TrackStats.total_streams t
    | [] => 1
    end in
  map (fun t => bar (TrackStats.total_streams t) max_streams 30) tracks.

(* ===================================================================== *)
(** * 6. Main                                                             *)
(* ===================================================================== *)

(** The sizes of the three waves of [main]. *)
Definition WAVES : list Z := [1200; 2500; 800].

(** The loop of [main] over [waves]: [batch = producer.batch(n)], then
    [processor.process_batch(batch)], then the running total
    [processor._total_processed] is printed.  [dss k] are the draws made
    by the [k]-th call of [batch]; the result is the final state of the
    processor with the running totals printed. *)
Fixpoint run_waves (time_time : nat -> float64)
  (dss : nat -> nat -> EventProducer.draws) (k : nat)
  (processor : StreamProcessor.world) (waves : list Z)
  : result (StreamProcessor.world * list Z) :=
  match waves with
  | [] => Ok (processor, [])
  | n :: waves' =>
      batch ← EventProducer.batch (dss k) n;
      processor' ← StreamProcessor.process_batch time_time processor batch;
      let printed := StreamProcessor._total_processed (StreamProcessor.self processor') in
      r ← run_waves time_time dss (S k) processor' waves';
      Ok (fst r, printed :: snd r)
  end.

(* ===================================================================== *)
(** * Vocabulary of the properties (continued)                            *)
(* ===================================================================== *)

(** The nearest double with an unbounded exponent range. *)
Definition rounded (q : Q) : Q :=
  (inject_Z (round_half_even (q / pow2 (ulp_exp q))) * pow2 (ulp_exp q))%Q.

(** The first [m] readings of the clock. *)
Definition readings (time_time : nat -> float64) (m : nat) : list float64 :=
  map time_time (seq 0 m).

(** [x] is not older than [WINDOW_SIZE] seconds when the clock reads [now]. *)
Definition within_window (now x : float64) : bool :=
  negb (float_lt x (float_sub now (of_int StreamProcessor.WINDOW_SIZE))).



(** The partial sums of the wave sizes, starting from [acc]. *)
Fixpoint running_totals (acc : Z) (waves : list Z) : list Z :=
  match waves with
  | [] => []
  | n :: waves' => (acc + Z.max 0 n) :: running_totals (acc + Z.max 0 n) waves'
  end.

(** The values a call of [random.betavariate] may return. *)
Definition unit_interval (x : float64) : Prop :=
  exists b, x = Finite b /\ (0 <= b)%Q /\ (b <= 1)%Q.

(** Draws that [random] can make: a track of the catalog, and a beta
    variate between 0 and 1. *)
Definition possible_draws (d : EventProducer.draws) : Prop :=
  In (EventProducer.track d) CATALOG /\ unit_interval (EventProducer.beta d).

(** An event whose [listened_s] lies between ten seconds and the duration
    of its track, as [emit] clamps it. *)
Definition within_duration (e : StreamEvent.t) : Prop :=
  forall c, In c CATALOG -> StreamEvent.track_id e = cat_track_id c ->
            10 <= StreamEvent.listened_s e <= cat_duration_s c.

(** The bar with [filled] full cells out of [width]. *)
Definition bar_of (filled width : Z) : unicode :=
  str_mul FULL_BLOCK filled ++ str_mul LIGHT_SHADE (width - filled).

(** More sample data. *)
Definition idle_seconds (k : nat) : Q :=
  match k with
  | O => 1000
  | S k' => inject_Z (1061 + Z.of_nat k')
  end.

Definition overlong_play : StreamEvent.t :=
  play "jw-001" "user_00001" "Spotify" "US-West" (2 ^ 1025) false.

Definition half_listened : EventProducer.draws := {|
  EventProducer.track :=
    {| cat_track_id := "jw-001"; cat_title := "In My Room";
       cat_album := "In My Room (Single)"; cat_duration_s := 183;
       cat_release_year := 2024 |};
  EventProducer.beta := Finite (1 # 2);
  EventProducer.hexdigest := "0123456789abcdef0123456789abcdef";
  EventProducer.user := "user_00001";
  EventProducer.platform := "Spotify";
  EventProducer.region := "US-West";
  EventProducer.device := "Web";
  EventProducer.now := Finite 1000
|}.

(* ===================================================================== *)
(** * Properties                                                          *)
(* ===================================================================== *)

(** ** The float model against the hardware

    The operations of [Float64] agree with Rocq's primitive binary64
    operations on the values of the scenarios below. *)

Example round_matches_division :
  round_to_double (2 # 3) = of_prim (2 / 3)%float /\
  round_to_double (433 # 3) = of_prim (433 / 3)%float /\
  round_to_double (1 # 60) = of_prim (1 / 60)%float /\
  float_literal 667 1 = of_prim (667 / 10)%float.
Proof. repeat apply conj; vm_compute; reflexivity. Qed.

Example float_mul_matches :
  float_mul (round_to_double (2 # 3)) (of_int 100) = of_prim (2 / 3 * 100)%float /\
  float_mul (round_to_double (7 # 2000)) (of_int 100)
  = of_prim (7 / 2000 * 100)%float.
Proof. repeat apply conj; vm_compute; reflexivity. Qed.

Example float_sub_matches :
  float_sub (Finite 1061) (of_int 60) = of_prim (1061 - 60)%float /\
  float_sub (round_to_double (1 # 10)) (of_int 60) = of_prim (1 / 10 - 60)%float.
Proof. repeat apply conj; vm_compute; reflexivity. Qed.

Example round_subnormal_and_overflow :
  round_to_double (pow2 (-1075)) = of_prim (0x1p-1074 / 2)%float /\
  round_to_double (3 * pow2 (-1075)) = of_prim (0x1.8p-1073 / 2)%float /\
  round_to_double (pow2 1024 - pow2 970) = of_prim (0x1.fffffffffffffp+1023 * 2)%float.
Proof. repeat apply conj; vm_compute; reflexivity. Qed.

Section Pow2.
Local Open Scope Q_scope.

Lemma pow2_pos e : 0 < pow2 e.
Proof. apply Qpower_0_lt. reflexivity. Qed.

Lemma pow2_add a b : pow2 (a + b) == pow2 a * pow2 b.
Proof. apply Qpower_plus. discriminate. Qed.

Lemma pow2_le a b : (a <= b)%Z -> pow2 a <= pow2 b.
Proof. intros H. apply Qpower_le_compat_l; [exact H | discriminate]. Qed.

Lemma pow2_lt a b : (a < b)%Z -> pow2 a < pow2 b.
Proof. intros H. apply Qpower_lt_compat_l; [exact H | reflexivity]. Qed.

Lemma pow2_inject e : (0 <= e)%Z -> pow2 e == inject_Z (2 ^ e).
Proof. intros H. unfold pow2. rewrite Zpower_Qpower by exact H. reflexivity. Qed.

Lemma pow2_succ e : pow2 (e + 1) == 2 * pow2 e.
Proof. rewrite pow2_add. change (pow2 1) with 2. ring. Qed.
End Pow2.

Section Ilog2.
Local Open Scope Q_scope.

Lemma Qmake_mult n d : (n # d) * inject_Z (Zpos d) == inject_Z n.
Proof. rewrite Qmake_Qdiv. field. discriminate. Qed.

Lemma inject_Z_pow2_log2 n :
  (0 < n)%Z -> pow2 (Z.log2 n) <= inject_Z n /\ inject_Z n < pow2 (Z.log2 n + 1).
Proof.
  intros Hn. destruct (Z.log2_spec n Hn) as [Hlo Hhi].
  pose proof (Z.log2_nonneg n) as Hnn.
  rewrite !pow2_inject by lia. rewrite <- Z.add_1_r in Hhi.
  split; [rewrite <- Zle_Qle | rewrite <- Zlt_Qlt]; lia.
Qed.

Lemma ilog2_spec q :
  0 < q -> pow2 (ilog2 q) <= q /\ q < pow2 (ilog2 q + 1).
Proof.
  destruct q as [n d]. intros Hq.
  assert (Hn : (0 < n)%Z).
  { unfold Qlt in Hq. simpl in Hq. lia. }
  destruct (inject_Z_pow2_log2 n Hn) as [Hn1 Hn2].
  destruct (inject_Z_pow2_log2 (Zpos d) eq_refl) as [Hd1 Hd2].
  pose proof (Qmake_mult n d) as Hm.
  unfold ilog2. cbn [Qnum Qden].
  set (ln := Z.log2 n) in *. set (ld := Z.log2 (Zpos d)) in *.
  pose proof (pow2_pos ld) as Hpld.
  pose proof (pow2_pos (ln - ld)) as Hpk.
  assert (Hk1 : pow2 (ln - ld + 1) * pow2 ld == pow2 (ln + 1)).
  { rewrite <- pow2_add. f_equiv. lia. }
  assert (Hk2 : pow2 (ln - ld - 1) * pow2 (ld + 1) == pow2 ln).
  { rewrite <- pow2_add. f_equiv. lia. }
  assert (Hup : (n # d) < pow2 (ln - ld + 1)).
  { apply Qmult_lt_r with (z := pow2 ld); [exact Hpld |].
    rewrite Hk1. apply Qle_lt_trans with (y := (n # d) * inject_Z (Zpos d)).
    - apply Qmult_le_l; [exact Hq | exact Hd1].
    - rewrite Hm. exact Hn2. }
  destruct (Qle_bool (pow2 (ln - ld)) (n # d)) eqn:Hb.
  - apply Qle_bool_iff in Hb. split; assumption.
  - assert (Hlt : (n # d) < pow2 (ln - ld)).
    { apply Qnot_le_lt. intros H. apply Qle_bool_iff in H. congruence. }
    split.
    + apply Qlt_le_weak.
      apply Qmult_lt_r with (z := pow2 (ld + 1)); [apply pow2_pos |].
      rewrite Hk2. apply Qle_lt_trans with (y := (n # d) * inject_Z (Zpos d)).
      * rewrite Hm. exact Hn1.
      * apply Qmult_lt_l; [exact Hq | exact Hd2].
    + replace (ln - ld - 1 + 1)%Z with (ln - ld)%Z by lia. exact Hlt.
Qed.

Lemma ilog2_unique q k :
  pow2 k <= q -> q < pow2 (k + 1) -> ilog2 q = k.
Proof.
  intros Hlo Hhi.
  assert (Hq : 0 < q) by (eapply Qlt_le_trans; [apply pow2_pos | exact Hlo]).
  destruct (ilog2_spec q Hq) as [H1 H2].
  destruct (Z.lt_trichotomy (ilog2 q) k) as [Hlt | [Heq | Hgt]]; [| exact Heq |].
  - exfalso. assert (H : pow2 (ilog2 q + 1) <= pow2 k) by (apply pow2_le; lia).
    lra.
  - exfalso. assert (H : pow2 (k + 1) <= pow2 (ilog2 q)) by (apply pow2_le; lia).
    lra.
Qed.

Lemma ilog2_le q b : 0 < q -> q <= b -> (ilog2 q <= ilog2 b)%Z.
Proof.
  intros Hq Hqb.
  assert (Hb : 0 < b) by lra.
  destruct (ilog2_spec q Hq) as [H1 _].
  destruct (ilog2_spec b Hb) as [_ H2].
  destruct (Z_le_gt_dec (ilog2 q) (ilog2 b)) as [H | H]; [exact H | exfalso].
  assert (H3 : pow2 (ilog2 b + 1) <= pow2 (ilog2 q)) by (apply pow2_le; lia).
  lra.
Qed.
End Ilog2.

Section Rounding.
Local Open Scope Q_scope.

Lemma round_half_even_floor x :
  (Qfloor x <= round_half_even x <= Qfloor x + 1)%Z.
Proof.
  unfold round_half_even.
  destruct (Qcompare _ _); [destruct (Z.even _) | |]; lia.
Qed.

Lemma round_half_even_ge x (n : Z) :
  inject_Z n <= x -> (n <= round_half_even x)%Z.
Proof.
  intros H. apply Qfloor_resp_le in H. rewrite Qfloor_Z in H.
  pose proof (round_half_even_floor x). lia.
Qed.

Lemma round_half_even_le x (n : Z) :
  x <= inject_Z n -> (round_half_even x <= n)%Z.
Proof.
  intros H. pose proof (Qfloor_resp_le _ _ H) as Hf. rewrite Qfloor_Z in Hf.
  pose proof (round_half_even_floor x) as Hr.
  destruct (Z.eq_dec (Qfloor x) n) as [Heq | Hne]; [| lia].
  assert (Hx : x - inject_Z (Qfloor x) < 1 # 2).
  { rewrite Heq. lra. }
  unfold round_half_even. cbv zeta.
  destruct (Qcompare (x - inject_Z (Qfloor x)) (1 # 2)) eqn:Hc.
  - apply Qeq_alt in Hc. lra.
  - lia.
  - apply Qgt_alt in Hc. lra.
Qed.

Lemma round_half_even_Z (n : Z) : round_half_even (inject_Z n) = n.
Proof.
  apply Z.le_antisymm.
  - apply round_half_even_le. apply Qle_refl.
  - apply round_half_even_ge. apply Qle_refl.
Qed.

Lemma Qabs_nonneg_eq q : 0 <= q -> Qabs q = q.
Proof.
  destruct q as [n d]. unfold Qle. cbn. intros H.
  rewrite Z.abs_eq by lia. reflexivity.
Qed.

Lemma ulp_exp_le q b : 0 < q -> q <= b -> (ulp_exp q <= ulp_exp b)%Z.
Proof.
  intros Hq Hqb. unfold ulp_exp.
  rewrite !Qabs_nonneg_eq by lra.
  pose proof (ilog2_le q b Hq Hqb). lia.
Qed.

(** Rounding never crosses a representable number: a value below the
    double [m * 2^e] rounds to a double below it. *)
Lemma round_to_double_le q b (m e : Z) :
  0 <= q -> q <= b ->
  b == inject_Z m * pow2 e -> (ulp_exp b <= e)%Z -> b < pow2 1024 ->
  exists v, round_to_double q = Finite v /\ 0 <= v /\ v <= b.
Proof.
  intros Hq0 Hqb Hb He Hmax. unfold round_to_double.
  destruct (Qeq_bool q 0) eqn:Hz.
  { exists 0. split; [reflexivity |]. lra. }
  assert (Hq : 0 < q).
  { apply Qeq_bool_neq in Hz. destruct (Qlt_le_dec 0 q) as [H | H]; [exact H |].
    exfalso. apply Hz. lra. }
  pose proof (ulp_exp_le q b Hq Hqb) as Hexp.
  set (eq := ulp_exp q) in *.
  pose proof (pow2_pos eq) as Hpe.
  set (r := round_half_even (q / pow2 eq)).
  assert (Hr0 : (0 <= r)%Z).
  { apply round_half_even_ge. apply Qle_shift_div_l; [exact Hpe |].
    rewrite Qmult_0_l. lra. }
  assert (Hbq : b == inject_Z (m * 2 ^ (e - eq)) * pow2 eq).
  { rewrite Hb, inject_Z_mult, <- pow2_inject by lia.
    rewrite <- Qmult_assoc, <- pow2_add. replace (e - eq + eq)%Z with e by lia.
    reflexivity. }
  assert (Hrb : (r <= m * 2 ^ (e - eq))%Z).
  { apply round_half_even_le. apply Qle_shift_div_r; [exact Hpe |].
    rewrite <- Hbq. exact Hqb. }
  assert (Hv0 : 0 <= inject_Z r * pow2 eq).
  { apply Qmult_le_0_compat; [| lra]. rewrite Zle_Qle in Hr0. exact Hr0. }
  assert (Hvb : inject_Z r * pow2 eq <= b).
  { rewrite Hbq. apply Qmult_le_compat_r; [| lra]. rewrite <- Zle_Qle. exact Hrb. }
  destruct (Qle_bool (pow2 1024) (Qabs (inject_Z r * pow2 eq))) eqn:Hov.
  { exfalso. apply Qle_bool_iff in Hov. rewrite Qabs_pos in Hov by exact Hv0. lra. }
  eexists. split; [reflexivity |]. rewrite Qred_correct. split; assumption.
Qed.

Lemma round_to_double_nonneg q v :
  0 <= q -> round_to_double q = Finite v -> 0 <= v.
Proof.
  intros Hq. unfold round_to_double.
  destruct (Qeq_bool q 0); [intros [= <-]; lra |].
  destruct (Qle_bool _ _); [discriminate |]. intros [= <-].
  rewrite Qred_correct.
  pose proof (pow2_pos (ulp_exp q)) as Hpe.
  apply Qmult_le_0_compat; [| lra].
  change 0 with (inject_Z 0). rewrite <- Zle_Qle.
  apply round_half_even_ge. apply Qle_shift_div_l; [exact Hpe |].
  rewrite Qmult_0_l. exact Hq.
Qed.
End Rounding.

Section DictFacts.
Context {V : Type}.
Implicit Types (d : dict V) (k : string) (v : V).

Lemma dict_get_setitem d k v k' :
  dict_get (dict_setitem d k v) k' =
  if String.eqb k k' then Some v else dict_get d k'.
Proof.
  induction d as [| [k0 v0] d IH]; cbn.
  - reflexivity.
  - destruct (String.eqb k0 k) eqn:E0; cbn.
    + apply String.eqb_eq in E0. subst k0.
      destruct (String.eqb k k'); reflexivity.
    + rewrite IH. destruct (String.eqb k0 k') eqn:E1; [| reflexivity].
      apply String.eqb_eq in E1. subst k0. rewrite String.eqb_sym, E0.
      reflexivity.
Qed.

Lemma dict_get_Some_In d k v : dict_get d k = Some v -> In k (dict_keys d).
Proof.
  induction d as [| [k0 v0] d IH]; cbn; [discriminate |].
  destruct (String.eqb k0 k) eqn:E.
  - apply String.eqb_eq in E. auto.
  - auto.
Qed.

Lemma dict_get_None_notin d k : dict_get d k = None -> ~ In k (dict_keys d).
Proof.
  induction d as [| [k0 v0] d IH]; cbn; [tauto |].
  destruct (String.eqb k0 k) eqn:E; [discriminate |].
  apply String.eqb_neq in E. intros H [H1 | H1]; [congruence | exact (IH H H1)].
Qed.

Lemma dict_keys_setitem_Some d k v v0 :
  dict_get d k = Some v0 -> dict_keys (dict_setitem d k v) = dict_keys d.
Proof.
  induction d as [| [k0 v1] d IH]; cbn; [discriminate |].
  destruct (String.eqb k0 k) eqn:E; cbn; [reflexivity |].
  intros H. f_equal. exact (IH H).
Qed.

Lemma dict_keys_setitem_None d k v :
  dict_get d k = None -> dict_keys (dict_setitem d k v) = dict_keys d ++ [k].
Proof.
  induction d as [| [k0 v1] d IH]; cbn; [reflexivity |].
  destruct (String.eqb k0 k) eqn:E; cbn; [discriminate |].
  intros H. f_equal. exact (IH H).
Qed.
End DictFacts.

Section IndexOf.
Implicit Types (x y : string) (l : list string).

Lemma index_of_le x l : (index_of x l <= length l)%nat.
Proof.
  induction l as [| z l IH]; cbn; [lia |]. destruct (String.eqb z x); lia.
Qed.

Lemma index_of_In x l : In x l <-> (index_of x l < length l)%nat.
Proof.
  induction l as [| z l IH]; cbn.
  - split; [tauto | lia].
  - destruct (String.eqb z x) eqn:E.
    + apply String.eqb_eq in E. split; [lia | auto].
    + apply String.eqb_neq in E. rewrite <- Nat.succ_lt_mono, <- IH.
      split; [intros [H | H]; [congruence | exact H] | auto].
Qed.

Lemma index_of_notin x l : ~ In x l -> index_of x l = length l.
Proof.
  intros H. pose proof (index_of_le x l). rewrite index_of_In in H. lia.
Qed.

Lemma index_of_app_In x l l' : In x l -> index_of x (l ++ l') = index_of x l.
Proof.
  induction l as [| z l IH]; cbn; [tauto |].
  destruct (String.eqb z x) eqn:E; [reflexivity |].
  apply String.eqb_neq in E. intros [H | H]; [congruence |]. f_equal. exact (IH H).
Qed.

Lemma index_of_snoc_new x l : ~ In x l -> index_of x (l ++ [x]) = length l.
Proof.
  induction l as [| z l IH]; cbn.
  - rewrite String.eqb_refl. reflexivity.
  - intros H. destruct (String.eqb z x) eqn:E.
    + apply String.eqb_eq in E. tauto.
    + f_equal. apply IH. tauto.
Qed.

Lemma index_of_inj x y l :
  In x l -> index_of x l = index_of y l -> x = y.
Proof.
  induction l as [| z l IH]; cbn; [tauto |].
  destruct (String.eqb z x) eqn:Ex, (String.eqb z y) eqn:Ey; try discriminate.
  - apply String.eqb_eq in Ex, Ey. congruence.
  - apply String.eqb_neq in Ex. intros [H | H] Hi; [congruence |].
    apply IH; [exact H | lia].
Qed.
End IndexOf.

Section Occurrences.
Implicit Types (x y : string) (l : list string).

Lemma occurrences_snoc x y l :
  occurrences x (l ++ [y]) =
  if String.eqb y x then occurrences x l + 1 else occurrences x l.
Proof.
  unfold occurrences. rewrite count_occ_app. cbn.
  destruct (string_dec y x) as [-> | Hne].
  - rewrite String.eqb_refl. lia.
  - apply String.eqb_neq in Hne. rewrite Hne. lia.
Qed.

Lemma occurrences_nonneg x l : 0 <= occurrences x l.
Proof. unfold occurrences. lia. Qed.

Lemma occurrences_pos x l : In x l <-> 0 < occurrences x l.
Proof.
  unfold occurrences. rewrite (count_occ_In string_dec). lia.
Qed.
End Occurrences.

Section Tally.
Implicit Types (x y k : string) (l : list string).

Lemma tally_snoc l x : tally (l ++ [x]) = dict_incr (tally l) x.
Proof. unfold tally. rewrite fold_left_app. reflexivity. Qed.

Lemma tally_get l k :
  dict_get (tally l) k =
  if 0 <? occurrences k l then Some (occurrences k l) else None.
Proof.
  induction l as [| x l IH] using rev_ind; [reflexivity |].
  rewrite tally_snoc, occurrences_snoc. unfold dict_incr.
  rewrite dict_get_setitem.
  pose proof (occurrences_nonneg k l) as Hk.
  destruct (String.eqb x k) eqn:E.
  - apply String.eqb_eq in E. subst x. rewrite IH.
    destruct (0 <? occurrences k l) eqn:E1; cbn;
      destruct (Z.ltb_spec 0 (occurrences k l + 1));
      destruct (Z.ltb_spec 0 (occurrences k l)); try lia; try discriminate;
      f_equal; lia.
  - exact IH.
Qed.

Lemma tally_count l k : default 0 (dict_get (tally l) k) = occurrences k l.
Proof.
  rewrite tally_get. pose proof (occurrences_nonneg k l).
  destruct (Z.ltb_spec 0 (occurrences k l)); cbn; lia.
Qed.

Lemma tally_keys_In l k : In k (dict_keys (tally l)) <-> In k l.
Proof.
  rewrite (occurrences_pos k l). pose proof (tally_get l k) as H.
  destruct (Z.ltb_spec 0 (occurrences k l)) as [Hlt | Hge].
  - split; [intros _; exact Hlt | intros _; eapply dict_get_Some_In; exact H].
  - split; [intros Hin; exfalso; exact (dict_get_None_notin _ _ H Hin) | lia].
Qed.

(** The keys of the tally are in the order in which the values were first
    seen. *)
Lemma tally_keys_order l K1 x K2 y :
  dict_keys (tally l) = K1 ++ x :: K2 -> In y K1 ->
  (index_of y l < index_of x l)%nat.
Proof.
  revert K1 x K2 y. induction l as [| p l IH] using rev_ind;
    intros K1 x K2 y HK Hy.
  - destruct K1; discriminate.
  - rewrite tally_snoc in HK. unfold dict_incr in HK.
    assert (Hyl : forall K1' x' K2', dict_keys (tally l) = K1' ++ x' :: K2' ->
              In y K1' -> (index_of y (l ++ [p]) < index_of x' (l ++ [p]))%nat).
    { intros K1' x' K2' HK' Hy'.
      assert (In y l) by (apply tally_keys_In; rewrite HK', in_app_iff; auto).
      assert (In x' l) by (apply tally_keys_In; rewrite HK', in_app_iff; cbn; auto).
      rewrite !index_of_app_In by assumption. eapply IH; eassumption. }
    destruct (dict_get (tally l) p) as [c |] eqn:Hp.
    + rewrite (dict_keys_setitem_Some _ _ _ _ Hp) in HK. eapply Hyl; eassumption.
    + rewrite (dict_keys_setitem_None _ _ _ Hp) in HK.
      assert (Hnp : ~ In p l).
      { rewrite <- tally_keys_In. apply dict_get_None_notin. exact Hp. }
      destruct K2 as [| z K2] using rev_ind.
      * apply app_inj_tail_iff with (a := p) (b := x) in HK.
        destruct HK as [HK ->].
        assert (In y l) by (apply tally_keys_In; rewrite HK; exact Hy).
        rewrite index_of_app_In by assumption.
        rewrite index_of_snoc_new by exact Hnp.
        apply index_of_In. assumption.
      * clear IHK2. change (K1 ++ x :: K2 ++ [z]) with (K1 ++ (x :: K2) ++ [z]) in HK.
        rewrite app_assoc in HK. apply app_inj_tail_iff in HK.
        destruct HK as [HK _]. eapply Hyl; eassumption.
Qed.
End Tally.

Section Max.
Context {A : Type} (key : A -> Z).

Lemma max_loop_spec (rest P1 P2 : list A) (best : A) :
  (forall y, In y P1 -> key y < key best) ->
  (forall y, In y P2 -> key y <= key best) ->
  exists K1 K2,
    P1 ++ best :: P2 ++ rest = K1 ++ max_loop key best rest :: K2 /\
    (forall y, In y K1 -> key y < key (max_loop key best rest)) /\
    (forall y, In y K2 -> key y <= key (max_loop key best rest)).
Proof.
  revert P1 P2 best. induction rest as [| x rest IH]; intros P1 P2 best H1 H2; cbn.
  - exists P1, P2. rewrite app_nil_r. auto.
  - destruct (Z.gtb_spec (key x) (key best)) as [Hgt | Hle].
    + destruct (IH (P1 ++ best :: P2) [] x) as (K1 & K2 & HK & HK1 & HK2).
      * intros y Hy. apply in_app_iff in Hy. destruct Hy as [Hy | [<- | Hy]].
        -- specialize (H1 y Hy). lia.
        -- lia.
        -- specialize (H2 y Hy). lia.
      * intros y [].
      * exists K1, K2. split; [| auto]. rewrite <- HK. cbn.
        rewrite <- app_assoc. reflexivity.
    + destruct (IH P1 (P2 ++ [x]) best) as (K1 & K2 & HK & HK1 & HK2).
      * exact H1.
      * intros y Hy. apply in_app_iff in Hy. destruct Hy as [Hy | [<- | []]].
        -- auto.
        -- lia.
      * exists K1, K2. split; [| auto]. rewrite <- HK.
        rewrite <- app_assoc. reflexivity.
Qed.

Lemma py_max_spec (items : list A) (v : A) :
  py_max items key = Ok v ->
  exists K1 K2,
    items = K1 ++ v :: K2 /\
    (forall y, In y K1 -> key y < key v) /\
    (forall y, In y K2 -> key y <= key v).
Proof.
  destruct items as [| x rest]; cbn; [discriminate |]. intros [= <-].
  destruct (max_loop_spec rest [] [] x) as (K1 & K2 & HK & H); [intros y [] .. |].
  exists K1, K2. split; [exact HK | exact H].
Qed.

Lemma py_max_nonempty (items : list A) :
  items <> [] -> exists v, py_max items key = Ok v.
Proof. destruct items; [congruence | cbn; eauto]. Qed.
End Max.

Lemma most_frequent_first_seen_unique l v v' :
  most_frequent_first_seen l v -> most_frequent_first_seen l v' -> v = v'.
Proof.
  intros (Hin & Hmax & Hfirst) (Hin' & Hmax' & Hfirst').
  destruct (lt_eq_lt_dec (index_of v l) (index_of v' l)) as [[Hlt | Heq] | Hgt].
  - specialize (Hfirst' v Hlt). specialize (Hmax v'). lia.
  - eapply index_of_inj; eassumption.
  - specialize (Hfirst v' Hgt). specialize (Hmax' v). lia.
Qed.

Lemma max_by_count_tally l v :
  max_by_count (tally l) = Ok v -> most_frequent_first_seen l v.
Proof.
  intros H. unfold max_by_count in H.
  apply py_max_spec in H. destruct H as (K1 & K2 & HK & H1 & H2).
  rewrite !tally_count in *.
  assert (Hv : In v l).
  { apply tally_keys_In. rewrite HK, in_app_iff. cbn. auto. }
  assert (Hall : forall y, In y l -> y = v \/ In y K1 \/ In y K2).
  { intros y Hy. apply tally_keys_In in Hy. rewrite HK, in_app_iff in Hy.
    cbn in Hy. destruct Hy as [Hy | [-> | Hy]]; auto. }
  split; [exact Hv | split].
  - intros y. destruct (in_dec string_dec y l) as [Hy | Hy].
    + destruct (Hall y Hy) as [-> | [Hy1 | Hy2]].
      * lia.
      * specialize (H1 y Hy1). rewrite tally_count in H1. lia.
      * specialize (H2 y Hy2). rewrite tally_count in H2. lia.
    + pose proof (occurrences_nonneg v l).
      assert (~ 0 < occurrences y l) by (rewrite <- occurrences_pos; exact Hy).
      lia.
  - intros y Hlt.
    assert (Hy : In y l).
    { apply index_of_In. pose proof (index_of_le v l). lia. }
    destruct (Hall y Hy) as [-> | [Hy1 | Hy2]].
    + lia.
    + specialize (H1 y Hy1). rewrite tally_count in H1. exact H1.
    + exfalso. apply in_split in Hy2. destruct Hy2 as (K2a & K2b & ->).
      assert (Hord : (index_of v l < index_of y l)%nat).
      { apply (tally_keys_order l (K1 ++ v :: K2a) y K2b v).
        - rewrite HK, <- app_assoc. reflexivity.
        - rewrite in_app_iff. cbn. auto. }
      lia.
Qed.

Section LeaderChange.
Implicit Types (l : list string) (p x y : string).

Lemma index_of_neq x y l : In x l -> x <> y -> index_of x l <> index_of y l.
Proof. intros Hin Hne Heq. apply Hne. eapply index_of_inj; eassumption. Qed.

Lemma index_of_snoc_lt x y l p :
  In x l -> In y l ->
  (index_of x (l ++ [p]) < index_of y (l ++ [p]))%nat <->
  (index_of x l < index_of y l)%nat.
Proof. intros Hx Hy. rewrite !index_of_app_In by assumption. reflexivity. Qed.

(** The leader changes only in favour of the value just counted, and only
    when that value now has strictly more occurrences than the former
    leader, or as many and an earlier first appearance. *)
Lemma leader_change l p leader leader' :
  most_frequent_first_seen l leader ->
  most_frequent_first_seen (l ++ [p]) leader' ->
  leader' <> leader ->
  leader' = p /\ overtakes (l ++ [p]) p leader.
Proof.
  intros (Hin & Hmax & Hfirst) (Hin' & Hmax' & Hfirst') Hne.
  assert (Hinl : In leader (l ++ [p])) by (apply in_app_iff; auto).
  assert (Hp : leader' = p).
  { destruct (string_dec leader' p) as [Heq | Hnp]; [exact Heq | exfalso].
    assert (Hl' : In leader' l).
    { apply in_app_iff in Hin'. destruct Hin' as [H | [H | []]]; [exact H | congruence]. }
    pose proof (Hmax leader') as H1. pose proof (Hmax' leader) as H2.
    rewrite !occurrences_snoc in H2.
    assert (Ep : String.eqb p leader' = false) by (apply String.eqb_neq; congruence).
    rewrite Ep in H2.
    destruct (String.eqb p leader) eqn:El; [lia |].
    destruct (lt_eq_lt_dec (index_of leader' l) (index_of leader l)) as [[Hlt | Heq] | Hgt].
    - specialize (Hfirst leader' Hlt). lia.
    - exact (index_of_neq _ _ _ Hl' Hne Heq).
    - apply (index_of_snoc_lt leader leader' l p Hin Hl') in Hgt.
      specialize (Hfirst' leader Hgt). rewrite !occurrences_snoc, Ep, El in Hfirst'.
      lia. }
  split; [exact Hp |]. subst leader'. unfold overtakes.
  pose proof (Hmax' leader) as H2.
  destruct (Z.eq_dec (occurrences p (l ++ [p])) (occurrences leader (l ++ [p])))
    as [Heq | Hneq]; [right | left; lia].
  split; [exact Heq |].
  destruct (lt_eq_lt_dec (index_of p (l ++ [p])) (index_of leader (l ++ [p])))
    as [[Hlt | Hi] | Hgt]; [exact Hlt | exfalso | exfalso].
  - exact (index_of_neq _ _ _ Hin' Hne Hi).
  - specialize (Hfirst' leader Hgt). lia.
Qed.
End LeaderChange.

Section Aggregate.
Implicit Types (s : TrackStats.t) (e : StreamEvent.t)
  (events : list StreamEvent.t).

Lemma bind_Ok {A B} (m : result A) (k : A -> result B) (b : B) :
  (x ← m; k x) = Ok b -> exists a, m = Ok a /\ k a = Ok b.
Proof. destruct m as [a | ex]; cbn; [eauto | discriminate]. Qed.

Lemma ingest_all_snoc s events e :
  TrackStats.ingest_all s (events ++ [e]) =
  (s' ← TrackStats.ingest_all s events; TrackStats.ingest s' e).
Proof.
  revert s. induction events as [| e0 events IH]; intros s; cbn.
  - destruct (TrackStats.ingest s e); reflexivity.
  - destruct (TrackStats.ingest s e0) as [s0 | ex]; cbn; [apply IH | reflexivity].
Qed.

Lemma listened_total_snoc events e :
  listened_total (events ++ [e]) = listened_total events + StreamEvent.listened_s e.
Proof.
  unfold listened_total.
  induction events as [| e0 events IH]; cbn; [lia |]. rewrite IH. lia.
Qed.

Lemma completed_count_snoc events e :
  completed_count (events ++ [e]) =
  if StreamEvent.completed e then completed_count events + 1
  else completed_count events.
Proof.
  unfold completed_count. rewrite List.filter_app, length_app. cbn.
  destruct (StreamEvent.completed e); cbn; lia.
Qed.

Lemma distinct_users_snoc events e :
  distinct_users (events ++ [e]) = {[ StreamEvent.user_id e ]} ∪ distinct_users events.
Proof.
  unfold distinct_users. rewrite map_app, list_to_set_app_L. cbn.
  rewrite union_empty_r_L. apply (comm_L (∪)).
Qed.

Lemma history_new track_id title : history [] (TrackStats.new track_id title).
Proof. split; try reflexivity; congruence. Qed.

Lemma history_ingest events s e s' :
  history events s -> TrackStats.ingest s e = Ok s' ->
  history (events ++ [e]) s'.
Proof.
  intros H Hi. unfold TrackStats.ingest in Hi.
  apply bind_Ok in Hi. destruct Hi as (avg & Havg & Hi).
  apply bind_Ok in Hi. destruct Hi as (ratio & Hratio & Hi).
  apply bind_Ok in Hi. destruct Hi as (pct & Hpct & Hi).
  apply bind_Ok in Hi. destruct Hi as (tp & Htp & Hi).
  apply bind_Ok in Hi. destruct Hi as (tr & Htr & Hi).
  injection Hi as Hs. subst s'.
  destruct H as [Ht Hu Hq Hl Hc Hp Hr _ _ _ _ _].
  rewrite Ht, Hl in Havg. rewrite Ht, Hc in Hratio.
  rewrite Hp in Htp. rewrite Hr in Htr.
  assert (Hlen : Z.of_nat (length (events ++ [e])) = Z.of_nat (length events) + 1).
  { rewrite length_app. cbn. lia. }
  split; cbn; rewrite ?map_app, ?Hlen, ?listened_total_snoc,
    ?completed_count_snoc, ?distinct_users_snoc; cbn; rewrite ?tally_snoc.
  - lia.
  - rewrite Hu. reflexivity.
  - rewrite Hu. reflexivity.
  - lia.
  - rewrite Hc. reflexivity.
  - rewrite Hp. reflexivity.
  - rewrite Hr. reflexivity.
  - intros _. exact Havg.
  - intros _. unfold completion_formula. rewrite Hratio. exact Hpct.
  - intros _. exact Htp.
  - intros _. exact Htr.
  - intros Hnil. destruct events; discriminate.
Qed.

Lemma history_ingest_all events :
  forall track_id title s,
    TrackStats.ingest_all (TrackStats.new track_id title) events = Ok s ->
    history events s.
Proof.
  induction events as [| e events IH] using rev_ind; intros track_id title s H.
  - injection H as <-. apply history_new.
  - rewrite ingest_all_snoc in H. apply bind_Ok in H.
    destruct H as (s0 & H0 & H1). eapply history_ingest; eauto.
Qed.
End Aggregate.

Section FloatOps.
Local Open Scope Q_scope.

Lemma of_int_100 : of_int 100 = Finite 100.
Proof. vm_compute. reflexivity. Qed.

(** An [int] is a double when it fits in 53 bits. *)
Lemma small_int_representable (n : Z) :
  (0 < n < 2 ^ 53)%Z -> (ulp_exp (inject_Z n) <= 0)%Z.
Proof.
  intros Hn. unfold ulp_exp. rewrite Qabs_nonneg_eq.
  2:{ change 0 with (inject_Z 0). rewrite <- Zle_Qle. lia. }
  assert (H : (ilog2 (inject_Z n) < 53)%Z).
  { destruct (ilog2_spec (inject_Z n)) as [Hlo _].
    { change 0 with (inject_Z 0). rewrite <- Zlt_Qlt. lia. }
    destruct (Z_lt_ge_dec (ilog2 (inject_Z n)) 53) as [H | H]; [exact H |].
    exfalso. assert (H53 : pow2 53 <= pow2 (ilog2 (inject_Z n))) by (apply pow2_le; lia).
    rewrite (pow2_inject 53) in H53 by lia.
    assert (Hc : inject_Z (2 ^ 53) <= inject_Z n) by lra.
    rewrite <- Zle_Qle in Hc. lia. }
  lia.
Qed.

(** A quotient of [int]s that is at most [bound] rounds to a float that is
    at most [bound]. *)
Lemma round_to_double_le_int q (bound : Z) :
  (0 < bound < 2 ^ 53)%Z -> 0 <= q -> q <= inject_Z bound ->
  exists v, round_to_double q = Finite v /\ 0 <= v /\ v <= inject_Z bound.
Proof.
  intros Hb Hq0 Hq. apply (round_to_double_le q (inject_Z bound) bound 0).
  - exact Hq0.
  - exact Hq.
  - change (pow2 0) with 1. ring.
  - apply small_int_representable. exact Hb.
  - rewrite (pow2_inject 1024) by lia. rewrite <- Zlt_Qlt.
    apply Z.lt_trans with (m := (2 ^ 53)%Z); [lia | reflexivity].
Qed.

Lemma int_truediv_unit (c t : Z) :
  (0 <= c <= t)%Z -> (0 < t)%Z ->
  exists v, int_truediv c t = Ok (Finite v) /\ 0 <= v /\ v <= 1.
Proof.
  intros Hc Ht. unfold int_truediv.
  destruct (Z.eqb_spec t 0) as [-> | _]; [lia |].
  assert (Ht' : 0 < inject_Z t).
  { change 0 with (inject_Z 0). rewrite <- Zlt_Qlt. exact Ht. }
  destruct (round_to_double_le_int (inject_Z c / inject_Z t) 1) as (v & Hv & Hv0 & Hv1).
  - lia.
  - apply Qle_shift_div_l; [exact Ht' |]. rewrite Qmult_0_l.
    change 0 with (inject_Z 0). rewrite <- Zle_Qle. lia.
  - apply Qle_shift_div_r; [exact Ht' |]. rewrite Qmult_1_l.
    rewrite <- Zle_Qle. lia.
  - exists v. rewrite Hv. auto.
Qed.

Lemma int_truediv_nonneg (a b : Z) r :
  (0 <= a)%Z -> (0 < b)%Z -> int_truediv a b = Ok r ->
  exists v, r = Finite v /\ 0 <= v.
Proof.
  intros Ha Hb. unfold int_truediv.
  destruct (Z.eqb_spec b 0) as [-> | _]; [lia |].
  destruct (round_to_double (inject_Z a / inject_Z b)) as [v | s |] eqn:Hr;
    [| discriminate |].
  - intros [= <-]. exists v. split; [reflexivity |].
    refine (round_to_double_nonneg _ _ _ Hr).
    apply Qle_shift_div_l.
    + change 0 with (inject_Z 0). rewrite <- Zlt_Qlt. exact Hb.
    + rewrite Qmult_0_l. change 0 with (inject_Z 0). rewrite <- Zle_Qle. exact Ha.
  - exfalso. revert Hr. unfold round_to_double.
    destruct (Qeq_bool _ _); [discriminate |].
    destruct (Qle_bool _ _); discriminate.
Qed.

(** [round(c / t * 100, 1)] is defined and lies in [[0, 100]] as soon as
    [0 <= c <= t] and [t > 0]. *)
Lemma completion_formula_bounds (c t : Z) :
  (0 <= c <= t)%Z -> (0 < t)%Z ->
  exists p, completion_formula c t = Ok (Finite p) /\ 0 <= p /\ p <= 100.
Proof.
  intros Hc Ht. unfold completion_formula.
  destruct (int_truediv_unit c t Hc Ht) as (v1 & -> & Hv10 & Hv11). cbn.
  rewrite of_int_100. cbn.
  destruct (round_to_double_le_int (v1 * 100) 100) as (v2 & -> & Hv20 & Hv21);
    [lia | lra | change (inject_Z 100) with 100; lra |].
  change (inject_Z 100) with 100 in Hv21.
  unfold py_round. change (inject_Z (10 ^ Z.of_nat 1)) with 10.
  set (r := round_half_even (v2 * 10)).
  assert (Hr0 : (0 <= r)%Z).
  { apply round_half_even_ge. change (inject_Z 0) with 0. lra. }
  assert (Hr1 : (r <= 1000)%Z).
  { apply round_half_even_le. change (inject_Z 1000) with 1000. lra. }
  rewrite Zle_Qle in Hr0, Hr1.
  change (inject_Z 0) with 0 in Hr0. change (inject_Z 1000) with 1000 in Hr1.
  destruct (round_to_double_le_int (inject_Z r / 10) 100) as (v3 & -> & Hv30 & Hv31).
  - lia.
  - apply Qle_shift_div_l; lra.
  - apply Qle_shift_div_r; [lra |]. change (inject_Z 100) with 100. lra.
  - exists v3. auto.
Qed.

Lemma int_truediv_Ok a b r :
  int_truediv a b = Ok r -> r = round_to_double (inject_Z a / inject_Z b).
Proof.
  unfold int_truediv. destruct (b =? 0); [discriminate |].
  destruct (round_to_double _); [| discriminate |]; intros [= <-]; reflexivity.
Qed.

Lemma round_half_even_error x :
  Qabs (inject_Z (round_half_even x) - x) <= 1 # 2.
Proof.
  pose proof (Qfloor_le x) as Hlo. pose proof (Qlt_floor x) as Hhi.
  rewrite inject_Z_plus in Hhi. change (inject_Z 1) with 1 in Hhi.
  apply Qabs_Qle_condition. unfold round_half_even. cbv zeta.
  destruct (Qcompare (x - inject_Z (Qfloor x)) (1 # 2)) eqn:Hc.
  - apply Qeq_alt in Hc.
    destruct (Z.even (Qfloor x)); rewrite ?inject_Z_plus;
      change (inject_Z 1) with 1; split; lra.
  - apply Qlt_alt in Hc. split; lra.
  - apply Qgt_alt in Hc. rewrite inject_Z_plus. change (inject_Z 1) with 1.
    split; lra.
Qed.

(** The rounding error is at most half a unit in the last place. *)
Lemma round_to_double_error q v :
  round_to_double q = Finite v -> Qabs (v - q) <= pow2 (ulp_exp q - 1).
Proof.
  unfold round_to_double. destruct (Qeq_bool q 0) eqn:Hz.
  - intros [= <-]. apply Qeq_bool_iff in Hz.
    pose proof (pow2_pos (ulp_exp q - 1)).
    apply Qabs_Qle_condition. split; lra.
  - destruct (Qle_bool _ _); [discriminate |]. intros [= <-].
    rewrite Qred_correct.
    set (e := ulp_exp q). pose proof (pow2_pos e) as He.
    pose proof (round_half_even_error (q / pow2 e)) as Herr.
    set (r := inject_Z (round_half_even (q / pow2 e))) in *.
    assert (Hhalf : pow2 (e - 1) == (1 # 2) * pow2 e).
    { replace e with (e - 1 + 1)%Z at 2 by lia. rewrite pow2_succ. field. }
    assert (Heq : r * pow2 e - q == (r - q / pow2 e) * pow2 e).
    { field. lra. }
    rewrite Heq, Qabs_Qmult, (Qabs_pos (pow2 e)) by lra. rewrite Hhalf.
    apply Qmult_le_compat_r; [exact Herr | lra].
Qed.


(** Relative accuracy of a rounded positive quantity. *)
Lemma round_to_double_relative q v :
  0 <= q -> round_to_double q = Finite v ->
  Qabs (v - q) <= q * pow2 (-53) + pow2 (-1075).
Proof.
  intros Hq Hv. destruct (Qeq_bool q 0) eqn:Hz.
  - unfold round_to_double in Hv. rewrite Hz in Hv. injection Hv as <-.
    apply Qeq_bool_iff in Hz. pose proof (pow2_pos (-1075)).
    pose proof (pow2_pos (-53)).
    apply Qabs_Qle_condition. rewrite Hz. split; lra.
  - assert (Hpos : 0 < q).
    { apply Qeq_bool_neq in Hz. destruct (Qlt_le_dec 0 q) as [H | H]; [exact H |].
      exfalso. apply Hz. lra. }
    eapply Qle_trans; [apply round_to_double_error; exact Hv |].
    destruct (ilog2_spec q Hpos) as [Hlo _].
    pose proof (pow2_pos (-1075)) as H1. pose proof (pow2_pos (-53)) as H2.
    unfold ulp_exp. rewrite (Qabs_nonneg_eq q Hq).
    destruct (Z.max_spec (ilog2 q - 52) (-1074)) as [[_ ->] | [_ ->]].
    + change (-1074 - 1)%Z with (-1075)%Z.
      assert (0 <= q * pow2 (-53)) by (apply Qmult_le_0_compat; lra). lra.
    + replace (ilog2 q - 52 - 1)%Z with (ilog2 q + -53)%Z by lia.
      rewrite pow2_add.
      assert (pow2 (ilog2 q) * pow2 (-53) <= q * pow2 (-53))
        by (apply Qmult_le_compat_r; lra).
      lra.
Qed.


End FloatOps.

Section Totality.
Implicit Types (s : TrackStats.t) (e : StreamEvent.t)
  (events : list StreamEvent.t).

Lemma completed_count_bounds events :
  0 <= completed_count events <= Z.of_nat (length events).
Proof.
  unfold completed_count. pose proof (List.filter_length_le StreamEvent.completed events).
  lia.
Qed.

Lemma listened_total_bounds events :
  Forall well_formed events ->
  0 <= listened_total events <= 2 ^ 1023 * Z.of_nat (length events).
Proof.
  unfold listened_total, well_formed.
  induction 1 as [| e events He _ IH]; cbn [fold_right length]; lia.
Qed.

Lemma int_truediv_average (a n : Z) :
  0 < n -> 0 <= a <= 2 ^ 1023 * n ->
  exists v, int_truediv a n = Ok (Finite v) /\ (0 <= v)%Q.
Proof.
  intros Hn Ha. unfold int_truediv.
  destruct (Z.eqb_spec n 0) as [-> | _]; [lia |].
  assert (Hn' : (0 < inject_Z n)%Q).
  { change 0%Q with (inject_Z 0). rewrite <- Zlt_Qlt. exact Hn. }
  destruct (round_to_double_le (inject_Z a / inject_Z n) (inject_Z (2 ^ 1023)) 1 1023)
    as (v & Hv & Hv0 & _).
  - apply Qle_shift_div_l; [exact Hn' |]. rewrite Qmult_0_l.
    change 0%Q with (inject_Z 0). rewrite <- Zle_Qle. lia.
  - apply Qle_shift_div_r; [exact Hn' |]. rewrite <- inject_Z_mult, <- Zle_Qle. lia.
  - rewrite (pow2_inject 1023) by lia. ring.
  - vm_compute. discriminate.
  - rewrite (pow2_inject 1024) by lia. rewrite <- Zlt_Qlt. reflexivity.
  - exists v. rewrite Hv. auto.
Qed.

Lemma max_by_count_setitem (d : dict Z) k v :
  exists top, max_by_count (dict_setitem d k v) = Ok top.
Proof.
  apply py_max_nonempty. destruct d as [| [k0 v0] d]; cbn; [discriminate |].
  destruct (String.eqb k0 k); discriminate.
Qed.

(** [ingest] does not raise on a well-formed event. *)
Lemma ingest_defined events s e :
  history events s -> Forall well_formed events -> well_formed e ->
  exists s', TrackStats.ingest s e = Ok s'.
Proof.
  intros H Hwf He. unfold TrackStats.ingest.
  pose proof (listened_total_bounds events Hwf) as Hl.
  pose proof (completed_count_bounds events) as Hc.
  unfold well_formed in He.
  rewrite (h_total _ _ H), (h_listen _ _ H), (h_completions _ _ H).
  destruct (int_truediv_average (listened_total events + StreamEvent.listened_s e)
              (Z.of_nat (length events) + 1)) as (avg & -> & _); [lia | lia |].
  cbn.
  destruct (completion_formula_bounds
              (if StreamEvent.completed e then completed_count events + 1
               else completed_count events)
              (Z.of_nat (length events) + 1)) as (p & Hp & _);
    [destruct (StreamEvent.completed e); lia | lia |].
  unfold completion_formula in Hp.
  destruct (int_truediv _ (Z.of_nat (length events) + 1)) as [ratio | ex];
    [| discriminate].
  cbn in Hp |- *. rewrite Hp. cbn.
  destruct (max_by_count_setitem (TrackStats._platform_counts s)
              (StreamEvent.platform e)
              (default 0 (dict_get (TrackStats._platform_counts s)
                            (StreamEvent.platform e)) + 1)) as (tp & ->).
  destruct (max_by_count_setitem (TrackStats._region_counts s)
              (StreamEvent.region e)
              (default 0 (dict_get (TrackStats._region_counts s)
                            (StreamEvent.region e)) + 1)) as (tr & ->).
  cbn. eauto.
Qed.

Lemma ingest_all_defined events track_id title :
  Forall well_formed events ->
  exists s, TrackStats.ingest_all (TrackStats.new track_id title) events = Ok s.
Proof.
  induction events as [| e events IH] using rev_ind; intros Hwf.
  - cbn. eauto.
  - apply Forall_app in Hwf. destruct Hwf as [Hwf He].
    destruct (IH Hwf) as (s & Hs). rewrite ingest_all_snoc, Hs. cbn.
    eapply ingest_defined.
    + eapply history_ingest_all. exact Hs.
    + exact Hwf.
    + inversion He. assumption.
Qed.
End Totality.

Section Engine.
Variable time_time : nat -> float64.
Implicit Types (w : StreamProcessor.world) (e : StreamEvent.t)
  (events : list StreamEvent.t).

Lemma CATALOG_NoDup : List.NoDup (map cat_track_id CATALOG).
Proof. repeat constructor; cbn; intuition discriminate. Qed.

Lemma init_stats :
  StreamProcessor.stats StreamProcessor.init =
  map (fun c => (cat_track_id c, TrackStats.new (cat_track_id c) (cat_title c)))
    CATALOG.
Proof. reflexivity. Qed.

Lemma dict_get_catalog events (cs : list CatalogEntry) (d : dict TrackStats.t) k :
  Forall2 (aggregate_of events) cs d ->
  dict_get d k =
  match List.find (fun c => String.eqb (cat_track_id c) k) cs with
  | Some _ => dict_get d k
  | None => None
  end.
Proof.
  induction 1 as [| c [k0 a] cs d (Hk & _) _ IH]; cbn; [reflexivity |].
  cbn in Hk. subst k0. destruct (String.eqb (cat_track_id c) k); [reflexivity |].
  exact IH.
Qed.

Lemma dict_get_in_catalog events (cs : list CatalogEntry) (d : dict TrackStats.t) k :
  Forall2 (aggregate_of events) cs d ->
  (exists a, dict_get d k = Some a) <->
  existsb (fun c => String.eqb (cat_track_id c) k) cs = true.
Proof.
  induction 1 as [| c [k0 a] cs d (Hk & _) _ IH]; cbn.
  - split; [intros (a & Ha); discriminate | discriminate].
  - cbn in Hk. subst k0. destruct (String.eqb (cat_track_id c) k); cbn.
    + split; eauto.
    + exact IH.
Qed.

Lemma for_track_snoc k events e :
  for_track k (events ++ [e]) =
  if String.eqb (StreamEvent.track_id e) k then for_track k events ++ [e]
  else for_track k events.
Proof.
  unfold for_track. rewrite List.filter_app. cbn.
  destruct (String.eqb (StreamEvent.track_id e) k); [reflexivity |].
  apply app_nil_r.
Qed.

Lemma filter_in_catalog_snoc events e :
  List.filter in_catalog (events ++ [e]) =
  if in_catalog e then List.filter in_catalog events ++ [e]
  else List.filter in_catalog events.
Proof.
  rewrite List.filter_app. cbn [List.filter].
  destruct (in_catalog e); [reflexivity |]. apply app_nil_r.
Qed.

(** An event for an unknown track changes no aggregate. *)
Lemma aggregate_of_unknown events e (cs : list CatalogEntry) d :
  existsb (fun c => String.eqb (cat_track_id c) (StreamEvent.track_id e)) cs = false ->
  Forall2 (aggregate_of events) cs d ->
  Forall2 (aggregate_of (events ++ [e])) cs d.
Proof.
  intros Hnot H. induction H as [| c entry cs d (Hk & Hid & Hti & Hh) _ IH];
    constructor.
  - cbn in Hnot. apply orb_false_iff in Hnot. destruct Hnot as [Hc _].
    unfold aggregate_of. rewrite for_track_snoc.
    rewrite String.eqb_sym, Hc. auto.
  - apply IH. cbn in Hnot. apply orb_false_iff in Hnot. tauto.
Qed.

(** An event for a known track changes the aggregate of that track only. *)
Lemma aggregate_of_ingest events e (cs : list CatalogEntry) d a a' :
  List.NoDup (map cat_track_id cs) ->
  Forall2 (aggregate_of events) cs d ->
  dict_get d (StreamEvent.track_id e) = Some a ->
  TrackStats.ingest a e = Ok a' ->
  Forall2 (aggregate_of (events ++ [e])) cs
    (dict_setitem d (StreamEvent.track_id e) a').
Proof.
  intros Hnd H. revert Hnd.
  induction H as [| c [k0 a0] cs d (Hk & Hid & Hti & Hh) Hrest IH];
    intros Hnd Hget Hing; [discriminate |].
  cbn in Hk, Hid, Hti, Hh. subst k0. inversion Hnd as [| ? ? Hnotin Hnd']; subst.
  cbn in Hget |- *.
  destruct (String.eqb (cat_track_id c) (StreamEvent.track_id e)) eqn:E.
  - injection Hget as ->. constructor.
    + unfold aggregate_of. cbn. rewrite for_track_snoc, String.eqb_sym, E.
      pose proof (history_ingest _ _ _ _ Hh Hing) as Hh'.
      unfold TrackStats.ingest in Hing.
      repeat (apply bind_Ok in Hing; destruct Hing as (? & _ & Hing)).
      injection Hing as <-. cbn. auto.
    + apply aggregate_of_unknown; [| exact Hrest].
      apply String.eqb_eq in E. rewrite <- E.
      apply not_true_is_false. intros Hex. apply existsb_exists in Hex.
      destruct Hex as (c' & Hc' & Heq). apply String.eqb_eq in Heq.
      apply Hnotin. rewrite <- Heq. apply in_map. exact Hc'.
  - constructor.
    + unfold aggregate_of. cbn. rewrite for_track_snoc, String.eqb_sym, E. auto.
    + apply IH; assumption.
Qed.

Lemma dict_get_aggregate events (cs : list CatalogEntry) (d : dict TrackStats.t) k a :
  Forall2 (aggregate_of events) cs d -> dict_get d k = Some a ->
  exists c, In c cs /\ aggregate_of events c (k, a).
Proof.
  induction 1 as [| c [k0 a0] cs d Hc _ IH]; cbn; [discriminate |].
  destruct (String.eqb k0 k) eqn:E.
  - intros [= ->]. apply String.eqb_eq in E. subst k0. exists c. auto.
  - intros Hget. destruct (IH Hget) as (c' & Hin & Hc'). exists c'. auto.
Qed.

Lemma sum_setitem (d : dict TrackStats.t) k a a' :
  dict_get d k = Some a ->
  fold_right (fun s acc => TrackStats.total_streams s + acc) 0
    (dict_values (dict_setitem d k a')) =
  fold_right (fun s acc => TrackStats.total_streams s + acc) 0 (dict_values d)
  - TrackStats.total_streams a + TrackStats.total_streams a'.
Proof.
  unfold dict_values.
  induction d as [| [k0 a0] d IH]; cbn [dict_get dict_setitem]; [discriminate |].
  destruct (String.eqb k0 k); cbn [map fold_right snd].
  - intros [= ->]. lia.
  - intros H. rewrite (IH H). lia.
Qed.

Lemma ingest_total_streams a e a' :
  TrackStats.ingest a e = Ok a' ->
  TrackStats.total_streams a' = TrackStats.total_streams a + 1.
Proof.
  intros Hing. unfold TrackStats.ingest in Hing.
  repeat (apply bind_Ok in Hing; destruct Hing as (? & _ & Hing)).
  injection Hing as <-. reflexivity.
Qed.

Lemma engine_inv_start : engine_inv [] StreamProcessor.start.
Proof.
  split; try reflexivity. cbn [StreamProcessor.start StreamProcessor.self].
  rewrite init_stats.
  induction CATALOG as [| c cs IH]; cbn; constructor; [| exact IH].
  repeat split; try reflexivity; cbn; congruence.
Qed.

Lemma engine_inv_process events w e w' :
  engine_inv events w -> StreamProcessor.process time_time w e = Ok w' ->
  engine_inv (events ++ [e]) w'.
Proof.
  intros [Hstats Htot Hsum Hclk] Hp. unfold StreamProcessor.process in Hp.
  pose proof (dict_get_in_catalog _ _ _ (StreamEvent.track_id e) Hstats) as Hin.
  fold (in_catalog e) in Hin.
  destruct (dict_get _ (StreamEvent.track_id e)) as [a |] eqn:Hget.
  - assert (Hknown : in_catalog e = true) by (apply Hin; eauto).
    apply bind_Ok in Hp. destruct Hp as (a' & Hing & Hp). injection Hp as <-.
    split;
      cbn [StreamProcessor.self StreamProcessor.stats
           StreamProcessor._total_processed StreamProcessor.clock_reads];
      rewrite ?filter_in_catalog_snoc, ?Hknown, ?length_app; cbn [length].
    + eapply aggregate_of_ingest; eauto using CATALOG_NoDup.
    + lia.
    + unfold sum_total_streams in *. cbn [StreamProcessor.stats].
      rewrite (sum_setitem _ _ _ _ Hget), (ingest_total_streams _ _ _ Hing). lia.
    + lia.
  - assert (Hunknown : in_catalog e = false).
    { apply not_true_is_false. intros Ht. apply Hin in Ht.
      destruct Ht; discriminate. }
    injection Hp as <-.
    split; rewrite ?filter_in_catalog_snoc, ?Hunknown; try assumption.
    apply aggregate_of_unknown; assumption.
Qed.

Lemma reachable_inv events w : reachable time_time events w -> engine_inv events w.
Proof.
  induction 1; [apply engine_inv_start | eapply engine_inv_process; eauto].
Qed.
End Engine.

Section StableSort.
Context {A : Type} (key : A -> Z) (pos : A -> nat).

Lemma insert_desc_perm x l : Permutation (insert_desc key x l) (x :: l).
Proof.
  induction l as [| y l IH]; cbn; [reflexivity |].
  destruct (key x >=? key y); [reflexivity |].
  rewrite IH. apply perm_swap.
Qed.

Lemma sorted_reverse_perm l : Permutation (sorted_reverse key l) l.
Proof.
  induction l as [| x l IH]; cbn; [reflexivity |].
  rewrite insert_desc_perm, IH. reflexivity.
Qed.

Lemma insert_desc_sorted x l :
  StronglySorted (before key pos) l -> List.Forall (fun y => (pos x < pos y)%nat) l ->
  StronglySorted (before key pos) (insert_desc key x l).
Proof.
  induction 1 as [| y l Hl IH Hy]; intros Hpos; cbn.
  - repeat constructor.
  - inversion Hpos as [| ? ? Hxy Hpos']; subst.
    destruct (Z.geb_spec (key x) (key y)) as [Hge | Hlt].
    + constructor; [constructor; assumption |].
      assert (Hx : before key pos x y) by (unfold before; lia).
      constructor; [exact Hx |].
      rewrite List.Forall_forall in Hy, Hpos' |- *. intros z Hz.
      specialize (Hy z Hz). specialize (Hpos' z Hz). unfold before in *. lia.
    + constructor; [apply IH; exact Hpos' |].
      rewrite List.Forall_forall in Hy |- *. intros z Hz.
      apply (Permutation_in _ (insert_desc_perm x l)) in Hz.
      destruct Hz as [<- | Hz]; [unfold before; lia | exact (Hy z Hz)].
Qed.

Lemma sorted_reverse_sorted l :
  StronglySorted (fun a b => (pos a < pos b)%nat) l ->
  StronglySorted (before key pos) (sorted_reverse key l).
Proof.
  induction 1 as [| x l Hl IH Hx]; cbn; [constructor |].
  apply insert_desc_sorted; [exact IH |].
  rewrite List.Forall_forall in Hx |- *. intros y Hy. apply Hx.
  apply (Permutation_in _ (sorted_reverse_perm l)). exact Hy.
Qed.
End StableSort.

Section Declaration.
Context {A : Type} (f : A -> string).

Lemma StronglySorted_In_impl (R R' : A -> A -> Prop) l :
  (forall x y, In x l -> In y l -> R x y -> R' x y) ->
  StronglySorted R l -> StronglySorted R' l.
Proof.
  intros Himpl H. induction H as [| x l Hl IH Hx]; constructor.
  - apply IH. intros a b Ha Hb. apply Himpl; right; assumption.
  - rewrite List.Forall_forall in Hx |- *. intros y Hy.
    apply Himpl; [left; reflexivity | right; exact Hy | exact (Hx y Hy)].
Qed.

(** Items with distinct names are sorted by the position of their name. *)
Lemma sorted_by_index l :
  List.NoDup (map f l) ->
  StronglySorted
    (fun a b => (index_of (f a) (map f l) < index_of (f b) (map f l))%nat) l.
Proof.
  induction l as [| a l IH]; intros Hnd; [constructor |].
  inversion Hnd as [| ? ? Hnotin Hnd']; subst.
  assert (Hne : forall x, In x l -> String.eqb (f a) (f x) = false).
  { intros x Hx. apply String.eqb_neq. intros Heq. apply Hnotin.
    rewrite Heq. apply in_map. exact Hx. }
  constructor.
  - apply (StronglySorted_In_impl
             (fun a b => (index_of (f a) (map f l) < index_of (f b) (map f l))%nat)).
    + intros x y Hx Hy Hlt. cbn. rewrite (Hne x Hx), (Hne y Hy). lia.
    + apply IH. exact Hnd'.
  - rewrite List.Forall_forall. intros x Hx. cbn.
    rewrite String.eqb_refl, (Hne x Hx). lia.
Qed.
End Declaration.

Section Slice.
Context {A : Type}.

Lemma slice_to_nonneg (l : list A) (n : Z) :
  0 <= n -> slice_to l n = firstn (Z.to_nat n) l.
Proof.
  intros Hn. unfold slice_to. destruct (Z.ltb_spec n 0); [lia | reflexivity].
Qed.
End Slice.

Section Leaderboard.
Variable time_time : nat -> float64.

Lemma stats_track_ids events (cs : list CatalogEntry) (d : dict TrackStats.t) :
  Forall2 (aggregate_of events) cs d ->
  map TrackStats.track_id (dict_values d) = map cat_track_id cs.
Proof.
  induction 1 as [| c [k a] cs d (_ & Hid & _) _ IH]; cbn; [reflexivity |].
  cbn in Hid. rewrite Hid. f_equal. exact IH.
Qed.

Lemma stats_sorted_by_rank events w :
  reachable time_time events w ->
  StronglySorted (fun a b => (catalog_rank a < catalog_rank b)%nat)
    (dict_values (StreamProcessor.stats (StreamProcessor.self w))).
Proof.
  intros Hr. apply reachable_inv in Hr. destruct Hr as [Hstats _ _ _].
  apply stats_track_ids in Hstats. unfold catalog_rank. rewrite <- Hstats.
  apply sorted_by_index. rewrite Hstats. apply CATALOG_NoDup.
Qed.

End Leaderboard.

Section ProcessDefined.
Variable time_time : nat -> float64.

Lemma for_track_well_formed k events :
  List.Forall well_formed events -> List.Forall well_formed (for_track k events).
Proof.
  intros H. apply List.Forall_forall. intros e He.
  apply List.filter_In in He. destruct He as [He _].
  rewrite List.Forall_forall in H. exact (H e He).
Qed.

(** [process] does not raise on a well-formed event. *)
Lemma process_defined events w e :
  reachable time_time events w ->
  List.Forall well_formed events -> well_formed e ->
  exists w', StreamProcessor.process time_time w e = Ok w'.
Proof.
  intros Hr Hwf He. apply reachable_inv in Hr.
  unfold StreamProcessor.process.
  destruct (dict_get _ (StreamEvent.track_id e)) as [a |] eqn:Hget; [| eauto].
  destruct (dict_get_aggregate _ _ _ _ _ (inv_stats _ _ Hr) Hget)
    as (c & _ & _ & _ & _ & Hh).
  cbn [snd] in Hh.
  destruct (ingest_defined _ a e Hh (for_track_well_formed _ _ Hwf) He) as (a' & ->).
  cbn. eauto.
Qed.

Lemma process_batch_defined events' :
  forall events w,
    reachable time_time events w ->
    List.Forall well_formed events -> List.Forall well_formed events' ->
    exists w', StreamProcessor.process_batch time_time w events' = Ok w'.
Proof.
  induction events' as [| e events' IH]; intros events w Hr Hwf Hwf'; cbn.
  - eauto.
  - inversion Hwf' as [| ? ? He Hrest]; subst.
    destruct (process_defined events w e Hr Hwf He) as (w1 & H1). rewrite H1. cbn.
    apply (IH (events ++ [e]) w1).
    + econstructor; eassumption.
    + apply List.Forall_app. split; [exact Hwf |].
      constructor; [exact He | constructor].
    + exact Hrest.
Qed.
End ProcessDefined.

Lemma three_plays_run :
  TrackStats.ingest_all (TrackStats.new "jw-001" "In My Room") three_plays
  = Ok (run_aggregate three_plays).
Proof. vm_compute. reflexivity. Qed.

Lemma tie_plays_run :
  TrackStats.ingest_all (TrackStats.new "jw-001" "In My Room") (tie_plays ++ [tie_last])
  = Ok (run_aggregate (tie_plays ++ [tie_last])).
Proof. vm_compute. reflexivity. Qed.

Lemma mixed_plays_run :
  StreamProcessor.process_batch idle_clock StreamProcessor.start mixed_plays
  = Ok (run_engine mixed_plays).
Proof. vm_compute. reflexivity. Qed.

Section Reachability.
Variable time_time : nat -> float64.

Lemma process_batch_reachable events' :
  forall events w w',
    reachable time_time events w ->
    StreamProcessor.process_batch time_time w events' = Ok w' ->
    reachable time_time (events ++ events') w'.
Proof.
  induction events' as [| e events' IH]; intros events w w' Hr Hb; cbn in Hb.
  - injection Hb as <-. rewrite app_nil_r. exact Hr.
  - apply bind_Ok in Hb. destruct Hb as (w1 & H1 & Hb).
    change (e :: events') with ([e] ++ events'). rewrite app_assoc.
    eapply IH; [| exact Hb]. econstructor; eassumption.
Qed.
End Reachability.

Lemma mixed_plays_reachable :
  reachable idle_clock mixed_plays (run_engine mixed_plays).
Proof.
  apply (process_batch_reachable idle_clock mixed_plays [] StreamProcessor.start).
  - constructor.
  - exact mixed_plays_run.
Qed.

Lemma same_tally_selects l l' v :
  same_tally l l' -> most_frequent_first_seen l v -> most_frequent_first_seen l' v.
Proof.
  intros [Hocc Hidx] (Hin & Hmax & Hfirst). split; [| split].
  - apply occurrences_pos. rewrite <- Hocc. apply occurrences_pos. exact Hin.
  - intros y. rewrite <- !Hocc. apply Hmax.
  - intros y Hlt. rewrite <- !Hocc. apply Hfirst. apply Hidx. exact Hlt.
Qed.

Lemma top_selected track_id title events s :
  TrackStats.ingest_all (TrackStats.new track_id title) events = Ok s ->
  events <> [] ->
  most_frequent_first_seen (map StreamEvent.platform events) (TrackStats.top_platform s) /\
  most_frequent_first_seen (map StreamEvent.region events) (TrackStats.top_region s).
Proof.
  intros Hrun Hne. apply history_ingest_all in Hrun.
  split; apply max_by_count_tally.
  - exact (h_top_platform _ _ Hrun Hne).
  - exact (h_top_region _ _ Hrun Hne).
Qed.

Lemma same_tally_nonempty {A} (f : A -> string) (l l' : list A) :
  same_tally (map f l) (map f l') -> l <> [] -> l' <> [].
Proof.
  intros [Hocc _] Hne. destruct l as [| a l]; [congruence |].
  intros ->. specialize (Hocc (f a)). cbn in Hocc. unfold occurrences in Hocc.
  cbn in Hocc. destruct (string_dec (f a) (f a)); [discriminate | congruence].
Qed.

(** C1 (as the code has it).  After a non-empty sequence of events has been
    ingested into a fresh aggregate, [top_platform] (and likewise
    [top_region]) is the value with the highest count and, among the values
    with that count, the one that appeared first in the sequence.  One more
    ingest changes it only in favour of the value of the new event, and only
    when that value now has a strictly greater count than the former
    leader, or the same count and an earlier first appearance.  Two
    sequences with the same per-value counts and the same order of first
    appearances select the same value. *)
Theorem top_platform_region_first_seen :
  forall track_id title events s,
    TrackStats.ingest_all (TrackStats.new track_id title) events = Ok s ->
    events <> [] ->
    most_frequent_first_seen (map StreamEvent.platform events)
      (TrackStats.top_platform s) /\
    most_frequent_first_seen (map StreamEvent.region events)
      (TrackStats.top_region s) /\
    (forall e s',
       TrackStats.ingest s e = Ok s' ->
       (TrackStats.top_platform s' <> TrackStats.top_platform s ->
        TrackStats.top_platform s' = StreamEvent.platform e /\
        overtakes (map StreamEvent.platform (events ++ [e]))
          (StreamEvent.platform e) (TrackStats.top_platform s)) /\
       (TrackStats.top_region s' <> TrackStats.top_region s ->
        TrackStats.top_region s' = StreamEvent.region e /\
        overtakes (map StreamEvent.region (events ++ [e]))
          (StreamEvent.region e) (TrackStats.top_region s))) /\
    (forall events' s',
       TrackStats.ingest_all (TrackStats.new track_id title) events' = Ok s' ->
       (same_tally (map StreamEvent.platform events)
          (map StreamEvent.platform events') ->
        TrackStats.top_platform s' = TrackStats.top_platform s) /\
       (same_tally (map StreamEvent.region events)
          (map StreamEvent.region events') ->
        TrackStats.top_region s' = TrackStats.top_region s)).
Proof.
  intros track_id title events s Hrun Hne.
  destruct (top_selected _ _ _ _ Hrun Hne) as [Hp Hr].
  split; [exact Hp | split; [exact Hr | split]].
  - intros e s' Hing.
    assert (Hrun' : TrackStats.ingest_all (TrackStats.new track_id title)
                      (events ++ [e]) = Ok s').
    { rewrite ingest_all_snoc, Hrun. exact Hing. }
    destruct (top_selected _ _ _ _ Hrun') as [Hp' Hr'].
    { destruct events; discriminate. }
    rewrite map_app in Hp', Hr' |- *. rewrite map_app. cbn [map] in *.
    split; intros Hchange; eapply leader_change; eassumption.
  - intros events' s' Hrun'. split; intros Hsame.
    + pose proof (same_tally_nonempty _ _ _ Hsame Hne) as Hne'.
      destruct (top_selected _ _ _ _ Hrun' Hne') as [Hp' _].
      eapply most_frequent_first_seen_unique; [exact Hp' |].
      eapply same_tally_selects; eassumption.
    + pose proof (same_tally_nonempty _ _ _ Hsame Hne) as Hne'.
      destruct (top_selected _ _ _ _ Hrun' Hne') as [_ Hr'].
      eapply most_frequent_first_seen_unique; [exact Hr' |].
      eapply same_tally_selects; eassumption.
Qed.

Lemma top_platform_region_first_seen_witness :
  most_frequent_first_seen (map StreamEvent.platform (tie_plays ++ [tie_last]))
    (TrackStats.top_platform (run_aggregate (tie_plays ++ [tie_last]))) /\
  most_frequent_first_seen (map StreamEvent.region (tie_plays ++ [tie_last]))
    (TrackStats.top_region (run_aggregate (tie_plays ++ [tie_last]))).
Proof.
  destruct (top_platform_region_first_seen "jw-001" "In My Room"
              (tie_plays ++ [tie_last]) (run_aggregate (tie_plays ++ [tie_last])))
    as (Hp & Hr & _).
  - exact tie_plays_run.
  - discriminate.
  - split; assumption.
Defined.

(** C1 (as the specification states it) fails: after Tidal, Spotify,
    Spotify the leader is Spotify with 2 plays; a second Tidal play ties at
    2 and the code switches to Tidal, although Spotify reached 2 first. *)
Lemma top_platform_tie_counterexample :
  exists s3 s4,
    TrackStats.ingest_all (TrackStats.new "jw-001" "In My Room") tie_plays = Ok s3 /\
    TrackStats.ingest s3 tie_last = Ok s4 /\
    TrackStats.top_platform s3 = "Spotify"%string /\
    TrackStats.top_platform s4 = "Tidal"%string /\
    dict_get (TrackStats._platform_counts s4) "Spotify" = Some 2 /\
    dict_get (TrackStats._platform_counts s4) "Tidal" = Some 2 /\
    first_to_reach_max (map StreamEvent.platform (tie_plays ++ [tie_last]))
    = "Spotify"%string.
Proof.
  exists (run_aggregate tie_plays), (run_aggregate (tie_plays ++ [tie_last])).
  repeat apply conj; vm_compute; reflexivity.
Qed.

(** C2.  [throughput] divides the length of the window as the last call of
    [process] left it, and reads no clock: one play processed at 1000 s still
    counts when the clock reads 1061 s, where the documented value ("events
    per second over the last WINDOW_SIZE seconds") is 0. *)
Theorem throughput_stale_after_idle :
  let e := play "jw-001" "user_00001" "Spotify" "US-West" 100 false in
  exists w,
    StreamProcessor.process idle_clock StreamProcessor.start e = Ok w /\
    idle_clock (StreamProcessor.clock_reads w) = Finite 1061 /\
    StreamProcessor.throughput (StreamProcessor.self w) = Ok (float_literal 16666666666666666 18) /\
    throughput_last_window (idle_clock (StreamProcessor.clock_reads w))
      (StreamProcessor.self w) = Ok (Finite 0).
Proof.
  exists (run_engine [play "jw-001" "user_00001" "Spotify" "US-West" 100 false]).
  repeat apply conj; vm_compute; reflexivity.
Qed.

(** What the claim and the code agree on: three plays processed within one
    second on a fresh engine give a throughput of 3/60, and [process] itself
    evicts the entries older than 60 s (the play of 1000 s is gone once a
    play is processed at 1061 s). *)
Example throughput_after_burst :
  exists w,
    StreamProcessor.process_batch burst_clock StreamProcessor.start three_plays = Ok w /\
    StreamProcessor._window (StreamProcessor.self w)
    = [Finite 1000; Finite (4001 # 4); Finite (2001 # 2)] /\
    StreamProcessor.throughput (StreamProcessor.self w) = Ok (float_literal 5 2).
Proof.
  exists (match StreamProcessor.process_batch burst_clock StreamProcessor.start
                  three_plays with
          | Ok w => w
          | Raise _ => StreamProcessor.start
          end).
  repeat apply conj; vm_compute; reflexivity.
Qed.

Example process_evicts_stale_entries :
  StreamProcessor._window (StreamProcessor.self (run_engine mixed_plays))
  = [Finite 1061; Finite 1062].
Proof. vm_compute. reflexivity. Qed.



(** C4.  An event whose [track_id] is not a key of [stats] (in a reachable
    state: not a track of the catalog) is dropped: [process] returns
    normally and the whole state, including every aggregate,
    [_total_processed] and [_window], is as before. *)
Theorem unknown_track_noop :
  forall time_time w e,
    (dict_contains (StreamProcessor.stats (StreamProcessor.self w))
       (StreamEvent.track_id e) = false ->
     StreamProcessor.process time_time w e = Ok w) /\
    (forall events, reachable time_time events w -> in_catalog e = false ->
     StreamProcessor.process time_time w e = Ok w).
Proof.
  intros time_time w e.
  assert (Hdrop : dict_contains (StreamProcessor.stats (StreamProcessor.self w))
                    (StreamEvent.track_id e) = false ->
                  StreamProcessor.process time_time w e = Ok w).
  { unfold dict_contains, StreamProcessor.process.
    destruct (dict_get _ _); [discriminate | reflexivity]. }
  split; [exact Hdrop |].
  intros events Hr Hunknown. apply Hdrop. apply reachable_inv in Hr.
  pose proof (dict_get_in_catalog _ _ _ (StreamEvent.track_id e) (inv_stats _ _ Hr)) as Hin.
  fold (in_catalog e) in Hin. unfold dict_contains.
  destruct (dict_get _ _) as [a |]; [| reflexivity].
  rewrite (proj1 Hin) in Hunknown by eauto. discriminate.
Qed.

Lemma unknown_track_noop_witness :
  StreamProcessor.process idle_clock (run_engine mixed_plays)
    (play "jw-404" "user_00002" "Tidal" "US-East" 150 true)
  = Ok (run_engine mixed_plays).
Proof.
  apply (proj2 (unknown_track_noop idle_clock (run_engine mixed_plays)
                  (play "jw-404" "user_00002" "Tidal" "US-East" 150 true))
           mixed_plays mixed_plays_reachable).
  reflexivity.
Defined.

(** C5.  In a reachable state and for [n >= 0], [top_tracks(n)] is the
    first [n] aggregates (all of them when [n] exceeds their number) of the
    aggregates put in the order "more streams first, and for equal streams
    the track declared first in CATALOG": completed by the aggregates left
    out, the result is a permutation of [stats.values()] sorted in that
    order. *)
Theorem top_tracks_leaderboard :
  forall time_time events w n,
    reachable time_time events w -> 0 <= n ->
    let all := dict_values (StreamProcessor.stats (StreamProcessor.self w)) in
    let top := StreamProcessor.top_tracks (StreamProcessor.self w) n in
    exists rest,
      Permutation (top ++ rest) all /\
      StronglySorted ranks_before (top ++ rest) /\
      length top = Z.to_nat (Z.min n (Z.of_nat (length CATALOG))).
Proof.
  intros time_time events w n Hr Hn all top.
  set (sorted := sorted_reverse TrackStats.total_streams all).
  exists (skipn (Z.to_nat n) sorted).
  assert (Htop : top = firstn (Z.to_nat n) sorted).
  { unfold top, StreamProcessor.top_tracks. apply slice_to_nonneg. exact Hn. }
  rewrite Htop, firstn_skipn. split; [| split].
  - apply sorted_reverse_perm.
  - apply (sorted_reverse_sorted TrackStats.total_streams catalog_rank).
    eapply stats_sorted_by_rank. exact Hr.
  - rewrite length_firstn. unfold sorted.
    rewrite (Permutation_length (sorted_reverse_perm TrackStats.total_streams all)).
    unfold all. unfold dict_values. rewrite length_map.
    apply reachable_inv in Hr. destruct Hr as [Hstats _ _ _].
    rewrite <- (Forall2_length _ _ _ Hstats). lia.
Qed.

Lemma top_tracks_leaderboard_witness :
  exists rest,
    Permutation
      (StreamProcessor.top_tracks (StreamProcessor.self (run_engine mixed_plays)) 3 ++ rest)
      (dict_values (StreamProcessor.stats (StreamProcessor.self (run_engine mixed_plays)))) /\
    StronglySorted ranks_before
      (StreamProcessor.top_tracks (StreamProcessor.self (run_engine mixed_plays)) 3 ++ rest) /\
    length (StreamProcessor.top_tracks (StreamProcessor.self (run_engine mixed_plays)) 3)
    = 3%nat.
Proof.
  apply (top_tracks_leaderboard idle_clock mixed_plays (run_engine mixed_plays) 3
           mixed_plays_reachable).
  lia.
Defined.

(** The leaderboard of the sample run: the track with two plays, then the
    track with one, then the first declared track among those with none. *)
Example top_tracks_sample :
  map TrackStats.track_id
    (StreamProcessor.top_tracks (StreamProcessor.self (run_engine mixed_plays)) 3)
  = ["jw-005"; "jw-002"; "jw-001"]%string.
Proof. vm_compute. reflexivity. Qed.



(** C7.  After every ingest, [avg_listen_s] is the quotient of the sum of
    the [listened_s] of the events ingested by their number, as a float:
    the double nearest to the exact quotient.  When no [listened_s] is
    negative it is not negative, and its relative distance to the exact
    quotient is at most [2^-53] (plus [2^-1075] next to zero). *)
Theorem avg_listen_correct :
  forall track_id title events s,
    TrackStats.ingest_all (TrackStats.new track_id title) events = Ok s ->
    events <> [] ->
    let q := (inject_Z (listened_total events)
              / inject_Z (Z.of_nat (length events)))%Q in
    TrackStats._listen_total s = listened_total events /\
    TrackStats.total_streams s = Z.of_nat (length events) /\
    TrackStats.avg_listen_s s = round_to_double q /\
    (List.Forall (fun e => 0 <= StreamEvent.listened_s e) events ->
     exists v,
       TrackStats.avg_listen_s s = Finite v /\ (0 <= v)%Q /\
       (Qabs (v - q) <= q * pow2 (-53) + pow2 (-1075))%Q).
Proof.
  intros track_id title events s Hrun Hne q. apply history_ingest_all in Hrun.
  pose proof (h_avg _ _ Hrun Hne) as Havg.
  pose proof (int_truediv_Ok _ _ _ Havg) as Hround. fold q in Hround.
  split; [exact (h_listen _ _ Hrun) | split; [exact (h_total _ _ Hrun) | split]].
  - exact Hround.
  - intros Hpos.
    assert (Hsum : 0 <= listened_total events).
    { clear -Hpos. unfold listened_total.
      induction Hpos as [| e events He _ IH]; cbn [fold_right]; lia. }
    assert (Hlen : 0 < Z.of_nat (length events))
      by (destruct events; [congruence | cbn; lia]).
    destruct (int_truediv_nonneg _ _ _ Hsum Hlen Havg) as (v & Hv & Hv0).
    exists v. split; [exact Hv | split; [exact Hv0 |]].
    apply round_to_double_relative; [| congruence].
    unfold q. apply Qle_shift_div_l.
    + change 0%Q with (inject_Z 0). rewrite <- Zlt_Qlt. exact Hlen.
    + rewrite Qmult_0_l. change 0%Q with (inject_Z 0). rewrite <- Zle_Qle.
      exact Hsum.
Qed.

Lemma avg_listen_correct_witness :
  TrackStats.avg_listen_s (run_aggregate three_plays) = round_to_double (433 # 3) /\
  exists v, TrackStats.avg_listen_s (run_aggregate three_plays) = Finite v /\ (0 <= v)%Q.
Proof.
  destruct (avg_listen_correct "jw-001" "In My Room" three_plays
              (run_aggregate three_plays) three_plays_run) as (_ & _ & Havg & Hpos).
  - discriminate.
  - split.
    + rewrite Havg. vm_compute. reflexivity.
    + destruct Hpos as (v & Hv & Hv0 & _).
      * unfold three_plays, play. repeat constructor; cbn; lia.
      * exists v. split; assumption.
Defined.

Section Distinct.
Implicit Types (l : list string).

Lemma size_list_to_set_distinct l :
  size (list_to_set l : gset string) = length (remove_dups l).
Proof.
  rewrite <- (size_list_to_set (C := gset string) (remove_dups l))
    by apply NoDup_remove_dups.
  f_equal. apply set_eq. intros x.
  rewrite !elem_of_list_to_set. symmetry. apply elem_of_remove_dups.
Qed.

Lemma length_remove_dups_le l : (length (remove_dups l) <= length l)%nat.
Proof.
  induction l as [| x l IH]; cbn; [lia |].
  destruct (decide_rel elem_of x l); cbn; lia.
Qed.
End Distinct.

(** C8.  In every state of an aggregate, [unique_users] is the number of
    distinct [user_id]s among the events ingested, and it is at most
    [total_streams], the number of these events. *)
Theorem unique_users_exact :
  forall track_id title events s,
    TrackStats.ingest_all (TrackStats.new track_id title) events = Ok s ->
    TrackStats.unique_users s
    = Z.of_nat (length (remove_dups (map StreamEvent.user_id events))) /\
    TrackStats.total_streams s = Z.of_nat (length events) /\
    TrackStats.unique_users s <= TrackStats.total_streams s.
Proof.
  intros track_id title events s Hrun. apply history_ingest_all in Hrun.
  rewrite (h_unique _ _ Hrun), (h_total _ _ Hrun). unfold distinct_users.
  rewrite size_list_to_set_distinct.
  pose proof (length_remove_dups_le (map StreamEvent.user_id events)) as Hle.
  rewrite length_map in Hle. repeat split; lia.
Qed.

Lemma unique_users_exact_witness :
  TrackStats.unique_users (run_aggregate three_plays) = 3 /\
  TrackStats.total_streams (run_aggregate three_plays) = 3.
Proof.
  destruct (unique_users_exact "jw-001" "In My Room" three_plays
              (run_aggregate three_plays) three_plays_run) as (Hu & Ht & _).
  rewrite Hu, Ht. split; reflexivity.
Defined.

(** C9.  [process_batch(events)] returns the state, or raises the
    exception, that calling [process] on each event of the list in turn
    does. *)
Theorem process_batch_sequential :
  forall time_time w events,
    StreamProcessor.process_batch time_time w events
    = sequential_calls time_time w events.
Proof.
  intros time_time w events. unfold sequential_calls.
  assert (Hraise : forall ex l,
            fold_left (fun r e => w' ← r; StreamProcessor.process time_time w' e)
              l (Raise ex) = Raise ex).
  { intros ex l. induction l as [| e l IH]; cbn; [reflexivity | exact IH]. }
  revert w. induction events as [| e events IH]; intros w; cbn; [reflexivity |].
  destruct (StreamProcessor.process time_time w e) as [w' | ex]; cbn.
  - apply IH.
  - symmetry. apply Hraise.
Qed.

(** C10.  An aggregate that has ingested no event shows [unique_users]
    0, [completion_pct] 0.0, [avg_listen_s] 0.0 and empty [top_platform]
    and [top_region]; on a fresh engine this is every aggregate, and
    [throughput()] and [top_tracks(n)] return without an error. *)
Theorem fresh_aggregate_defaults :
  (forall time_time events w k a,
     reachable time_time events w ->
     dict_get (StreamProcessor.stats (StreamProcessor.self w)) k = Some a ->
     TrackStats.total_streams a = 0 ->
     TrackStats.unique_users a = 0 /\
     TrackStats.completion_pct a = Finite 0 /\
     TrackStats.avg_listen_s a = Finite 0 /\
     TrackStats.top_platform a = ""%string /\
     TrackStats.top_region a = ""%string) /\
  List.Forall
    (fun a => TrackStats.total_streams a = 0 /\
              TrackStats.unique_users a = 0 /\
              TrackStats.completion_pct a = Finite 0 /\
              TrackStats.avg_listen_s a = Finite 0 /\
              TrackStats.top_platform a = ""%string /\
              TrackStats.top_region a = ""%string)
    (dict_values (StreamProcessor.stats StreamProcessor.init)) /\
  length (dict_values (StreamProcessor.stats StreamProcessor.init)) = 10%nat /\
  StreamProcessor.throughput StreamProcessor.init = Ok (Finite 0) /\
  StreamProcessor.top_tracks StreamProcessor.init 5
  = firstn 5 (dict_values (StreamProcessor.stats StreamProcessor.init)).
Proof.
  split; [| split; [| split; [| split]]].
  - intros time_time events w k a Hr Hget Hzero. apply reachable_inv in Hr.
    destruct (dict_get_aggregate _ _ _ _ _ (inv_stats _ _ Hr) Hget)
      as (c & _ & _ & _ & _ & Hh).
    cbn [snd] in Hh. rewrite (h_total _ _ Hh) in Hzero.
    assert (Hnil : for_track (cat_track_id c) events = []).
    { destruct (for_track (cat_track_id c) events); [reflexivity | cbn in Hzero; lia]. }
    rewrite (h_fresh _ _ Hh Hnil). repeat apply conj; reflexivity.
  - rewrite init_stats. unfold dict_values. rewrite map_map. cbn [snd].
    apply List.Forall_forall. intros a Ha. apply in_map_iff in Ha.
    destruct Ha as (c & <- & _). repeat apply conj; reflexivity.
  - reflexivity.
  - vm_compute. reflexivity.
  - reflexivity.
Qed.

Lemma fresh_aggregate_defaults_witness :
  let a := TrackStats.new "jw-001" "In My Room" in
  TrackStats.unique_users a = 0 /\
  TrackStats.completion_pct a = Finite 0 /\
  TrackStats.avg_listen_s a = Finite 0 /\
  TrackStats.top_platform a = ""%string /\
  TrackStats.top_region a = ""%string.
Proof.
  apply (proj1 fresh_aggregate_defaults idle_clock mixed_plays
           (run_engine mixed_plays) "jw-001"%string
           (TrackStats.new "jw-001" "In My Room") mixed_plays_reachable);
    vm_compute; reflexivity.
Defined.

(* ===================================================================== *)
(** * Lemmas for the further properties                                  *)
(* ===================================================================== *)

(** ** Rounding to the nearest double is monotone *)

Section Monotone.
Local Open Scope Q_scope.

Lemma round_half_even_mono x y :
  x <= y -> (round_half_even x <= round_half_even y)%Z.
Proof.
  intros Hxy. pose proof (Qfloor_resp_le _ _ Hxy) as Hf.
  pose proof (round_half_even_floor x) as Hx.
  pose proof (round_half_even_floor y) as Hy.
  destruct (Z.eq_dec (Qfloor x) (Qfloor y)) as [Heq | Hne]; [| lia].
  unfold round_half_even in *. cbv zeta in *. rewrite <- Heq in *.
  destruct (Qcompare (x - inject_Z (Qfloor x)) (1 # 2)) eqn:Hcx;
    destruct (Qcompare (y - inject_Z (Qfloor x)) (1 # 2)) eqn:Hcy;
    try lia;
    repeat match goal with
           | H : Qcompare _ _ = Eq |- _ => apply Qeq_alt in H
           | H : Qcompare _ _ = Lt |- _ => apply Qlt_alt in H
           | H : Qcompare _ _ = Gt |- _ => apply Qgt_alt in H
           end; try (exfalso; lra); destruct (Z.even (Qfloor x)); lia.
Qed.

(** [round_half_even x] is the only integer within a half of [x], the even
    one when two integers are. *)
Lemma round_half_even_unique x (r : Z) :
  Qabs (inject_Z r - x) < 1 # 2 \/
  (Qabs (inject_Z r - x) == 1 # 2 /\ Z.even r = true) ->
  round_half_even x = r.
Proof.
  intros Hr. pose proof (Qfloor_le x) as Hlo. pose proof (Qlt_floor x) as Hhi.
  rewrite inject_Z_plus in Hhi. change (inject_Z 1) with 1 in Hhi.
  set (f := Qfloor x) in *.
  assert (Hrange : (r = f \/ r = f + 1)%Z).
  { assert (Hle : Qabs (inject_Z r - x) <= 1 # 2).
    { destruct Hr as [H | [H _]]; [apply Qlt_le_weak; exact H | rewrite H; apply Qle_refl]. }
    apply Qabs_Qle_condition in Hle. destruct Hle as [H1 H2].
    assert (Ha : inject_Z (f + -1) < inject_Z r).
    { rewrite inject_Z_plus. change (inject_Z (-1)) with (-1). lra. }
    assert (Hb : inject_Z r < inject_Z (f + 2)).
    { rewrite inject_Z_plus. change (inject_Z 2) with 2. lra. }
    rewrite <- Zlt_Qlt in Ha, Hb. lia. }
  unfold round_half_even. cbv zeta. fold f.
  destruct (Qcompare (x - inject_Z f) (1 # 2)) eqn:Hc.
  - apply Qeq_alt in Hc.
    destruct Hr as [Hlt | [_ Hev]].
    + exfalso. apply Qabs_Qlt_condition in Hlt. destruct Hlt as [H1 H2].
      destruct Hrange as [-> | ->]; [lra |].
      rewrite inject_Z_plus in H1, H2. change (inject_Z 1) with 1 in *. lra.
    + destruct Hrange as [-> | ->].
      * rewrite Hev. reflexivity.
      * rewrite Z.even_add in Hev. cbn in Hev.
        destruct (Z.even f); [discriminate | reflexivity].
  - apply Qlt_alt in Hc. destruct Hrange as [-> | ->]; [reflexivity | exfalso].
    rewrite inject_Z_plus in Hr. change (inject_Z 1) with 1 in Hr.
    destruct Hr as [Hlt | [Heq _]].
    + apply Qabs_Qlt_condition in Hlt. lra.
    + assert (H : Qabs (inject_Z f + 1 - x) == inject_Z f + 1 - x)
        by (apply Qabs_pos; lra).
      rewrite H in Heq. lra.
  - apply Qgt_alt in Hc. destruct Hrange as [-> | ->]; [exfalso | reflexivity].
    destruct Hr as [Hlt | [Heq _]].
    + apply Qabs_Qlt_condition in Hlt. lra.
    + assert (H : Qabs (inject_Z f - x) == - (inject_Z f - x))
        by (apply Qabs_neg; lra).
      rewrite H in Heq. lra.
Qed.

Lemma round_half_even_opp x : round_half_even (- x) = (- round_half_even x)%Z.
Proof.
  apply round_half_even_unique.
  assert (Heq : inject_Z (- round_half_even x) - - x == - (inject_Z (round_half_even x) - x)).
  { rewrite inject_Z_opp. ring. }
  rewrite Heq, Qabs_opp. rewrite Z.even_opp.
  pose proof (round_half_even_error x) as Herr.
  destruct (Qlt_le_dec (Qabs (inject_Z (round_half_even x) - x)) (1 # 2)) as [Hlt | Hge];
    [left; exact Hlt | right].
  assert (Hhalf : Qabs (inject_Z (round_half_even x) - x) == 1 # 2) by lra.
  split; [exact Hhalf |].
  pose proof (Qfloor_le x) as Hlo. pose proof (Qlt_floor x) as Hhi.
  rewrite inject_Z_plus in Hhi. change (inject_Z 1) with 1 in Hhi.
  unfold round_half_even in *. cbv zeta in *.
  destruct (Qcompare (x - inject_Z (Qfloor x)) (1 # 2)) eqn:Hc.
  - destruct (Z.even (Qfloor x)) eqn:He; [exact He |].
    rewrite Z.even_add, He. reflexivity.
  - exfalso. apply Qlt_alt in Hc.
    assert (H : Qabs (inject_Z (Qfloor x) - x) == - (inject_Z (Qfloor x) - x))
      by (apply Qabs_neg; lra).
    rewrite H in Hhalf. lra.
  - exfalso. apply Qgt_alt in Hc. rewrite inject_Z_plus in Hhalf.
    change (inject_Z 1) with 1 in Hhalf.
    assert (H : Qabs (inject_Z (Qfloor x) + 1 - x) == inject_Z (Qfloor x) + 1 - x)
      by (apply Qabs_pos; lra).
    rewrite H in Hhalf. lra.
Qed.

Lemma round_to_double_rounded q :
  round_to_double q =
  if Qeq_bool q 0 then Finite 0
  else if Qle_bool (pow2 1024) (Qabs (rounded q))
       then Inf (negb (Qle_bool 0 q))
       else Finite (Qred (rounded q)).
Proof. reflexivity. Qed.

Lemma Qabs_opp_eq q : Qabs (- q) = Qabs q.
Proof. destruct q as [n d]. unfold Qabs, Qopp. cbn. rewrite Z.abs_opp. reflexivity. Qed.

Lemma ulp_exp_opp q : ulp_exp (- q) = ulp_exp q.
Proof. unfold ulp_exp. rewrite Qabs_opp_eq. reflexivity. Qed.

Lemma rounded_opp q : rounded (- q) == - rounded q.
Proof.
  unfold rounded. rewrite ulp_exp_opp.
  pose proof (pow2_pos (ulp_exp q)) as He.
  assert (Hdiv : - q / pow2 (ulp_exp q) == - (q / pow2 (ulp_exp q))).
  { field. lra. }
  assert (Hr : round_half_even (- q / pow2 (ulp_exp q))
               = (- round_half_even (q / pow2 (ulp_exp q)))%Z).
  { rewrite <- round_half_even_opp.
    apply Z.le_antisymm; apply round_half_even_mono; rewrite Hdiv; apply Qle_refl. }
  rewrite Hr, inject_Z_opp. ring.
Qed.

Lemma rounded_nonneg q : 0 <= q -> 0 <= rounded q.
Proof.
  intros Hq. unfold rounded. pose proof (pow2_pos (ulp_exp q)) as He.
  apply Qmult_le_0_compat; [| lra].
  change 0 with (inject_Z 0). rewrite <- Zle_Qle.
  apply round_half_even_ge. apply Qle_shift_div_l; [exact He |].
  rewrite Qmult_0_l. exact Hq.
Qed.

Lemma rounded_nonpos q : q <= 0 -> rounded q <= 0.
Proof.
  intros Hq. assert (H : 0 <= rounded (- q)) by (apply rounded_nonneg; lra).
  rewrite rounded_opp in H. lra.
Qed.

Lemma rounded_mono_pos q1 q2 : 0 < q1 -> q1 <= q2 -> rounded q1 <= rounded q2.
Proof.
  intros Hq1 Hq12. assert (Hq2 : 0 < q2) by lra.
  pose proof (ulp_exp_le q1 q2 Hq1 Hq12) as He.
  unfold rounded.
  pose proof (pow2_pos (ulp_exp q1)) as Hp1.
  pose proof (pow2_pos (ulp_exp q2)) as Hp2.
  destruct (Z.eq_dec (ulp_exp q1) (ulp_exp q2)) as [Heq | Hne].
  - rewrite Heq. apply Qmult_le_compat_r; [| lra].
    rewrite <- Zle_Qle. apply round_half_even_mono.
    apply Qmult_le_compat_r; [exact Hq12 |]. apply Qinv_le_0_compat. lra.
  - (* q2 lies in a higher binade: a power of two separates the results *)
    assert (Hlt : (ulp_exp q1 < ulp_exp q2)%Z) by lia.
    unfold ulp_exp in Hlt, He. rewrite !Qabs_nonneg_eq in Hlt, He by lra.
    assert (He2 : ulp_exp q2 = (ilog2 q2 - 52)%Z).
    { unfold ulp_exp. rewrite Qabs_nonneg_eq by lra. lia. }
    destruct (ilog2_spec q2 Hq2) as [Hlo2 _].
    set (k2 := ilog2 q2) in *. set (e1 := ulp_exp q1) in *.
    set (e2 := ulp_exp q2) in *.
    assert (He1 : (e1 < e2)%Z).
    { unfold e1, e2, ulp_exp. rewrite !Qabs_nonneg_eq by lra. exact Hlt. }
    apply Qle_trans with (y := pow2 k2).
    + assert (Hk : pow2 k2 == inject_Z (2 ^ (k2 - e1)) * pow2 e1).
      { rewrite <- pow2_inject by lia. rewrite <- pow2_add. f_equiv. lia. }
      rewrite Hk. apply Qmult_le_compat_r; [| lra].
      rewrite <- Zle_Qle. apply round_half_even_le.
      apply Qle_shift_div_r; [exact Hp1 |]. rewrite <- Hk.
      destruct (ilog2_spec q1 Hq1) as [_ Hhi1].
      assert (Hpow : pow2 (ilog2 q1 + 1) <= pow2 k2) by (apply pow2_le; lia).
      lra.
    + assert (Hk : pow2 k2 == inject_Z (2 ^ 52) * pow2 e2).
      { rewrite <- pow2_inject by lia. rewrite <- pow2_add. f_equiv. lia. }
      rewrite Hk. apply Qmult_le_compat_r; [| lra].
      rewrite <- Zle_Qle. apply round_half_even_ge.
      apply Qle_shift_div_l; [exact Hp2 |]. rewrite <- Hk. exact Hlo2.
Qed.

(** Rounding to the nearest double is monotone. *)
Lemma rounded_mono q1 q2 : q1 <= q2 -> rounded q1 <= rounded q2.
Proof.
  intros H12. destruct (Qlt_le_dec 0 q1) as [Hpos | Hnp].
  - apply rounded_mono_pos; assumption.
  - destruct (Qlt_le_dec q2 0) as [Hneg | Hnn].
    + assert (H : rounded (- q2) <= rounded (- q1))
        by (apply rounded_mono_pos; lra).
      rewrite !rounded_opp in H. lra.
    + pose proof (rounded_nonpos q1 Hnp). pose proof (rounded_nonneg q2 Hnn). lra.
Qed.

Lemma round_to_double_mono q1 q2 :
  q1 <= q2 -> float_lt (round_to_double q2) (round_to_double q1) = false.
Proof.
  intros H12. pose proof (rounded_mono q1 q2 H12) as Hr.
  rewrite !round_to_double_rounded.
  destruct (Qeq_bool q1 0) eqn:Hz1;
    [apply Qeq_bool_iff in Hz1 | apply Qeq_bool_neq in Hz1];
    (destruct (Qeq_bool q2 0) eqn:Hz2;
     [apply Qeq_bool_iff in Hz2 | apply Qeq_bool_neq in Hz2]).
  - cbn. reflexivity.
  - assert (Hq2 : 0 < q2).
    { destruct (Qlt_le_dec 0 q2) as [H | H]; [exact H | exfalso; apply Hz2; lra]. }
    pose proof (rounded_nonneg q2 ltac:(lra)) as Hr2.
    destruct (Qle_bool (pow2 1024) (Qabs (rounded q2))) eqn:Ho2; cbn.
    + assert (Hb : Qle_bool 0 q2 = true) by (apply Qle_bool_iff; lra).
      rewrite Hb. reflexivity.
    + rewrite Qred_correct.
      assert (Hb : Qle_bool 0 (rounded q2) = true) by (apply Qle_bool_iff; exact Hr2).
      rewrite Hb. reflexivity.
  - assert (Hq1 : q1 < 0).
    { destruct (Qlt_le_dec q1 0) as [H | H]; [exact H | exfalso; apply Hz1; lra]. }
    pose proof (rounded_nonpos q1 ltac:(lra)) as Hr1.
    destruct (Qle_bool (pow2 1024) (Qabs (rounded q1))) eqn:Ho1; cbn.
    + assert (Hb : Qle_bool 0 q1 = false).
      { apply not_true_is_false. intros Hb. apply Qle_bool_iff in Hb. lra. }
      rewrite Hb. reflexivity.
    + rewrite Qred_correct.
      assert (Hb : Qle_bool (rounded q1) 0 = true) by (apply Qle_bool_iff; exact Hr1).
      rewrite Hb. reflexivity.
  - pose proof (pow2_pos 1024) as Hbig.
    destruct (Qle_bool (pow2 1024) (Qabs (rounded q1))) eqn:Ho1;
      destruct (Qle_bool (pow2 1024) (Qabs (rounded q2))) eqn:Ho2;
      try (apply Qle_bool_iff in Ho1); try (apply Qle_bool_iff in Ho2).
    + destruct (Qle_bool 0 q1) eqn:Hs1; destruct (Qle_bool 0 q2) eqn:Hs2; cbn;
        try reflexivity.
      exfalso. apply Qle_bool_iff in Hs1.
      assert (Hn : ~ 0 <= q2) by (intros H; apply Qle_bool_iff in H; congruence).
      lra.
    + destruct (Qle_bool 0 q1) eqn:Hs1; cbn; [| reflexivity]. exfalso.
      apply Qle_bool_iff in Hs1. pose proof (rounded_nonneg q1 Hs1) as Hr1.
      rewrite Qabs_pos in Ho1 by exact Hr1.
      assert (Hn : ~ pow2 1024 <= Qabs (rounded q2)).
      { intros H. apply Qle_bool_iff in H. congruence. }
      apply Hn. rewrite Qabs_pos by lra. lra.
    + destruct (Qle_bool 0 q2) eqn:Hs2; cbn; [reflexivity |]. exfalso.
      assert (Hq2 : q2 <= 0).
      { destruct (Qlt_le_dec 0 q2) as [H | H]; [| exact H].
        exfalso. assert (Hb : Qle_bool 0 q2 = true) by (apply Qle_bool_iff; lra).
        congruence. }
      pose proof (rounded_nonpos q2 Hq2) as Hr2.
      rewrite Qabs_neg in Ho2 by exact Hr2.
      assert (Hn : ~ pow2 1024 <= Qabs (rounded q1)).
      { intros H. apply Qle_bool_iff in H. congruence. }
      apply Hn. rewrite Qabs_neg by lra. lra.
    + cbn. rewrite !Qred_correct.
      assert (Hb : Qle_bool (rounded q1) (rounded q2) = true)
        by (apply Qle_bool_iff; exact Hr).
      rewrite Hb. reflexivity.
Qed.
End Monotone.

(** ** Rounding respects equality of rationals and is exact on small ints *)

Section Representable.
Local Open Scope Q_scope.

Lemma ilog2_proper q q' : 0 < q -> q == q' -> ilog2 q = ilog2 q'.
Proof.
  intros Hq Heq. symmetry. destruct (ilog2_spec q Hq) as [Hlo Hhi].
  apply ilog2_unique; rewrite <- Heq; assumption.
Qed.

Lemma ulp_exp_proper q q' : ~ q == 0 -> q == q' -> ulp_exp q = ulp_exp q'.
Proof.
  intros Hnz Heq. unfold ulp_exp. f_equal. f_equal. apply ilog2_proper.
  - destruct (Qlt_le_dec 0 (Qabs q)) as [H | H]; [exact H | exfalso].
    pose proof (Qabs_nonneg q) as Hn. apply Hnz.
    destruct (Qlt_le_dec q 0) as [Hneg | Hpos].
    + rewrite Qabs_neg in H by lra. lra.
    + rewrite Qabs_pos in H by lra. lra.
  - rewrite Heq. reflexivity.
Qed.

Lemma rounded_proper q q' : ~ q == 0 -> q == q' -> rounded q == rounded q'.
Proof.
  intros Hnz Heq. unfold rounded. rewrite <- (ulp_exp_proper q q' Hnz Heq).
  set (p := pow2 (ulp_exp q)).
  assert (Hr : round_half_even (q / p) = round_half_even (q' / p)).
  { apply Z.le_antisymm; apply round_half_even_mono; rewrite Heq; apply Qle_refl. }
  rewrite Hr. reflexivity.
Qed.

(** Equal rationals round to the same double. *)
Lemma round_to_double_proper q q' :
  q == q' -> round_to_double q = round_to_double q'.
Proof.
  intros Heq. rewrite !round_to_double_rounded.
  destruct (Qeq_bool q 0) eqn:Hz.
  - apply Qeq_bool_iff in Hz. assert (Hz' : Qeq_bool q' 0 = true).
    { apply Qeq_bool_iff. rewrite <- Heq. exact Hz. }
    rewrite Hz'. reflexivity.
  - apply Qeq_bool_neq in Hz. assert (Hz' : Qeq_bool q' 0 = false).
    { apply not_true_is_false. intros H. apply Qeq_bool_iff in H. apply Hz.
      rewrite Heq. exact H. }
    rewrite Hz'. pose proof (rounded_proper q q' Hz Heq) as Hr.
    assert (Ho : Qle_bool (pow2 1024) (Qabs (rounded q))
                 = Qle_bool (pow2 1024) (Qabs (rounded q'))).
    { destruct (Qle_bool (pow2 1024) (Qabs (rounded q'))) eqn:H.
      - apply Qle_bool_iff. apply Qle_bool_iff in H. rewrite Hr. exact H.
      - apply not_true_is_false. intros H'. apply Qle_bool_iff in H'.
        rewrite Hr in H'. apply Qle_bool_iff in H'. congruence. }
    assert (Hs : Qle_bool 0 q = Qle_bool 0 q').
    { destruct (Qle_bool 0 q') eqn:H.
      - apply Qle_bool_iff. apply Qle_bool_iff in H. rewrite Heq. exact H.
      - apply not_true_is_false. intros H'. apply Qle_bool_iff in H'.
        rewrite Heq in H'. apply Qle_bool_iff in H'. congruence. }
    rewrite Ho, Hs, (Qred_complete _ _ Hr). reflexivity.
Qed.

(** A double is its own rounding. *)
Lemma rounded_representable b (m e : Z) :
  b == inject_Z m * pow2 e -> (ulp_exp b <= e)%Z -> rounded b == b.
Proof.
  intros Hb He. unfold rounded. set (eb := ulp_exp b) in *.
  pose proof (pow2_pos eb) as Hp.
  assert (Hq : b / pow2 eb == inject_Z (m * 2 ^ (e - eb))).
  { rewrite Hb, inject_Z_mult, <- pow2_inject by lia.
    assert (Hsplit : pow2 e == pow2 (e - eb) * pow2 eb).
    { rewrite <- pow2_add. f_equiv. lia. }
    rewrite Hsplit. field. lra. }
  assert (Hr : round_half_even (b / pow2 eb) = (m * 2 ^ (e - eb))%Z).
  { rewrite <- (round_half_even_Z (m * 2 ^ (e - eb))).
    apply Z.le_antisymm; apply round_half_even_mono; rewrite Hq; apply Qle_refl. }
  rewrite Hr, <- Hq. field. lra.
Qed.

Lemma round_to_double_representable b (m e : Z) :
  b == inject_Z m * pow2 e -> (ulp_exp b <= e)%Z -> Qabs b < pow2 1024 ->
  round_to_double b = Finite (Qred b).
Proof.
  intros Hb He Hmax. rewrite round_to_double_rounded.
  destruct (Qeq_bool b 0) eqn:Hz.
  - apply Qeq_bool_iff in Hz. rewrite (Qred_complete _ _ Hz). reflexivity.
  - pose proof (rounded_representable b m e Hb He) as Hr.
    destruct (Qle_bool (pow2 1024) (Qabs (rounded b))) eqn:Ho.
    + exfalso. apply Qle_bool_iff in Ho. rewrite Hr in Ho. lra.
    + rewrite (Qred_complete _ _ Hr). reflexivity.
Qed.

Lemma ulp_exp_small_int (n : Z) :
  (Z.abs n < 2 ^ 53)%Z -> n <> 0%Z -> (ulp_exp (inject_Z n) <= 0)%Z.
Proof.
  intros Hn Hnz.
  assert (Habs : ulp_exp (inject_Z n) = ulp_exp (inject_Z (Z.abs n))).
  { unfold ulp_exp, Qabs, inject_Z. rewrite Z.abs_idemp. reflexivity. }
  rewrite Habs. apply small_int_representable. lia.
Qed.

(** [float(n)] is exact for an [int] of at most 53 bits. *)
Lemma round_to_double_small_int (n : Z) :
  (Z.abs n < 2 ^ 53)%Z -> round_to_double (inject_Z n) = Finite (inject_Z n).
Proof.
  intros Hn. destruct (Z.eq_dec n 0%Z) as [-> | Hnz]; [reflexivity |].
  rewrite (round_to_double_representable (inject_Z n) n 0).
  - f_equal. apply Stdlib.QArith.Qcanon.Qred_identity. cbn. apply Z.gcd_1_r.
  - change (pow2 0) with 1. ring.
  - apply ulp_exp_small_int; assumption.
  - assert (Ha : Qabs (inject_Z n) = inject_Z (Z.abs n)) by reflexivity.
    rewrite Ha, (pow2_inject 1024) by lia. rewrite <- Zlt_Qlt.
    apply Z.lt_trans with (m := (2 ^ 53)%Z); [exact Hn | reflexivity].
Qed.

Lemma int_to_float_small (n : Z) :
  (Z.abs n < 2 ^ 53)%Z -> int_to_float n = Ok (Finite (inject_Z n)).
Proof.
  intros Hn. unfold int_to_float. rewrite round_to_double_small_int by exact Hn.
  reflexivity.
Qed.

Lemma float_lt_Finite_false a b : float_lt (Finite a) (Finite b) = false <-> b <= a.
Proof.
  cbn. destruct (Qle_bool b a) eqn:H; cbn.
  - apply Qle_bool_iff in H. tauto.
  - split; [discriminate | intros Hle]. apply Qle_bool_iff in Hle. congruence.
Qed.
End Representable.

(** ** The sliding window *)

Section Window.
Variable time_time : nat -> float64.

Lemma evict_suffix cutoff window :
  exists dropped,
    window = dropped ++ StreamProcessor.evict cutoff window /\
    List.Forall (fun x => float_lt x cutoff = true) dropped.
Proof.
  induction window as [| x window IH]; cbn.
  - exists []. split; [reflexivity | constructor].
  - destruct (float_lt x cutoff) eqn:Hx.
    + destruct IH as (dropped & Heq & Hall). exists (x :: dropped). split.
      * cbn. f_equal. exact Heq.
      * constructor; assumption.
    + exists []. split; [reflexivity | constructor].
Qed.

Lemma readings_succ m :
  readings time_time (S m) = readings time_time m ++ [time_time m].
Proof. unfold readings. rewrite seq_S, map_app. reflexivity. Qed.

(** The window is what is left of the clock readings after evictions at
    the front. *)
Lemma window_suffix events w :
  reachable time_time events w ->
  exists dropped,
    readings time_time (StreamProcessor.clock_reads w)
    = dropped ++ StreamProcessor._window (StreamProcessor.self w).
Proof.
  induction 1 as [| events w e w' Hr IH Hp].
  - exists []. reflexivity.
  - unfold StreamProcessor.process in Hp.
    destruct (dict_get _ _) as [a |]; [| injection Hp as <-; exact IH].
    apply bind_Ok in Hp. destruct Hp as (a' & _ & Hp). injection Hp as <-.
    cbn [StreamProcessor.self StreamProcessor._window StreamProcessor.clock_reads].
    destruct IH as (dropped & Hd).
    destruct (evict_suffix
                (float_sub (time_time (StreamProcessor.clock_reads w))
                   (of_int StreamProcessor.WINDOW_SIZE))
                (StreamProcessor._window (StreamProcessor.self w)
                 ++ [time_time (StreamProcessor.clock_reads w)]))
      as (dropped' & Hd' & _).
    exists (dropped ++ dropped'). rewrite readings_succ, Hd, <- !app_assoc.
    f_equal. exact Hd'.
Qed.
End Window.

(** ** The window under a clock that never goes back *)

Section MonotoneClock.
Variable time_time : nat -> float64.
Variable c : nat -> Q.
Hypothesis clock_finite : forall k, time_time k = Finite (c k).
Hypothesis clock_monotone : forall i j, (i <= j)%nat -> (c i <= c j)%Q.

Lemma float_lt_trans_cutoff a p q :
  float_lt (Finite a) p = true -> float_lt q p = false -> q <> NaN ->
  float_lt (Finite a) q = true.
Proof.
  destruct p as [b | s |], q as [c' | s' |]; cbn; try discriminate; try congruence.
  - intros H1 H2 _. destruct (Qle_bool b a) eqn:Hba; [discriminate |].
    destruct (Qle_bool b c') eqn:Hbc; [| discriminate].
    apply Qle_bool_iff in Hbc.
    destruct (Qle_bool c' a) eqn:Hca; [| reflexivity].
    apply Qle_bool_iff in Hca.
    assert (Hle : (b <= a)%Q) by lra. apply Qle_bool_iff in Hle. congruence.
  - intros _ H _. rewrite H. reflexivity.
  - destruct s; cbn; [discriminate |]. intros _ H _. destruct s'; [discriminate | reflexivity].
Qed.

Lemma float_lt_sorted a b cutoff :
  (a <= b)%Q -> float_lt (Finite a) cutoff = false ->
  float_lt (Finite b) cutoff = false.
Proof.
  intros Hab. destruct cutoff as [v | s |]; cbn; try tauto.
  destruct (Qle_bool v a) eqn:Hva; [| discriminate]. intros _.
  apply Qle_bool_iff in Hva.
  assert (Hvb : (v <= b)%Q) by lra. apply Qle_bool_iff in Hvb. rewrite Hvb.
  reflexivity.
Qed.

(** On a sorted window the eviction loop removes exactly the stale
    entries. *)
Lemma evict_sorted cutoff (l : list Q) :
  StronglySorted Qle l ->
  StreamProcessor.evict cutoff (map Finite l)
  = List.filter (fun x => negb (float_lt x cutoff)) (map Finite l).
Proof.
  induction 1 as [| a l Hl IH Ha]; cbn [map StreamProcessor.evict List.filter];
    [reflexivity |].
  destruct (float_lt (Finite a) cutoff) eqn:Hx; cbn [negb]; [exact IH |].
  f_equal. symmetry.
  assert (Hall : forall x, In x (map Finite l) -> negb (float_lt x cutoff) = true).
  { intros x Hx'. apply in_map_iff in Hx'. destruct Hx' as (b & <- & Hb).
    rewrite List.Forall_forall in Ha.
    rewrite (float_lt_sorted a b cutoff (Ha b Hb) Hx). reflexivity. }
  clear -Hall. induction (map Finite l) as [| y l' IH]; cbn [List.filter];
    [reflexivity |].
  rewrite (Hall y (or_introl eq_refl)). f_equal. apply IH.
  intros x Hx. apply Hall. right. exact Hx.
Qed.

Lemma cutoff_not_NaN k :
  float_sub (time_time k) (of_int StreamProcessor.WINDOW_SIZE) <> NaN.
Proof.
  rewrite clock_finite. change (of_int StreamProcessor.WINDOW_SIZE) with (Finite 60).
  cbn [float_sub]. rewrite round_to_double_rounded.
  destruct (Qeq_bool (c k - 60) 0); [discriminate |].
  destruct (Qle_bool (pow2 1024) (Qabs (rounded (c k - 60)))); discriminate.
Qed.

Lemma cutoff_monotone i j :
  (i <= j)%nat ->
  float_lt (float_sub (time_time j) (of_int StreamProcessor.WINDOW_SIZE))
    (float_sub (time_time i) (of_int StreamProcessor.WINDOW_SIZE)) = false.
Proof.
  intros Hij. rewrite !clock_finite.
  change (of_int StreamProcessor.WINDOW_SIZE) with (Finite 60). cbn [float_sub].
  apply round_to_double_mono. pose proof (clock_monotone i j Hij). lra.
Qed.

(** What is within the window at a later time was within it before. *)
Lemma within_window_earlier i j a :
  (i <= j)%nat -> within_window (time_time j) (Finite a) = true ->
  within_window (time_time i) (Finite a) = true.
Proof.
  intros Hij. unfold within_window.
  destruct (float_lt (Finite a)
              (float_sub (time_time i) (of_int StreamProcessor.WINDOW_SIZE))) eqn:Hi;
    [| reflexivity].
  rewrite (float_lt_trans_cutoff a _ _ Hi (cutoff_monotone i j Hij) (cutoff_not_NaN j)).
  discriminate.
Qed.

Lemma readings_finite m : readings time_time m = map Finite (map c (seq 0 m)).
Proof.
  unfold readings. rewrite map_map. apply map_ext. intros k. apply clock_finite.
Qed.

Lemma readings_sorted m : StronglySorted Qle (map c (seq 0 m)).
Proof.
  induction m as [| m IH]; [constructor |].
  rewrite seq_S, map_app. cbn.
  clear -IH clock_monotone. 
  assert (Hall : List.Forall (fun a => (a <= c m)%Q) (map c (seq 0 m))).
  { apply List.Forall_forall. intros a Ha. apply in_map_iff in Ha.
    destruct Ha as (k & <- & Hk). apply in_seq in Hk. apply clock_monotone. lia. }
  induction IH as [| a l Hl IHl Ha]; cbn.
  - repeat constructor.
  - inversion Hall as [| ? ? Hac Hall']; subst. constructor.
    + apply IHl. exact Hall'.
    + apply List.Forall_app. split; [exact Ha | constructor; [exact Hac | constructor]].
Qed.

Lemma filter_map_Finite (P : float64 -> bool) (l : list Q) :
  List.filter P (map Finite l) = map Finite (List.filter (fun a => P (Finite a)) l).
Proof.
  induction l as [| a l IH]; cbn; [reflexivity |].
  destruct (P (Finite a)); cbn; rewrite IH; reflexivity.
Qed.

Lemma filter_filter_within i j (l : list Q) :
  (i <= j)%nat ->
  List.filter (within_window (time_time j))
    (List.filter (within_window (time_time i)) (map Finite l))
  = List.filter (within_window (time_time j)) (map Finite l).
Proof.
  intros Hij. induction l as [| a l IH]; cbn; [reflexivity |].
  destruct (within_window (time_time i) (Finite a)) eqn:Hi; cbn.
  - rewrite IH. reflexivity.
  - destruct (within_window (time_time j) (Finite a)) eqn:Hj; [| exact IH].
    rewrite (within_window_earlier i j a Hij Hj) in Hi. discriminate.
Qed.

(** With a clock that never goes back, the window after [process] holds
    exactly the processing times that are not older than [WINDOW_SIZE]
    seconds at the last of them. *)
Lemma window_within_horizon events w :
  reachable time_time events w ->
  match StreamProcessor.clock_reads w with
  | O => StreamProcessor._window (StreamProcessor.self w) = []
  | S k =>
      StreamProcessor._window (StreamProcessor.self w)
      = List.filter (within_window (time_time k)) (readings time_time (S k))
  end.
Proof.
  induction 1 as [| events w e w' Hr IH Hp]; [reflexivity |].
  unfold StreamProcessor.process in Hp.
  destruct (dict_get _ _) as [a |]; [| injection Hp as <-; exact IH].
  apply bind_Ok in Hp. destruct Hp as (a' & _ & Hp). injection Hp as <-.
  cbn [StreamProcessor.self StreamProcessor._window StreamProcessor.clock_reads].
  set (m := StreamProcessor.clock_reads w) in *.
  fold (within_window (time_time m)).
  assert (Hw : exists l : list Q,
             StreamProcessor._window (StreamProcessor.self w) = map Finite l /\
             StronglySorted Qle (l ++ [c m]) /\
             List.filter (within_window (time_time m)) (map Finite l)
             = List.filter (within_window (time_time m)) (readings time_time m)).
  { destruct m as [| k].
    - exists []. rewrite IH. repeat split; repeat constructor.
    - exists (List.filter (fun a => within_window (time_time k) (Finite a))
                (map c (seq 0 (S k)))).
      assert (Hmap : map Finite
                       (List.filter (fun a => within_window (time_time k) (Finite a))
                          (map c (seq 0 (S k))))
                     = List.filter (within_window (time_time k))
                         (readings time_time (S k))).
      { rewrite readings_finite. symmetry. apply filter_map_Finite. }
      split; [rewrite IH; symmetry; exact Hmap | split].
      + pose proof (readings_sorted (S (S k))) as Hs.
        rewrite seq_S, map_app in Hs. cbn [map] in Hs.
        change (0 + S k)%nat with (S k) in Hs.
        clear -Hs. revert Hs. generalize (map c (seq 0 (S k))) as l. intros l.
        induction l as [| a l IHl]; cbn [List.filter app]; intros Hs;
          [repeat constructor |].
        inversion Hs as [| ? ? Hs' Ha]; subst.
        destruct (within_window (time_time k) (Finite a)); [| apply IHl; exact Hs'].
        cbn [app]. constructor; [apply IHl; exact Hs' |].
        rewrite List.Forall_forall in Ha |- *. intros x Hx. apply Ha.
        apply in_app_iff in Hx. apply in_app_iff.
        destruct Hx as [Hx | Hx]; [left | right; exact Hx].
        apply List.filter_In in Hx. tauto.
      + rewrite Hmap, readings_finite. apply filter_filter_within. lia. }
  destruct Hw as (l & Hl & Hsorted & Hfilter).
  rewrite Hl, clock_finite.
  change (map Finite l ++ [Finite (c m)]) with (map Finite l ++ map Finite [c m]).
  rewrite <- map_app, <- clock_finite.
  unfold within_window at 1.
  rewrite (evict_sorted _ _ Hsorted).
  fold (within_window (time_time m)).
  rewrite map_app, List.filter_app, Hfilter, readings_succ, List.filter_app.
  cbn [map]. rewrite clock_finite. reflexivity.
Qed.
End MonotoneClock.

(** ** [bar] *)

Section Bar.

Lemma str_mul_length (ch : N) (n : Z) : length (str_mul [ch] n) = Z.to_nat n.
Proof.
  unfold str_mul. induction (Z.to_nat n) as [| k IH]; cbn; [reflexivity |].
  f_equal. exact IH.
Qed.

Lemma str_mul_nonpos (s : unicode) (n : Z) : n <= 0 -> str_mul s n = [].
Proof. intros Hn. unfold str_mul. replace (Z.to_nat n) with 0%nat by lia. reflexivity. Qed.

Lemma bar_of_filled value max_val width filled :
  bar_filled value max_val width = Ok filled ->
  bar value max_val width
  = Ok (str_mul FULL_BLOCK filled ++ str_mul LIGHT_SHADE (width - filled)).
Proof. intros Hf. unfold bar. rewrite Hf. reflexivity. Qed.

Lemma bar_filled_nonzero value max_val width :
  max_val <> 0 ->
  bar_filled value max_val width
  = (ratio ← int_truediv value max_val;
     w ← int_to_float width;
     py_round_int (float_mul ratio w)).
Proof.
  intros Hm. unfold bar_filled. destruct (Z.eqb_spec max_val 0); [contradiction | reflexivity].
Qed.

Lemma filled_in_range value max_val width :
  0 <= value <= max_val -> 0 < max_val -> 0 <= width < 2 ^ 53 ->
  exists r x,
    int_truediv value max_val = Ok (Finite r) /\ (0 <= r <= 1)%Q /\
    float_mul (Finite r) (Finite (inject_Z width)) = Finite x /\
    (0 <= x <= inject_Z width)%Q.
Proof.
  intros Hv Hm Hw.
  destruct (int_truediv_unit value max_val Hv Hm) as (r & Hr & Hr0 & Hr1).
  exists r. cbn [float_mul].
  assert (Hw0 : (0 <= inject_Z width)%Q).
  { change 0%Q with (inject_Z 0). rewrite <- Zle_Qle. lia. }
  assert (Hq0 : (0 <= r * inject_Z width)%Q) by (apply Qmult_le_0_compat; assumption).
  assert (Hq1 : (r * inject_Z width <= inject_Z width)%Q).
  { rewrite <- (Qmult_1_l (inject_Z width)) at 2.
    apply Qmult_le_compat_r; assumption. }
  destruct (Z.eq_dec width 0) as [-> | Hnz].
  - exists 0%Q. repeat split; try assumption; try apply Qle_refl.
    rewrite (round_to_double_proper (r * inject_Z 0) 0) by ring. reflexivity.
  - destruct (round_to_double_le_int (r * inject_Z width) width) as (x & Hx & Hx0 & Hx1);
      [lia | exact Hq0 | exact Hq1 |].
    exists x. repeat split; assumption.
Qed.

Lemma round_to_double_mono_Finite q1 q2 v1 v2 :
  (q1 <= q2)%Q -> round_to_double q1 = Finite v1 -> round_to_double q2 = Finite v2 ->
  (v1 <= v2)%Q.
Proof.
  intros Hq H1 H2. pose proof (round_to_double_mono q1 q2 Hq) as Hm.
  rewrite H1, H2 in Hm. apply float_lt_Finite_false in Hm. exact Hm.
Qed.

Lemma round_to_double_ge_int q (n : Z) v :
  Z.abs n < 2 ^ 53 -> (inject_Z n <= q)%Q -> round_to_double q = Finite v ->
  (inject_Z n <= v)%Q.
Proof.
  intros Hn Hq Hv.
  apply (round_to_double_mono_Finite (inject_Z n) q); [exact Hq | | exact Hv].
  apply round_to_double_small_int. exact Hn.
Qed.

Lemma int_truediv_inv a b r :
  int_truediv a b = Ok r ->
  b <> 0 /\ exists v, r = Finite v /\ round_to_double (inject_Z a / inject_Z b) = Finite v.
Proof.
  unfold int_truediv. destruct (Z.eqb_spec b 0) as [| Hb]; [discriminate |].
  destruct (round_to_double (inject_Z a / inject_Z b)) as [v | s |] eqn:Hr.
  - intros [= <-]. split; [exact Hb | eauto].
  - discriminate.
  - exfalso. revert Hr. rewrite round_to_double_rounded.
    destruct (Qeq_bool _ _); [discriminate |]. destruct (Qle_bool _ _); discriminate.
Qed.

Lemma int_to_float_inv n r :
  int_to_float n = Ok r -> exists v, r = Finite v /\ round_to_double (inject_Z n) = Finite v.
Proof.
  unfold int_to_float.
  destruct (round_to_double (inject_Z n)) as [v | s |] eqn:Hr.
  - intros [= <-]. eauto.
  - discriminate.
  - exfalso. revert Hr. rewrite round_to_double_rounded.
    destruct (Qeq_bool _ _); [discriminate |]. destruct (Qle_bool _ _); discriminate.
Qed.

Lemma bar_filled_empty max_val width :
  0 < max_val -> 0 <= width < 2 ^ 53 -> bar_filled 0 max_val width = Ok 0.
Proof.
  intros Hm Hw. rewrite bar_filled_nonzero by lia. unfold int_truediv.
  destruct (Z.eqb_spec max_val 0) as [| _]; [lia |].
  rewrite (round_to_double_proper (inject_Z 0 / inject_Z max_val) 0).
  2:{ unfold Qdiv. change (inject_Z 0) with 0%Q. ring. }
  change (round_to_double 0) with (Finite 0). cbn [mbind result_bind].
  rewrite int_to_float_small by lia. cbn [mbind result_bind float_mul].
  rewrite (round_to_double_proper (0 * inject_Z width) 0) by ring.
  reflexivity.
Qed.

Lemma bar_filled_full max_val width :
  0 < max_val -> 0 <= width < 2 ^ 53 -> bar_filled max_val max_val width = Ok width.
Proof.
  intros Hm Hw. rewrite bar_filled_nonzero by lia. unfold int_truediv.
  destruct (Z.eqb_spec max_val 0) as [| _]; [lia |].
  rewrite (round_to_double_proper (inject_Z max_val / inject_Z max_val) (inject_Z 1)).
  2:{ assert (Hq : (0 < inject_Z max_val)%Q)
        by (change 0%Q with (inject_Z 0); rewrite <- Zlt_Qlt; lia).
      change (inject_Z 1) with 1%Q. field. lra. }
  rewrite round_to_double_small_int by reflexivity. cbn [mbind result_bind].
  rewrite int_to_float_small by lia. cbn [mbind result_bind float_mul].
  rewrite (round_to_double_proper (inject_Z 1 * inject_Z width) (inject_Z width))
    by (change (inject_Z 1) with 1%Q; ring).
  rewrite round_to_double_small_int by lia. cbn [py_round_int].
  rewrite round_half_even_Z. reflexivity.
Qed.

(** More streams never give a shorter bar. *)
Lemma bar_filled_mono :
  forall value value' max_val width filled filled',
    value <= value' -> 0 < max_val -> 0 <= width ->
    bar_filled value max_val width = Ok filled ->
    bar_filled value' max_val width = Ok filled' ->
    filled <= filled'.
Proof.
  intros value value' max_val width filled filled' Hv Hm Hw Hf Hf'.
  rewrite bar_filled_nonzero in Hf, Hf' by lia.
  apply bind_Ok in Hf. destruct Hf as (r & Hr & Hf).
  apply bind_Ok in Hf. destruct Hf as (w & Hwf & Hf).
  apply bind_Ok in Hf'. destruct Hf' as (r' & Hr' & Hf').
  apply bind_Ok in Hf'. destruct Hf' as (w' & Hwf' & Hf').
  assert (w' = w) by congruence. subst w'.
  apply int_truediv_inv in Hr. destruct Hr as (_ & q & -> & Hq).
  apply int_truediv_inv in Hr'. destruct Hr' as (_ & q' & -> & Hq').
  apply int_to_float_inv in Hwf. destruct Hwf as (fw & -> & Hfw).
  assert (Hm' : (0 < inject_Z max_val)%Q).
  { change 0%Q with (inject_Z 0). rewrite <- Zlt_Qlt. exact Hm. }
  assert (Hqq : (q <= q')%Q).
  { refine (round_to_double_mono_Finite _ _ _ _ _ Hq Hq').
    apply Qmult_le_compat_r; [rewrite <- Zle_Qle; exact Hv |].
    apply Qinv_le_0_compat. lra. }
  assert (Hfw0 : (0 <= fw)%Q).
  { apply (round_to_double_nonneg (inject_Z width)); [| exact Hfw].
    change 0%Q with (inject_Z 0). rewrite <- Zle_Qle. exact Hw. }
  cbn [float_mul] in Hf, Hf'.
  destruct (round_to_double (q * fw)) as [x | |] eqn:Hx; try discriminate.
  destruct (round_to_double (q' * fw)) as [x' | |] eqn:Hx'; try discriminate.
  cbn in Hf, Hf'. injection Hf as <-. injection Hf' as <-.
  apply round_half_even_mono.
  apply (round_to_double_mono_Finite (q * fw) (q' * fw)); [| exact Hx | exact Hx'].
  apply Qmult_le_compat_r; assumption.
Qed.

End Bar.

(** ** The aggregates of a reachable state *)

Section Report.
Variable time_time : nat -> float64.

Lemma stats_values_history events (cs : list CatalogEntry) (d : dict TrackStats.t) a :
  Forall2 (aggregate_of events) cs d -> In a (dict_values d) ->
  exists c, In c cs /\ TrackStats.title a = cat_title c /\
            history (for_track (cat_track_id c) events) a.
Proof.
  induction 1 as [| c [k a0] cs d (_ & _ & Hti & Hh) _ IH]; cbn; [tauto |].
  intros [<- | Hin].
  - exists c. cbn in *. auto.
  - destruct (IH Hin) as (c' & Hc' & H'). exists c'. auto.
Qed.

Lemma reachable_total_streams_nonneg events w a :
  reachable time_time events w ->
  In a (dict_values (StreamProcessor.stats (StreamProcessor.self w))) ->
  0 <= TrackStats.total_streams a.
Proof.
  intros Hr Ha. apply reachable_inv in Hr.
  destruct (stats_values_history _ _ _ _ (inv_stats _ _ Hr) Ha) as (c & _ & _ & Hh).
  rewrite (h_total _ _ Hh). lia.
Qed.

Lemma leaderboard_sorted events w :
  reachable time_time events w ->
  StronglySorted ranks_before
    (sorted_reverse TrackStats.total_streams
       (dict_values (StreamProcessor.stats (StreamProcessor.self w)))).
Proof.
  intros Hr. apply (sorted_reverse_sorted TrackStats.total_streams catalog_rank).
  eapply stats_sorted_by_rank. exact Hr.
Qed.

End Report.

(** ** [throughput] *)

Section Throughput.
Local Open Scope Q_scope.

Lemma round_to_double_le_pow2 q (k : Z) :
  (0 <= k < 1024)%Z -> 0 <= q -> q <= pow2 k ->
  exists v, round_to_double q = Finite v /\ 0 <= v /\ v <= pow2 k.
Proof.
  intros Hk Hq0 Hq.
  apply (round_to_double_le q (pow2 k) 1 k); try assumption.
  - change (inject_Z 1) with 1. ring.
  - unfold ulp_exp. rewrite Qabs_nonneg_eq by (pose proof (pow2_pos k); lra).
    rewrite (ilog2_unique (pow2 k) k); [lia | apply Qle_refl | apply pow2_lt; lia].
  - apply pow2_lt. lia.
Qed.

(** [throughput] returns the finite float nearest to the quotient. *)
Lemma throughput_finite :
  forall self : StreamProcessor.t,
    (Z.of_nat (length (StreamProcessor._window self)) < 2 ^ 63)%Z ->
    exists v,
      round_to_double
        (inject_Z (Z.of_nat (length (StreamProcessor._window self))) / 60) = Finite v /\
      StreamProcessor.throughput self = Ok (Finite v) /\
      0 <= v /\ v <= pow2 63.
Proof.
  intros self Hlen. unfold StreamProcessor.throughput, int_truediv.
  change (StreamProcessor.WINDOW_SIZE =? 0)%Z with false. cbv iota.
  change (inject_Z StreamProcessor.WINDOW_SIZE) with 60.
  set (n := Z.of_nat (length (StreamProcessor._window self))) in *.
  assert (Hn0 : 0 <= inject_Z n).
  { change 0 with (inject_Z 0). rewrite <- Zle_Qle. lia. }
  assert (Hn1 : inject_Z n <= pow2 63).
  { rewrite (pow2_inject 63) by lia. rewrite <- Zle_Qle. lia. }
  destruct (round_to_double_le_pow2 (inject_Z n / 60) 63) as (v & Hv & Hv0 & Hv1).
  - lia.
  - apply Qle_shift_div_l; lra.
  - apply Qle_shift_div_r; lra.
  - exists v. rewrite Hv. auto.
Qed.

(** One timestamp in the window is enough for a positive throughput. *)
Lemma throughput_positive (n : Z) v :
  (1 <= n)%Z -> round_to_double (inject_Z n / 60) = Finite v -> 0 < v.
Proof.
  intros Hn Hv.
  assert (Hone : 1 <= inject_Z n).
  { change 1 with (inject_Z 1). rewrite <- Zle_Qle. exact Hn. }
  assert (Hlow : pow2 (-6) <= v).
  { apply (round_to_double_mono_Finite (pow2 (-6)) (inject_Z n / 60)); [| | exact Hv].
    - apply Qle_shift_div_l; [lra |].
      assert (H6 : pow2 (-6) * 60 <= 1) by (vm_compute; discriminate). lra.
    - vm_compute. reflexivity. }
  pose proof (pow2_pos (-6)). lra.
Qed.
End Throughput.

(** ** [summary] *)

Section SummaryFacts.
Variable time_time : nat -> float64.

Lemma window_length_le events w :
  reachable time_time events w ->
  (length (StreamProcessor._window (StreamProcessor.self w)) <= length events)%nat.
Proof.
  intros Hr. destruct (window_suffix time_time events w Hr) as (dropped & Hd).
  apply (f_equal (@length float64)) in Hd.
  unfold readings in Hd. rewrite length_map, length_seq, length_app in Hd.
  apply reachable_inv in Hr. rewrite (inv_clock _ _ Hr) in Hd.
  pose proof (List.filter_length_le in_catalog events). lia.
Qed.




Lemma py_round_nonneg v (ndigits : nat) :
  (0 <= v)%Q -> (v <= pow2 63)%Q -> (ndigits <= 2)%nat ->
  exists r, py_round (Finite v) ndigits = Ok (Finite r) /\ (0 <= r)%Q.
Proof.
  intros Hv0 Hv1 Hd. unfold py_round.
  set (scale := inject_Z (10 ^ Z.of_nat ndigits)).
  assert (Hs : (1 <= scale <= 100)%Q).
  { unfold scale. destruct ndigits as [| [| [| n]]]; [| | | lia]; cbn;
      split; unfold Qle; cbn; lia. }
  set (m := round_half_even (v * scale)).
  assert (Hm0 : (0 <= m)%Z).
  { apply round_half_even_ge. change (inject_Z 0) with 0%Q.
    apply Qmult_le_0_compat; lra. }
  assert (Hm0' : (0 <= inject_Z m)%Q).
  { change 0%Q with (inject_Z 0). rewrite <- Zle_Qle. exact Hm0. }
  assert (Hm1 : (inject_Z m <= pow2 70)%Q).
  { rewrite (pow2_inject 70) by lia. rewrite <- Zle_Qle.
    apply round_half_even_le. rewrite <- pow2_inject by lia.
    assert (H70 : (pow2 70 == pow2 63 * 128)%Q) by (vm_compute; reflexivity).
    rewrite H70. apply Qle_trans with (y := (pow2 63 * scale)%Q).
    - apply Qmult_le_compat_r; lra.
    - pose proof (pow2_pos 63). apply Qmult_le_l; lra. }
  destruct (round_to_double_le_pow2 (inject_Z m / scale) 70) as (r & Hr & Hr0 & _).
  - lia.
  - apply Qle_shift_div_l; lra.
  - apply Qle_shift_div_r; [lra |]. pose proof (pow2_pos 70).
    apply Qle_trans with (y := (pow2 70 * 1)%Q); [lra |].
    apply Qmult_le_l; lra.
  - exists r. rewrite Hr. auto.
Qed.

(** [summary] in a reachable state: it returns, with a throughput that is
    not negative. *)
Lemma summary_returns events w :
  reachable time_time events w ->
  Z.of_nat (length events) < 2 ^ 63 ->
  exists eps,
    (0 <= eps)%Q /\
    summary (StreamProcessor.self w)
    = Ok {|
        total_events_processed :=
          StreamProcessor._total_processed (StreamProcessor.self w);
        unique_tracks_streamed :=
          Z.of_nat (length (List.filter (fun s => 0 <? TrackStats.total_streams s)
                              (dict_values (StreamProcessor.stats
                                              (StreamProcessor.self w)))));
        throughput_eps := Finite eps;
        top_3_tracks :=
          map (fun s => (TrackStats.title s, TrackStats.total_streams s))
            (StreamProcessor.top_tracks (StreamProcessor.self w) 3)
      |}.
Proof.
  intros Hr Hlen.
  pose proof (window_length_le events w Hr) as Hwin.
  destruct (throughput_finite (StreamProcessor.self w)) as (v & _ & Hv & Hv0 & Hv1);
    [lia |].
  destruct (py_round_nonneg v 2 Hv0 Hv1 ltac:(lia)) as (eps & Heps & Heps0).
  exists eps. split; [exact Heps0 |].
  unfold summary. rewrite Hv. cbn [mbind result_bind]. rewrite Heps.
  reflexivity.
Qed.
End SummaryFacts.

(** ** [emit] and [batch] *)

Section Emit.

Lemma catalog_durations c :
  In c CATALOG -> 10 <= cat_duration_s c < 2 ^ 53.
Proof.
  intros Hc. repeat (destruct Hc as [<- | Hc]; [cbn; lia |]). destruct Hc.
Qed.

(** [0.70 * track["duration_s"]] lies strictly between two [int]s for every
    track of the catalog, on the same side as the exact product. *)
Lemma completion_threshold c :
  In c CATALOG ->
  exists q,
    float_mul (float_literal 70 2) (Finite (inject_Z (cat_duration_s c))) = Finite q /\
    forall l : Z, Qle_bool q (inject_Z l) = true <-> 7 * cat_duration_s c <= 10 * l.
Proof.
  intros Hc.
  repeat (destruct Hc as [<- | Hc];
          [eexists; split; [vm_compute; reflexivity |];
           intros l; rewrite Qle_bool_iff; unfold Qle, inject_Z;
           cbn [Qnum Qden cat_duration_s]; lia |]).
  destruct Hc.
Qed.

Lemma in_catalog_of_entry c e :
  In c CATALOG -> StreamEvent.track_id e = cat_track_id c -> in_catalog e = true.
Proof.
  intros Hc He. unfold in_catalog. apply existsb_exists.
  exists c. split; [exact Hc |]. rewrite He. apply String.eqb_refl.
Qed.

(** What [emit] returns for a track of the catalog and a beta variate
    between 0 and 1. *)
Lemma emit_returns :
  forall (d : EventProducer.draws) (ts_offset_s : float64) (b : Q),
    In (EventProducer.track d) CATALOG ->
    EventProducer.beta d = Finite b -> (0 <= b)%Q -> (b <= 1)%Q ->
    exists e,
      EventProducer.emit d ts_offset_s = Ok e /\
      StreamEvent.track_id e = cat_track_id (EventProducer.track d) /\
      10 <= StreamEvent.listened_s e <= cat_duration_s (EventProducer.track d) /\
      StreamEvent.completed e
      = int_ge_float (StreamEvent.listened_s e)
          (float_mul (float_literal 70 2)
             (Finite (inject_Z (cat_duration_s (EventProducer.track d))))).
Proof.
  intros d off b Hc Hb Hb0 Hb1.
  pose proof (catalog_durations _ Hc) as Hdur.
  unfold EventProducer.emit.
  rewrite int_to_float_small by lia. cbn [mbind result_bind].
  rewrite Hb.
  destruct (round_to_double_le_int (b * inject_Z (cat_duration_s (EventProducer.track d)))
              (cat_duration_s (EventProducer.track d))) as (v & Hv & Hv0 & Hv1).
  - lia.
  - apply Qmult_le_0_compat; [exact Hb0 |].
    change 0%Q with (inject_Z 0). rewrite <- Zle_Qle. lia.
  - assert (H0 : (0 <= inject_Z (cat_duration_s (EventProducer.track d)))%Q).
    { change 0%Q with (inject_Z 0). rewrite <- Zle_Qle. lia. }
    apply Qle_trans with (y := (1 * inject_Z (cat_duration_s (EventProducer.track d)))%Q);
      [apply Qmult_le_compat_r; assumption | lra].
  - cbn [float_mul]. rewrite Hv. cbn [py_int mbind result_bind].
    eexists. split; [reflexivity |].
    cbn [StreamEvent.track_id StreamEvent.listened_s StreamEvent.completed].
    split; [reflexivity |]. split; [lia | reflexivity].
Qed.

Lemma NoDup_map_inj {A B} (f : A -> B) (l : list A) a b :
  List.NoDup (map f l) -> In a l -> In b l -> f a = f b -> a = b.
Proof.
  induction l as [| x l IH]; cbn; [tauto |].
  intros Hnd Ha Hb Hab. inversion Hnd as [| ? ? Hx Hnd']; subst.
  destruct Ha as [-> | Ha], Hb as [-> | Hb].
  - reflexivity.
  - exfalso. apply Hx. rewrite Hab. apply in_map. exact Hb.
  - exfalso. apply Hx. rewrite <- Hab. apply in_map. exact Ha.
  - apply IH; assumption.
Qed.

Lemma emitted_within_duration (c : CatalogEntry) e :
  In c CATALOG ->
  StreamEvent.track_id e = cat_track_id c ->
  10 <= StreamEvent.listened_s e <= cat_duration_s c ->
  within_duration e.
Proof.
  intros Hc Hid Hl c' Hc' Hk.
  assert (c' = c); [| subst c'; exact Hl].
  apply (NoDup_map_inj cat_track_id CATALOG); [apply CATALOG_NoDup | assumption ..|].
  congruence.
Qed.

Lemma emit_each_length ds indices es :
  EventProducer.emit_each ds indices = Ok es -> length es = length indices.
Proof.
  revert es. induction indices as [| i indices IH]; intros es H; cbn in H.
  - injection H as <-. reflexivity.
  - apply bind_Ok in H. destruct H as (fi & _ & H).
    apply bind_Ok in H. destruct H as (e & _ & H).
    apply bind_Ok in H. destruct H as (es' & Hes & H).
    injection H as <-. cbn. f_equal. apply IH. exact Hes.
Qed.

Lemma emit_each_defined ds indices :
  (forall i, In i indices ->
     Z.of_nat i < 2 ^ 53 /\
     In (EventProducer.track (ds i)) CATALOG /\
     exists b, EventProducer.beta (ds i) = Finite b /\ (0 <= b)%Q /\ (b <= 1)%Q) ->
  exists es,
    EventProducer.emit_each ds indices = Ok es /\
    Forall (fun e => in_catalog e = true /\ well_formed e /\ within_duration e) es.
Proof.
  induction indices as [| i indices IH]; intros H; cbn [EventProducer.emit_each].
  - exists []. split; [reflexivity | constructor].
  - destruct (H i (or_introl eq_refl)) as (Hi & Hc & b & Hb & Hb0 & Hb1).
    rewrite int_to_float_small by lia. cbn [mbind result_bind].
    destruct (emit_returns (ds i)
                (float_mul (Finite (inject_Z (Z.of_nat i))) (float_literal 1 1))
                b Hc Hb Hb0 Hb1) as (e & He & Hid & Hl & _).
    rewrite He. cbn [mbind result_bind].
    destruct IH as (es & Hes & Hall); [intros j Hj; apply H; right; exact Hj |].
    rewrite Hes. cbn [mbind result_bind].
    exists (e :: es). split; [reflexivity |].
    constructor; [| exact Hall].
    split; [exact (in_catalog_of_entry _ _ Hc Hid) |].
    split; [| exact (emitted_within_duration _ _ Hc Hid Hl)].
    pose proof (catalog_durations _ Hc) as Hdur. unfold well_formed.
    assert (2 ^ 53 <= 2 ^ 1023) by (apply Z.pow_le_mono_r; lia). lia.
Qed.

Lemma filter_all {A} (P : A -> bool) (l : list A) :
  Forall (fun x => P x = true) l -> List.filter P l = l.
Proof.
  induction 1 as [| x l Hx _ IH]; cbn; [reflexivity |]. rewrite Hx, IH. reflexivity.
Qed.

End Emit.

(** ** The counters of an aggregate *)

Section Counters.




End Counters.

(** ** What [ingest] can raise *)

Section Errors.
Variable time_time : nat -> float64.

Lemma int_truediv_Raise a b ex :
  int_truediv a b = Raise ex ->
  (b = 0 /\ ex = ZeroDivisionError) \/
  (b <> 0 /\ ex = OverflowError /\
   exists s, round_to_double (inject_Z a / inject_Z b) = Inf s).
Proof.
  unfold int_truediv. destruct (Z.eqb_spec b 0) as [-> | Hb].
  - intros [= <-]. left. auto.
  - destruct (round_to_double (inject_Z a / inject_Z b)) as [v | s |]; try discriminate.
    intros [= <-]. right. eauto.
Qed.

Lemma ingest_raises events s e ex :
  history events s -> TrackStats.ingest s e = Raise ex ->
  ex = OverflowError /\
  exists sign,
    round_to_double
      (inject_Z (listened_total events + StreamEvent.listened_s e)
       / inject_Z (Z.of_nat (length events) + 1)) = Inf sign.
Proof.
  intros H. unfold TrackStats.ingest.
  pose proof (completed_count_bounds events) as Hc.
  rewrite (h_total _ _ H), (h_listen _ _ H), (h_completions _ _ H).
  destruct (int_truediv (listened_total events + StreamEvent.listened_s e)
              (Z.of_nat (length events) + 1)) as [avg | ex'] eqn:Havg.
  - clear Havg. cbn.
    destruct (completion_formula_bounds
                (if StreamEvent.completed e then completed_count events + 1
                 else completed_count events)
                (Z.of_nat (length events) + 1)) as (p & Hp & _);
      [destruct (StreamEvent.completed e); lia | lia |].
    unfold completion_formula in Hp.
    destruct (int_truediv _ (Z.of_nat (length events) + 1)) as [ratio | ex''];
      [| discriminate].
    cbn in Hp |- *. rewrite Hp. cbn.
    destruct (max_by_count_setitem (TrackStats._platform_counts s)
                (StreamEvent.platform e)
                (default 0 (dict_get (TrackStats._platform_counts s)
                              (StreamEvent.platform e)) + 1)) as (tp & ->).
    destruct (max_by_count_setitem (TrackStats._region_counts s)
                (StreamEvent.region e)
                (default 0 (dict_get (TrackStats._region_counts s)
                              (StreamEvent.region e)) + 1)) as (tr & ->).
    cbn. discriminate.
  - cbn. intros [= <-].
    apply int_truediv_Raise in Havg.
    destruct Havg as [[Hz _] | (_ & -> & Hinf)]; [lia | auto].
Qed.

End Errors.

(** ** The leaderboard of [print_report] *)

Section Board.
Variable time_time : nat -> float64.

Lemma bar_filled_in_range value max_val width :
  0 <= value <= max_val -> 0 < max_val -> 0 <= width < 2 ^ 53 ->
  exists filled, bar_filled value max_val width = Ok filled /\ 0 <= filled <= width.
Proof.
  intros Hv Hm Hw.
  destruct (filled_in_range value max_val width Hv Hm Hw)
    as (r & x & Hr & _ & Hx & Hx0 & Hx1).
  exists (round_half_even x). split.
  - rewrite bar_filled_nonzero by lia.
    rewrite Hr. cbn [mbind result_bind].
    rewrite int_to_float_small by lia. cbn [mbind result_bind]. rewrite Hx. reflexivity.
  - split.
    + apply round_half_even_ge. exact Hx0.
    + apply round_half_even_le. exact Hx1.
Qed.

Lemma sum_streams_perm (l l' : list TrackStats.t) :
  Permutation l l' ->
  fold_right (fun s acc => TrackStats.total_streams s + acc) 0 l
  = fold_right (fun s acc => TrackStats.total_streams s + acc) 0 l'.
Proof. induction 1; cbn [fold_right]; lia. Qed.

Lemma sum_streams_bounds (l : list TrackStats.t) (M : Z) :
  (forall t, In t l -> 0 <= TrackStats.total_streams t <= M) ->
  0 <= fold_right (fun s acc => TrackStats.total_streams s + acc) 0 l
  <= Z.of_nat (length l) * M /\
  (forall t, In t l ->
     TrackStats.total_streams t
     <= fold_right (fun s acc => TrackStats.total_streams s + acc) 0 l).
Proof.
  induction l as [| a l IH]; intros H.
  - cbn. split; [lia | intros t []].
  - destruct IH as (IH1 & IH2); [intros t Ht; apply H; right; exact Ht |].
    pose proof (H a (or_introl eq_refl)) as Ha.
    cbn [fold_right length]. split; [nia |].
    intros t [<- | Ht]; [lia |]. specialize (IH2 t Ht). lia.
Qed.

(** The whole leaderboard: non-empty, led by a track with the most
    streams. *)
Lemma leaderboard_full events w :
  reachable time_time events w ->
  exists top rest,
    StreamProcessor.top_tracks (StreamProcessor.self w) (Z.of_nat (length CATALOG))
    = top :: rest /\
    length (top :: rest) = length CATALOG /\
    Permutation (top :: rest)
      (dict_values (StreamProcessor.stats (StreamProcessor.self w))) /\
    StronglySorted ranks_before (top :: rest) /\
    (forall t, In t (top :: rest) ->
       0 <= TrackStats.total_streams t <= TrackStats.total_streams top) /\
    TrackStats.total_streams top
    <= StreamProcessor._total_processed (StreamProcessor.self w)
    <= Z.of_nat (length CATALOG) * TrackStats.total_streams top.
Proof.
  intros Hr.
  set (all := dict_values (StreamProcessor.stats (StreamProcessor.self w))).
  set (sorted := sorted_reverse TrackStats.total_streams all).
  pose proof (sorted_reverse_perm TrackStats.total_streams all) as Hperm.
  fold sorted in Hperm.
  assert (Hlen : length sorted = length CATALOG).
  { rewrite (Permutation_length Hperm). unfold all, dict_values. rewrite length_map.
    pose proof (reachable_inv _ _ _ Hr) as Hinv. symmetry.
    exact (Forall2_length _ _ _ (inv_stats _ _ Hinv)). }
  assert (Hfull : StreamProcessor.top_tracks (StreamProcessor.self w)
                    (Z.of_nat (length CATALOG)) = sorted).
  { unfold StreamProcessor.top_tracks. fold all. fold sorted.
    rewrite slice_to_nonneg by lia. rewrite Nat2Z.id, <- Hlen. apply firstn_all. }
  pose proof (leaderboard_sorted time_time events w Hr) as Hsorted.
  fold all in Hsorted. fold sorted in Hsorted.
  rewrite Hfull. destruct sorted as [| top rest] eqn:Hs; [discriminate |].
  exists top, rest. split; [reflexivity |]. split; [exact Hlen |].
  split; [exact Hperm |]. split; [exact Hsorted |].
  assert (Hbound : forall t, In t (top :: rest) ->
            0 <= TrackStats.total_streams t <= TrackStats.total_streams top).
  { intros t Ht. split.
    - apply (reachable_total_streams_nonneg time_time events w t Hr).
      fold all. apply (Permutation_in _ Hperm). exact Ht.
    - destruct Ht as [<- | Ht]; [lia |].
      inversion Hsorted as [| ? ? _ Hall]; subst.
      rewrite List.Forall_forall in Hall. specialize (Hall t Ht).
      unfold ranks_before in Hall. lia. }
  split; [exact Hbound |].
  pose proof (reachable_inv _ _ _ Hr) as Hinv.
  rewrite <- (inv_sum _ _ Hinv). unfold sum_total_streams. fold all.
  rewrite <- (sum_streams_perm _ _ Hperm).
  destruct (sum_streams_bounds (top :: rest) (TrackStats.total_streams top) Hbound)
    as (Hsum & Hmem).
  rewrite Hlen in Hsum. split; [apply Hmem; left; reflexivity | lia].
Qed.


(** What [bar] draws for a row of the leaderboard. *)
Lemma leaderboard_row (value max_val : Z) :
  0 <= value <= max_val ->
  exists filled,
    bar_filled value max_val 30 = Ok filled /\ 0 <= filled <= 30 /\
    bar value max_val 30 = Ok (bar_of filled 30).
Proof.
  intros Hv. destruct (Z.eq_dec max_val 0) as [-> | Hnz].
  - exists 0. split; [reflexivity | split; [lia | reflexivity]].
  - destruct (bar_filled_in_range value max_val 30) as (filled & Hf & Hrange);
      [lia | lia | lia |].
    exists filled. split; [exact Hf | split; [exact Hrange |]].
    apply bar_of_filled. exact Hf.
Qed.

(** The rows of the leaderboard: what [bar] returns for each track. *)
Lemma leaderboard_rows events w :
  reachable time_time events w ->
  exists top rest (fill : TrackStats.t -> Z),
    StreamProcessor.top_tracks (StreamProcessor.self w) (Z.of_nat (length CATALOG))
    = top :: rest /\
    (forall t, In t (top :: rest) ->
       bar_filled (TrackStats.total_streams t) (TrackStats.total_streams top) 30
       = Ok (fill t) /\
       0 <= fill t <= 30) /\
    leaderboard_bars (StreamProcessor.self w)
    = map (fun filled => Ok (bar_of filled 30)) (map fill (top :: rest)) /\
    fill top
    = (if 0 <? StreamProcessor._total_processed (StreamProcessor.self w)
       then 30 else 0).
Proof.
  intros Hr.
  destruct (leaderboard_full events w Hr)
    as (top & rest & Htracks & Hlen & _ & Hsorted & Hbound & Htotal).
  unfold leaderboard_bars. rewrite Htracks.
  set (m := TrackStats.total_streams top) in *.
  set (fill := fun t : TrackStats.t =>
                 match bar_filled (TrackStats.total_streams t) m 30 with
                 | Ok filled => filled
                 | Raise _ => 0
                 end).
  assert (Hrow : forall t, In t (top :: rest) ->
            bar_filled (TrackStats.total_streams t) m 30 = Ok (fill t) /\
            0 <= fill t <= 30 /\
            bar (TrackStats.total_streams t) m 30 = Ok (bar_of (fill t) 30)).
  { intros t Ht. destruct (leaderboard_row (TrackStats.total_streams t) m (Hbound t Ht))
      as (filled & Hf & Hrange & Hb).
    unfold fill. rewrite Hf. auto. }
  exists top, rest, fill. split; [reflexivity |].
  split; [intros t Ht; destruct (Hrow t Ht) as (Hf & Hrange & _); auto |].
  split.
  - rewrite map_map. apply map_ext_in. intros t Ht. apply (Hrow t Ht).
  - destruct (Hrow top (or_introl eq_refl)) as (Hf & _).
    destruct (Z.ltb_spec 0 (StreamProcessor._total_processed (StreamProcessor.self w)))
      as [Hpos | Hzero].
    + rewrite bar_filled_full in Hf by (cbn in Htotal; lia). congruence.
    + assert (Hm : m = 0) by (pose proof (Hbound top (or_introl eq_refl)); lia).
      rewrite Hm in Hf. cbn in Hf. congruence.
Qed.
End Board.

(** ** The deep-dive of [print_report] *)

Section DeepDive.
Variable time_time : nat -> float64.

Lemma listened_total_between (lo hi : Z) events :
  Forall (fun e => lo <= StreamEvent.listened_s e <= hi) events ->
  lo * Z.of_nat (length events) <= listened_total events
  <= hi * Z.of_nat (length events).
Proof.
  unfold listened_total.
  induction 1 as [| e events He _ IH]; cbn [fold_right length]; lia.
Qed.

Lemma history_avg_between events s (lo hi : Z) :
  history events s -> events <> [] ->
  Forall (fun e => lo <= StreamEvent.listened_s e <= hi) events ->
  Z.abs lo < 2 ^ 53 -> Z.abs hi < 2 ^ 53 ->
  exists v,
    TrackStats.avg_listen_s s = Finite v /\
    (inject_Z lo <= v)%Q /\ (v <= inject_Z hi)%Q.
Proof.
  intros Hrun Hne Hall Hlo Hhi.
  pose proof (h_avg _ _ Hrun Hne) as Havg.
  apply int_truediv_inv in Havg. destruct Havg as (Hn & v & Hv & Hr).
  pose proof (listened_total_between lo hi events Hall) as Hb.
  set (n := Z.of_nat (length events)) in *.
  assert (Hnpos : 0 < n) by (unfold n; destruct events; [congruence | cbn; lia]).
  assert (Hn' : (0 < inject_Z n)%Q).
  { change 0%Q with (inject_Z 0). rewrite <- Zlt_Qlt. exact Hnpos. }
  exists v. split; [exact Hv |]. split.
  - apply (round_to_double_ge_int (inject_Z (listened_total events) / inject_Z n) lo v Hlo);
      [| exact Hr].
    apply Qle_shift_div_l; [exact Hn' |].
    rewrite <- inject_Z_mult, <- Zle_Qle. lia.
  - apply (round_to_double_mono_Finite
             (inject_Z (listened_total events) / inject_Z n) (inject_Z hi) v (inject_Z hi));
      [| exact Hr | apply round_to_double_small_int; exact Hhi].
    apply Qle_shift_div_r; [exact Hn' |].
    rewrite <- inject_Z_mult, <- Zle_Qle. lia.
Qed.

Lemma reachable_catalog_map events w :
  reachable time_time events w ->
  StreamProcessor._catalog_map (StreamProcessor.self w)
  = StreamProcessor._catalog_map StreamProcessor.init.
Proof.
  induction 1 as [| events w e w' _ IH Hp]; [reflexivity |].
  unfold StreamProcessor.process in Hp.
  destruct (dict_get _ (StreamEvent.track_id e)) as [a |].
  - apply bind_Ok in Hp. destruct Hp as (a' & _ & Hp). injection Hp as <-. exact IH.
  - injection Hp as <-. exact IH.
Qed.

Lemma catalog_map_lookup c :
  In c CATALOG ->
  dict_get (StreamProcessor._catalog_map StreamProcessor.init) (cat_track_id c) = Some c.
Proof.
  intros Hc. repeat (destruct Hc as [<- | Hc]; [reflexivity |]). destruct Hc.
Qed.

Lemma stats_values_entry events (cs : list CatalogEntry) (d : dict TrackStats.t) a :
  Forall2 (aggregate_of events) cs d -> In a (dict_values d) ->
  exists c, In c cs /\ TrackStats.track_id a = cat_track_id c /\
            history (for_track (cat_track_id c) events) a.
Proof.
  induction 1 as [| c [k a0] cs d (_ & Hid & _ & Hh) _ IH]; cbn; [tauto |].
  intros [<- | Hin].
  - exists c. cbn in *. auto.
  - destruct (IH Hin) as (c' & Hc' & H'). exists c'. auto.
Qed.

(** The top track of the report, once an event has been counted. *)
Lemma top_track_entry events w :
  reachable time_time events w ->
  0 < StreamProcessor._total_processed (StreamProcessor.self w) ->
  exists top rest c,
    StreamProcessor.top_tracks (StreamProcessor.self w) (Z.of_nat (length CATALOG))
    = top :: rest /\
    In c CATALOG /\
    TrackStats.track_id top = cat_track_id c /\
    history (for_track (cat_track_id c) events) top /\
    1 <= TrackStats.total_streams top.
Proof.
  intros Hr Hpos.
  destruct (leaderboard_full time_time events w Hr)
    as (top & rest & Htracks & _ & Hperm & _ & _ & Htotal).
  assert (Htop : 1 <= TrackStats.total_streams top) by (cbn in Htotal; lia).
  pose proof (reachable_inv _ _ _ Hr) as Hinv.
  destruct (stats_values_entry _ _ _ top (inv_stats _ _ Hinv)) as (c & Hc & Hid & Hh).
  { apply (Permutation_in _ Hperm). left. reflexivity. }
  exists top, rest, c. auto.
Qed.

(** The average of listening times that [emit] can produce. *)
Lemma average_within_duration events c s :
  In c CATALOG ->
  history (for_track (cat_track_id c) events) s ->
  1 <= TrackStats.total_streams s ->
  Forall within_duration events ->
  exists avg,
    TrackStats.avg_listen_s s = Finite avg /\
    (10 <= avg)%Q /\ (avg <= inject_Z (cat_duration_s c))%Q.
Proof.
  intros Hc Hh Htop Hwd.
  pose proof (catalog_durations c Hc) as Hdur.
  apply (history_avg_between _ s 10 (cat_duration_s c) Hh).
  - rewrite (h_total _ _ Hh) in Htop. intros Hnil. rewrite Hnil in Htop. cbn in Htop. lia.
  - apply List.Forall_forall. intros e He. unfold for_track in He.
    apply List.filter_In in He. destruct He as (He & Hk).
    apply String.eqb_eq in Hk. rewrite List.Forall_forall in Hwd.
    exact (Hwd e He c Hc Hk).
  - reflexivity.
  - lia.
Qed.

End DeepDive.

(** ** The loop of [main] *)

Section Main.
Variable time_time : nat -> float64.

Lemma batch_then_process ds n events w :
  reachable time_time events w ->
  Forall well_formed events ->
  n < 2 ^ 53 ->
  (forall i, Z.of_nat i < n -> possible_draws (ds i)) ->
  exists es w',
    EventProducer.batch ds n = Ok es /\
    length es = Z.to_nat n /\
    Forall (fun e => in_catalog e = true /\ well_formed e /\ within_duration e) es /\
    StreamProcessor.process_batch time_time w es = Ok w' /\
    reachable time_time (events ++ es) w' /\
    StreamProcessor._total_processed (StreamProcessor.self w')
    = StreamProcessor._total_processed (StreamProcessor.self w) + Z.max 0 n.
Proof.
  intros Hr Hwf Hn Hds. unfold EventProducer.batch.
  destruct (emit_each_defined ds (seq 0 (Z.to_nat n))) as (es & Hes & Hall).
  { intros i Hi. apply in_seq in Hi.
    assert (Hlt : Z.of_nat i < n) by lia.
    destruct (Hds i Hlt) as (Hc & Hb). split; [lia | split; assumption]. }
  assert (Hwf' : Forall well_formed es).
  { eapply List.Forall_impl; [| exact Hall]. intros e (_ & He & _). exact He. }
  assert (Hin : Forall (fun e => in_catalog e = true) es).
  { eapply List.Forall_impl; [| exact Hall]. intros e (He & _). exact He. }
  destruct (process_batch_defined time_time es events w Hr Hwf Hwf') as (w' & Hw').
  exists es, w'. split; [exact Hes |].
  pose proof (emit_each_length _ _ _ Hes) as Hlen. rewrite length_seq in Hlen.
  split; [exact Hlen |]. split; [exact Hall |]. split; [exact Hw' |].
  pose proof (process_batch_reachable time_time es events w w' Hr Hw') as Hr'.
  split; [exact Hr' |].
  apply reachable_inv in Hr'. apply reachable_inv in Hr.
  rewrite (inv_total _ _ Hr'), (inv_total _ _ Hr).
  rewrite List.filter_app, length_app, (filter_all _ _ Hin), Hlen. lia.
Qed.

Lemma run_waves_totals dss waves :
  Forall (fun n => n < 2 ^ 53) waves ->
  (forall k i, possible_draws (dss k i)) ->
  forall k events w,
    reachable time_time events w ->
    Forall well_formed events ->
    exists events' w',
      run_waves time_time dss k w waves
      = Ok (w', running_totals
                  (StreamProcessor._total_processed (StreamProcessor.self w)) waves) /\
      reachable time_time (events ++ events') w' /\
      Forall well_formed (events ++ events') /\
      Forall (fun e => in_catalog e = true /\ within_duration e) events' /\
      Z.of_nat (length events') = fold_right (fun n acc => Z.max 0 n + acc) 0 waves.
Proof.
  intros Hwaves Hds. induction Hwaves as [| n waves Hn _ IH]; intros k events w Hr Hwf.
  - exists [], w. cbn. rewrite app_nil_r. repeat split; auto.
  - destruct (batch_then_process (dss k) n events w Hr Hwf Hn (fun i _ => Hds k i))
      as (es & w1 & Hes & Hlen & Hall & Hw1 & Hr1 & Htot).
    assert (Hwf1 : Forall well_formed (events ++ es)).
    { apply List.Forall_app. split; [exact Hwf |].
      eapply List.Forall_impl; [| exact Hall]. intros e (_ & He & _). exact He. }
    destruct (IH (S k) (events ++ es) w1 Hr1 Hwf1)
      as (events' & w' & Hrun & Hr' & Hwf' & Hin' & Hlen').
    exists (es ++ events'), w'.
    cbn [run_waves running_totals]. rewrite Hes. cbn [mbind result_bind].
    rewrite Hw1. cbn [mbind result_bind]. rewrite Hrun. cbn [mbind result_bind fst snd].
    rewrite Htot. rewrite app_assoc.
    split; [reflexivity |]. split; [exact Hr' |]. split; [exact Hwf' |].
    split.
    + apply List.Forall_app. split; [| exact Hin'].
      eapply List.Forall_impl; [| exact Hall]. intros e (He & _ & Hd). split; assumption.
    + rewrite length_app, Nat2Z.inj_add, Hlen'. cbn [fold_right]. lia.
Qed.

Lemma sum_nonneg_bound (waves : list Z) :
  Forall (fun n => 0 <= n) waves ->
  Forall (fun n => n <= fold_right Z.add 0 waves) waves /\ 0 <= fold_right Z.add 0 waves /\
  fold_right (fun n acc => Z.max 0 n + acc) 0 waves = fold_right Z.add 0 waves.
Proof.
  induction 1 as [| n waves Hn _ (IH1 & IH2 & IH3)]; cbn [fold_right].
  - split; [constructor | split; [lia | reflexivity]].
  - split; [| split; lia]. constructor; [lia |].
    eapply List.Forall_impl; [| exact IH1]. intros m Hm. cbn beta in Hm. lia.
Qed.

End Main.

(* ===================================================================== *)
(** * Further properties of the program                                   *)
(* ===================================================================== *)

Lemma idle_clock_finite : forall i, idle_clock i = Finite (idle_seconds i).
Proof. intros [| i]; reflexivity. Qed.

Lemma idle_seconds_monotone :
  forall i j, (i <= j)%nat -> (idle_seconds i <= idle_seconds j)%Q.
Proof.
  intros [| i] [| j] Hij; cbn [idle_seconds]; try lia.
  - apply Qle_refl.
  - change 1000%Q with (inject_Z 1000). rewrite <- Zle_Qle. lia.
  - rewrite <- Zle_Qle. lia.
Qed.

Lemma mixed_plays_within_duration : Forall within_duration mixed_plays.
Proof.
  unfold mixed_plays.
  repeat (apply List.Forall_cons;
          [intros c Hc Hk;
           repeat (destruct Hc as [<- | Hc]; [first [discriminate Hk | cbn; lia] |]);
           destruct Hc |]).
  apply List.Forall_nil.
Qed.

Lemma half_listened_possible : possible_draws half_listened.
Proof.
  split; [left; reflexivity |].
  exists (1 # 2)%Q. split; [reflexivity | split; discriminate].
Qed.

(** X1.  The window of a reachable engine is a suffix of the clock readings
    made by [process], one reading per event of a catalog track: [process]
    evicts from the front only, and an event of an unknown track leaves the
    window alone.  So the window never holds more timestamps than events
    were counted. *)
Theorem window_suffix_of_readings :
  forall time_time events w,
    reachable time_time events w ->
    exists dropped,
      readings time_time (length (List.filter in_catalog events))
      = dropped ++ StreamProcessor._window (StreamProcessor.self w) /\
      Z.of_nat (length (StreamProcessor._window (StreamProcessor.self w)))
      <= StreamProcessor._total_processed (StreamProcessor.self w).
Proof.
  intros time_time events w Hr.
  destruct (window_suffix time_time events w Hr) as (dropped & Hd).
  pose proof (reachable_inv _ _ _ Hr) as Hinv.
  rewrite (inv_clock _ _ Hinv) in Hd.
  exists dropped. split; [exact Hd |].
  apply (f_equal (@length float64)) in Hd.
  unfold readings in Hd. rewrite length_map, length_seq, length_app in Hd.
  rewrite (inv_total _ _ Hinv). lia.
Qed.

Lemma window_suffix_of_readings_witness :
  exists dropped,
    readings idle_clock (length (List.filter in_catalog mixed_plays))
    = dropped ++ StreamProcessor._window (StreamProcessor.self (run_engine mixed_plays)) /\
    Z.of_nat (length (StreamProcessor._window
                        (StreamProcessor.self (run_engine mixed_plays))))
    <= StreamProcessor._total_processed (StreamProcessor.self (run_engine mixed_plays)).
Proof.
  exact (window_suffix_of_readings idle_clock mixed_plays (run_engine mixed_plays)
           mixed_plays_reachable).
Defined.

(** X2.  With a clock that returns finite times and never goes back, right
    after [process] has counted an event the window holds exactly the
    processing times that are at most [WINDOW_SIZE] seconds older than the
    last one, and [throughput] is their number divided by [WINDOW_SIZE]:
    at that moment the value is the rate over the last minute. *)
Theorem window_holds_last_minute :
  forall (time_time : nat -> float64) (seconds : nat -> Q) events w k,
    (forall i, time_time i = Finite (seconds i)) ->
    (forall i j, (i <= j)%nat -> (seconds i <= seconds j)%Q) ->
    reachable time_time events w ->
    length (List.filter in_catalog events) = S k ->
    StreamProcessor._window (StreamProcessor.self w)
    = List.filter (within_window (time_time k)) (readings time_time (S k)) /\
    StreamProcessor.throughput (StreamProcessor.self w)
    = int_truediv
        (Z.of_nat (length (List.filter (within_window (time_time k))
                             (readings time_time (S k)))))
        StreamProcessor.WINDOW_SIZE.
Proof.
  intros time_time seconds events w k Hfinite Hmonotone Hr Hk.
  pose proof (window_within_horizon time_time seconds Hfinite Hmonotone events w Hr) as Hw.
  pose proof (reachable_inv _ _ _ Hr) as Hinv.
  rewrite (inv_clock _ _ Hinv), Hk in Hw.
  split; [exact Hw |].
  unfold StreamProcessor.throughput. rewrite Hw. reflexivity.
Qed.

Lemma window_holds_last_minute_witness :
  StreamProcessor._window (StreamProcessor.self (run_engine mixed_plays))
  = List.filter (within_window (idle_clock 2)) (readings idle_clock 3) /\
  StreamProcessor.throughput (StreamProcessor.self (run_engine mixed_plays))
  = int_truediv
      (Z.of_nat (length (List.filter (within_window (idle_clock 2))
                           (readings idle_clock 3))))
      StreamProcessor.WINDOW_SIZE.
Proof.
  exact (window_holds_last_minute idle_clock idle_seconds mixed_plays
           (run_engine mixed_plays) 2 idle_clock_finite idle_seconds_monotone
           mixed_plays_reachable eq_refl).
Defined.

(** X3.  [throughput] does not raise on a window of fewer than 2^63
    timestamps: it returns a finite float that is not negative, and that is
    zero exactly when the window is empty. *)
Theorem throughput_defined :
  forall self : StreamProcessor.t,
    Z.of_nat (length (StreamProcessor._window self)) < 2 ^ 63 ->
    exists v,
      StreamProcessor.throughput self = Ok (Finite v) /\
      (0 <= v)%Q /\ (v <= pow2 63)%Q /\
      ((v == 0)%Q <-> StreamProcessor._window self = []).
Proof.
  intros self Hlen.
  destruct (throughput_finite self Hlen) as (v & Hv & Hres & Hv0 & Hv1).
  exists v. split; [exact Hres | split; [exact Hv0 | split; [exact Hv1 |]]].
  destruct (StreamProcessor._window self) as [| x window].
  - split; [reflexivity | intros _].
    assert (Hz : round_to_double (inject_Z (Z.of_nat (@length float64 [])) / 60) = Finite 0)
      by reflexivity.
    rewrite Hz in Hv. injection Hv as <-. reflexivity.
  - split; [intros Hz; exfalso | discriminate].
    pose proof (throughput_positive (Z.of_nat (length (x :: window))) v) as Hp.
    assert (Hlt : (0 < v)%Q) by (apply Hp; [cbn [length]; lia | exact Hv]).
    rewrite Hz in Hlt. discriminate Hlt.
Qed.

Lemma throughput_defined_witness :
  exists v,
    StreamProcessor.throughput (StreamProcessor.self (run_engine mixed_plays))
    = Ok (Finite v) /\
    (0 <= v)%Q /\ (v <= pow2 63)%Q /\
    ((v == 0)%Q <->
     StreamProcessor._window (StreamProcessor.self (run_engine mixed_plays)) = []).
Proof.
  apply (throughput_defined (StreamProcessor.self (run_engine mixed_plays))).
  vm_compute. reflexivity.
Defined.



(** X5.  For every [n], negative ones included, [top_tracks(n)] is a prefix
    of the full leaderboard [top_tracks(len(CATALOG))], which lists every
    track of the catalog: [min(n, len(CATALOG))] tracks for [n >= 0], and
    for [n < 0] all but the last [-n] (none when [-n] exceeds their
    number), the slice [[:n]] counting from the end. *)
Theorem top_tracks_any_n :
  forall time_time events w (n : Z),
    reachable time_time events w ->
    let full := StreamProcessor.top_tracks (StreamProcessor.self w)
                  (Z.of_nat (length CATALOG)) in
    exists dropped,
      StreamProcessor.top_tracks (StreamProcessor.self w) n ++ dropped = full /\
      length full = length CATALOG /\
      length (StreamProcessor.top_tracks (StreamProcessor.self w) n)
      = Z.to_nat (if n <? 0 then Z.of_nat (length CATALOG) + n
                  else Z.min n (Z.of_nat (length CATALOG))).
Proof.
  intros time_time events w n Hr full.
  set (sorted := sorted_reverse TrackStats.total_streams
                   (dict_values (StreamProcessor.stats (StreamProcessor.self w)))).
  assert (Hlen : length sorted = length CATALOG).
  { unfold sorted.
    rewrite (Permutation_length (sorted_reverse_perm TrackStats.total_streams _)).
    unfold dict_values. rewrite length_map.
    apply reachable_inv in Hr. symmetry.
    exact (Forall2_length _ _ _ (inv_stats _ _ Hr)). }
  assert (Hfull : full = sorted).
  { unfold full, StreamProcessor.top_tracks. fold sorted.
    rewrite slice_to_nonneg by lia. rewrite Nat2Z.id, <- Hlen. apply firstn_all. }
  unfold StreamProcessor.top_tracks. fold sorted. unfold slice_to.
  rewrite Hfull, Hlen.
  destruct (Z.ltb_spec n 0) as [Hneg | Hpos].
  - exists (skipn (Z.to_nat (Z.of_nat (length CATALOG) + n)) sorted).
    rewrite firstn_skipn, length_firstn, Hlen.
    split; [reflexivity | split; [reflexivity | lia]].
  - exists (skipn (Z.to_nat n) sorted).
    rewrite firstn_skipn, length_firstn, Hlen.
    split; [reflexivity | split; [reflexivity | lia]].
Qed.

Lemma top_tracks_any_n_witness :
  exists dropped,
    StreamProcessor.top_tracks (StreamProcessor.self (run_engine mixed_plays)) (-3)
    ++ dropped
    = StreamProcessor.top_tracks (StreamProcessor.self (run_engine mixed_plays))
        (Z.of_nat (length CATALOG)) /\
    length (StreamProcessor.top_tracks (StreamProcessor.self (run_engine mixed_plays))
              (Z.of_nat (length CATALOG))) = length CATALOG /\
    length (StreamProcessor.top_tracks (StreamProcessor.self (run_engine mixed_plays))
              (-3)) = 7%nat.
Proof.
  exact (top_tracks_any_n idle_clock mixed_plays (run_engine mixed_plays) (-3)
           mixed_plays_reachable).
Defined.

(** X6.  In a reachable state [process] raises nothing but [OverflowError]
    (no division by zero, no [max] of an empty dict), only on an event of a
    catalog track, and only when the average listening time of that track,
    the new event included, is too large for a float; this needs a
    [listened_s] outside of [0, 2^1023] in the history. *)
Theorem process_raises_only_overflow :
  forall time_time events w e ex,
    reachable time_time events w ->
    StreamProcessor.process time_time w e = Raise ex ->
    ex = OverflowError /\
    in_catalog e = true /\
    ~ Forall well_formed (events ++ [e]) /\
    exists sign,
      let mine := for_track (StreamEvent.track_id e) (events ++ [e]) in
      round_to_double
        (inject_Z (listened_total mine) / inject_Z (Z.of_nat (length mine)))
      = Inf sign.
Proof.
  intros time_time events w e ex Hr Hp.
  assert (Hnot : ~ Forall well_formed (events ++ [e])).
  { intros Hwf. apply List.Forall_app in Hwf. destruct Hwf as [Hwf He].
    inversion He as [| ? ? He' _]; subst.
    destruct (process_defined time_time events w e Hr Hwf He') as (w' & Hw').
    congruence. }
  pose proof (reachable_inv _ _ _ Hr) as Hinv.
  unfold StreamProcessor.process in Hp.
  destruct (dict_get _ (StreamEvent.track_id e)) as [a |] eqn:Hget; [| discriminate].
  assert (Hin : in_catalog e = true).
  { apply (dict_get_in_catalog _ _ _ (StreamEvent.track_id e) (inv_stats _ _ Hinv)).
    eauto. }
  destruct (dict_get_aggregate _ _ _ _ _ (inv_stats _ _ Hinv) Hget)
    as (c & _ & Hk & _ & _ & Hh).
  cbn [snd fst] in Hh, Hk. rewrite <- Hk in Hh.
  destruct (TrackStats.ingest a e) as [a' | ex'] eqn:Hi; [discriminate |].
  cbn in Hp. injection Hp as <-.
  destruct (ingest_raises _ _ _ _ Hh Hi) as (-> & sign & Hinf).
  split; [reflexivity |]. split; [exact Hin |]. split; [exact Hnot |].
  exists sign. cbn zeta. unfold for_track. rewrite List.filter_app. cbn [List.filter].
  rewrite String.eqb_refl. fold (for_track (StreamEvent.track_id e) events).
  rewrite length_app. cbn [length].
  replace (listened_total (for_track (StreamEvent.track_id e) events ++ [e]))
    with (listened_total (for_track (StreamEvent.track_id e) events)
          + StreamEvent.listened_s e).
  - rewrite Nat2Z.inj_add. exact Hinf.
  - unfold listened_total. rewrite fold_right_app. cbn [fold_right].
    generalize (for_track (StreamEvent.track_id e) events).
    induction l as [| x l IH]; cbn [fold_right]; lia.
Qed.

Lemma process_raises_only_overflow_witness :
  OverflowError = OverflowError /\
  in_catalog overlong_play = true /\
  ~ Forall well_formed ([] ++ [overlong_play]) /\
  exists sign,
    let mine := for_track (StreamEvent.track_id overlong_play) ([] ++ [overlong_play]) in
    round_to_double (inject_Z (listened_total mine) / inject_Z (Z.of_nat (length mine)))
    = Inf sign.
Proof.
  apply (process_raises_only_overflow idle_clock [] StreamProcessor.start overlong_play
           OverflowError).
  - constructor.
  - vm_compute. reflexivity.
Defined.

(** X7.  Processing a concatenation of two batches is processing the first
    and then, if it did not raise, the second from the state reached: how
    the events are cut into batches does not matter. *)
Theorem process_batch_app :
  forall time_time (w : StreamProcessor.world) (batch1 batch2 : list StreamEvent.t),
    StreamProcessor.process_batch time_time w (batch1 ++ batch2)
    = (w' ← StreamProcessor.process_batch time_time w batch1;
       StreamProcessor.process_batch time_time w' batch2).
Proof.
  intros time_time w batch1. revert w.
  induction batch1 as [| e batch1 IH]; intros w batch2; cbn.
  - reflexivity.
  - destruct (StreamProcessor.process time_time w e) as [w1 | ex]; cbn.
    + apply IH.
    + reflexivity.
Qed.



(** X9.  When every ingested [listened_s] lies between [lo] and [hi] (ints
    of at most 53 bits), so does [avg_listen_s]: rounding the average to a
    float does not take it out of the range of the data. *)
Theorem avg_listen_between :
  forall track_id title events s (lo hi : Z),
    TrackStats.ingest_all (TrackStats.new track_id title) events = Ok s ->
    events <> [] ->
    Forall (fun e => lo <= StreamEvent.listened_s e <= hi) events ->
    Z.abs lo < 2 ^ 53 -> Z.abs hi < 2 ^ 53 ->
    exists v,
      TrackStats.avg_listen_s s = Finite v /\
      (inject_Z lo <= v)%Q /\ (v <= inject_Z hi)%Q.
Proof.
  intros track_id title events s lo hi Hrun Hne Hall Hlo Hhi.
  apply history_ingest_all in Hrun.
  exact (history_avg_between events s lo hi Hrun Hne Hall Hlo Hhi).
Qed.

Lemma avg_listen_between_witness :
  exists v,
    TrackStats.avg_listen_s (run_aggregate three_plays) = Finite v /\
    (inject_Z 100 <= v)%Q /\ (v <= inject_Z 183)%Q.
Proof.
  apply (avg_listen_between "jw-001" "In My Room" three_plays
           (run_aggregate three_plays) 100 183 three_plays_run).
  - discriminate.
  - repeat constructor; cbn; lia.
  - reflexivity.
  - reflexivity.
Defined.

(** X10.  For [0 <= value <= max_val], [max_val > 0] and a width of at most
    53 bits, [bar] does not raise and draws exactly [width] cells: [filled]
    full blocks followed by [width - filled] light ones, with
    [0 <= filled <= width]. *)
Theorem bar_has_width :
  forall value max_val width,
    0 <= value <= max_val -> 0 < max_val -> 0 <= width < 2 ^ 53 ->
    exists filled,
      bar value max_val width = Ok (bar_of filled width) /\
      0 <= filled <= width /\
      length (bar_of filled width) = Z.to_nat width.
Proof.
  intros value max_val width Hv Hm Hw.
  destruct (bar_filled_in_range value max_val width Hv Hm Hw) as (filled & Hf & Hrange).
  exists filled. split; [exact (bar_of_filled _ _ _ _ Hf) | split; [exact Hrange |]].
  unfold bar_of, FULL_BLOCK, LIGHT_SHADE. rewrite length_app, !str_mul_length. lia.
Qed.

Lemma bar_has_width_witness :
  exists filled,
    bar 3 5 30 = Ok (bar_of filled 30) /\
    0 <= filled <= 30 /\
    length (bar_of filled 30) = Z.to_nat 30.
Proof. apply (bar_has_width 3 5 30); lia. Defined.

(** X11.  The ends of the scale: with [max_val = 0] the bar is all light
    cells whatever the value, and with [max_val > 0] the value 0 gives the
    all-light bar and the value [max_val] the all-full one. *)
Theorem bar_ends :
  forall value max_val width,
    0 <= width < 2 ^ 53 ->
    bar value 0 width = Ok (str_mul LIGHT_SHADE width) /\
    (0 < max_val -> bar 0 max_val width = Ok (str_mul LIGHT_SHADE width)) /\
    (0 < max_val -> bar max_val max_val width = Ok (str_mul FULL_BLOCK width)).
Proof.
  intros value max_val width Hw. split; [| split].
  - unfold bar, bar_filled. cbn. rewrite Z.sub_0_r. reflexivity.
  - intros Hm. rewrite (bar_of_filled 0 max_val width 0)
      by (apply bar_filled_empty; assumption).
    cbn [app str_mul]. rewrite Z.sub_0_r. reflexivity.
  - intros Hm. rewrite (bar_of_filled max_val max_val width width)
      by (apply bar_filled_full; assumption).
    rewrite Z.sub_diag. rewrite (str_mul_nonpos LIGHT_SHADE 0) by lia.
    apply f_equal. apply app_nil_r.
Qed.

Lemma bar_ends_witness :
  bar 7 0 30 = Ok (str_mul LIGHT_SHADE 30) /\
  (0 < 5 -> bar 0 5 30 = Ok (str_mul LIGHT_SHADE 30)) /\
  (0 < 5 -> bar 5 5 30 = Ok (str_mul FULL_BLOCK 30)).
Proof. apply (bar_ends 7 5 30). lia. Defined.

(** X12.  The number of full cells is monotone in the value: on the same
    scale a larger value never gets fewer full cells, although the number
    goes through two roundings to a float and one to an int. *)
Theorem bar_monotone :
  forall value value' max_val width b b',
    value <= value' -> 0 < max_val -> 0 <= width ->
    bar value max_val width = Ok b ->
    bar value' max_val width = Ok b' ->
    exists filled filled',
      b = bar_of filled width /\ b' = bar_of filled' width /\ filled <= filled'.
Proof.
  intros value value' max_val width b b' Hv Hm Hw Hb Hb'.
  unfold bar in Hb, Hb'.
  apply bind_Ok in Hb. destruct Hb as (filled & Hf & Hb). injection Hb as <-.
  apply bind_Ok in Hb'. destruct Hb' as (filled' & Hf' & Hb'). injection Hb' as <-.
  exists filled, filled'. split; [reflexivity | split; [reflexivity |]].
  exact (bar_filled_mono value value' max_val width filled filled' Hv Hm Hw Hf Hf').
Qed.

Lemma bar_monotone_witness :
  exists filled filled',
    bar_of 6 30 = bar_of filled 30 /\ bar_of 18 30 = bar_of filled' 30 /\
    filled <= filled'.
Proof.
  apply (bar_monotone 1 3 5 30 (bar_of 6 30) (bar_of 18 30));
    [lia | lia | lia | |]; vm_compute; reflexivity.
Defined.

(** X13.  [bar] does not clamp: for a value above [max_val > 0] the bar, if
    it is returned, has no light cell and at least [width] full ones, so it
    is as long as its number of full cells and may overrun the column. *)
Theorem bar_overrun :
  forall value max_val width b,
    0 < max_val <= value -> 0 <= width < 2 ^ 53 ->
    bar value max_val width = Ok b ->
    exists filled,
      b = str_mul FULL_BLOCK filled /\ width <= filled /\
      length b = Z.to_nat filled.
Proof.
  intros value max_val width b Hv Hw Hb. unfold bar in Hb.
  apply bind_Ok in Hb. destruct Hb as (filled & Hf & Hb). injection Hb as <-.
  assert (Hge : width <= filled).
  { apply (bar_filled_mono max_val value max_val width width filled);
      [lia | lia | lia | apply bar_filled_full; lia | exact Hf]. }
  exists filled. rewrite (str_mul_nonpos LIGHT_SHADE (width - filled)) by lia.
  rewrite app_nil_r. split; [reflexivity | split; [exact Hge |]].
  apply str_mul_length.
Qed.

Lemma bar_overrun_witness :
  exists filled,
    str_mul FULL_BLOCK 14 = str_mul FULL_BLOCK filled /\ 4 <= filled /\
    length (str_mul FULL_BLOCK 14) = Z.to_nat filled.
Proof.
  apply (bar_overrun 7 2 4 (str_mul FULL_BLOCK 14)); [lia | lia |].
  vm_compute. reflexivity.
Defined.



(** X15.  The deep-dive of [print_report]: once an event has been counted,
    the leaderboard has a first track, this track has at least one stream,
    [_catalog_map] has an entry for it (no [KeyError]), and when every
    [listened_s] lies between 10 seconds and the duration of its track, as
    [emit] produces them, the average listening time shown is between 10
    and the duration shown next to it. *)
Theorem deep_dive_defined :
  forall time_time events w,
    reachable time_time events w ->
    Forall within_duration events ->
    0 < StreamProcessor._total_processed (StreamProcessor.self w) ->
    exists top rest c avg,
      StreamProcessor.top_tracks (StreamProcessor.self w) (Z.of_nat (length CATALOG))
      = top :: rest /\
      In c CATALOG /\
      dict_get (StreamProcessor._catalog_map (StreamProcessor.self w))
        (TrackStats.track_id top) = Some c /\
      1 <= TrackStats.total_streams top /\
      TrackStats.avg_listen_s top = Finite avg /\
      (10 <= avg)%Q /\ (avg <= inject_Z (cat_duration_s c))%Q.
Proof.
  intros time_time events w Hr Hwd Hpos.
  destruct (top_track_entry time_time events w Hr Hpos)
    as (top & rest & c & Htracks & Hc & Hid & Hh & Htop).
  destruct (average_within_duration events c top Hc Hh Htop Hwd)
    as (avg & Havg & Hlo & Hhi).
  exists top, rest, c, avg.
  split; [exact Htracks |]. split; [exact Hc |]. split; [| auto].
  rewrite (reachable_catalog_map time_time events w Hr), Hid.
  apply catalog_map_lookup. exact Hc.
Qed.

Lemma deep_dive_defined_witness :
  exists top rest c avg,
    StreamProcessor.top_tracks (StreamProcessor.self (run_engine mixed_plays))
      (Z.of_nat (length CATALOG))
    = top :: rest /\
    In c CATALOG /\
    dict_get (StreamProcessor._catalog_map (StreamProcessor.self (run_engine mixed_plays)))
      (TrackStats.track_id top) = Some c /\
    1 <= TrackStats.total_streams top /\
    TrackStats.avg_listen_s top = Finite avg /\
    (10 <= avg)%Q /\ (avg <= inject_Z (cat_duration_s c))%Q.
Proof.
  apply (deep_dive_defined idle_clock mixed_plays (run_engine mixed_plays)
           mixed_plays_reachable mixed_plays_within_duration).
  vm_compute. reflexivity.
Defined.

(** X16.  For a track of the catalog and a beta variate between 0 and 1,
    [emit] does not raise; the event carries the id of the track, its
    [listened_s] lies between 10 and the duration of the track, and
    [completed] holds exactly when [listened_s] is at least 70 % of the
    duration: for no track of the catalog does the float product
    [0.70 * duration_s] fall on the other side of an int than 7/10 of the
    duration. *)
Theorem emit_listened_in_range :
  forall (d : EventProducer.draws) (ts_offset_s : float64) (b : Q),
    In (EventProducer.track d) CATALOG ->
    EventProducer.beta d = Finite b -> (0 <= b)%Q -> (b <= 1)%Q ->
    exists e,
      EventProducer.emit d ts_offset_s = Ok e /\
      StreamEvent.track_id e = cat_track_id (EventProducer.track d) /\
      10 <= StreamEvent.listened_s e <= cat_duration_s (EventProducer.track d) /\
      (StreamEvent.completed e = true <->
       7 * cat_duration_s (EventProducer.track d) <= 10 * StreamEvent.listened_s e).
Proof.
  intros d ts_offset_s b Hc Hb Hb0 Hb1.
  destruct (emit_returns d ts_offset_s b Hc Hb Hb0 Hb1) as (e & He & Hid & Hl & Hdone).
  destruct (completion_threshold _ Hc) as (q & Hq & Hle).
  exists e. split; [exact He | split; [exact Hid | split; [exact Hl |]]].
  rewrite Hdone, Hq. cbn [int_ge_float]. apply Hle.
Qed.

Lemma emit_listened_in_range_witness :
  exists e,
    EventProducer.emit half_listened (Finite 0) = Ok e /\
    StreamEvent.track_id e = cat_track_id (EventProducer.track half_listened) /\
    10 <= StreamEvent.listened_s e <= cat_duration_s (EventProducer.track half_listened) /\
    (StreamEvent.completed e = true <->
     7 * cat_duration_s (EventProducer.track half_listened)
     <= 10 * StreamEvent.listened_s e).
Proof.
  apply (emit_listened_in_range half_listened (Finite 0) (1 # 2)).
  - left. reflexivity.
  - reflexivity.
  - discriminate.
  - discriminate.
Defined.

(** X17.  Producer and processor together: from a reachable state with
    well-formed history, a batch of [n < 2^53] events drawn from the catalog
    is produced without raising, has [max(n, 0)] events, is processed
    without raising, and every one of its events is counted. *)
Theorem batch_all_counted :
  forall (time_time : nat -> float64) (ds : nat -> EventProducer.draws) (n : Z)
         (events : list StreamEvent.t) (w : StreamProcessor.world),
    reachable time_time events w ->
    Forall well_formed events ->
    n < 2 ^ 53 ->
    (forall i, Z.of_nat i < n -> possible_draws (ds i)) ->
    exists es w',
      EventProducer.batch ds n = Ok es /\
      length es = Z.to_nat n /\
      StreamProcessor.process_batch time_time w es = Ok w' /\
      StreamProcessor._total_processed (StreamProcessor.self w')
      = StreamProcessor._total_processed (StreamProcessor.self w) + Z.max 0 n.
Proof.
  intros time_time ds n events w Hr Hwf Hn Hds.
  destruct (batch_then_process time_time ds n events w Hr Hwf Hn Hds)
    as (es & w' & Hes & Hlen & _ & Hw' & _ & Htotal).
  exists es, w'. auto.
Qed.

Lemma batch_all_counted_witness :
  exists es w',
    EventProducer.batch (fun _ => half_listened) 3 = Ok es /\
    length es = Z.to_nat 3 /\
    StreamProcessor.process_batch idle_clock StreamProcessor.start es = Ok w' /\
    StreamProcessor._total_processed (StreamProcessor.self w')
    = StreamProcessor._total_processed (StreamProcessor.self StreamProcessor.start)
      + Z.max 0 3.
Proof.
  apply (batch_all_counted idle_clock (fun _ => half_listened) 3 []
           StreamProcessor.start).
  - constructor.
  - constructor.
  - reflexivity.
  - intros i _. exact half_listened_possible.
Defined.

(** X18.  The loop of [main]: for waves of non-negative sizes adding up to
    less than 2^53, whatever [random] draws and whatever the clock reads,
    no wave raises, the running totals printed are the partial sums of the
    sizes (1200, 3700 and 4500 for the waves of [main]), and the summary
    of the final state reports their sum as [total_events_processed]. *)
Theorem main_running_totals :
  forall time_time (dss : nat -> nat -> EventProducer.draws) (waves : list Z),
    Forall (fun n => 0 <= n) waves ->
    fold_right Z.add 0 waves < 2 ^ 53 ->
    (forall k i, possible_draws (dss k i)) ->
    exists w s,
      run_waves time_time dss 0 StreamProcessor.start waves
      = Ok (w, running_totals 0 waves) /\
      summary (StreamProcessor.self w) = Ok s /\
      total_events_processed s = fold_right Z.add 0 waves.
Proof.
  intros time_time dss waves Hwaves Hsum Hds.
  destruct (sum_nonneg_bound waves Hwaves) as (Hle & H0 & Hmax).
  destruct (run_waves_totals time_time dss waves) with (k := 0%nat)
    (events := @nil StreamEvent.t) (w := StreamProcessor.start)
    as (events' & w & Hrun & Hr & Hwf & Hin & Hlen).
  - eapply List.Forall_impl; [| exact Hle]. intros n Hn. cbn beta in Hn. lia.
  - exact Hds.
  - constructor.
  - constructor.
  - cbn [app] in Hr. rewrite Hmax in Hlen.
    destruct (summary_returns time_time events' w Hr) as (eps & _ & Hs).
    { assert (2 ^ 53 < 2 ^ 63) by (apply Z.pow_lt_mono_r; lia). lia. }
    eexists w, _. split; [exact Hrun |]. split; [exact Hs |].
    assert (Hcat : Forall (fun e => in_catalog e = true) events').
    { eapply List.Forall_impl; [| exact Hin]. intros e He. apply He. }
    cbn [total_events_processed].
    pose proof (reachable_inv _ _ _ Hr) as Hinv.
    rewrite (inv_total _ _ Hinv), (filter_all _ _ Hcat). exact Hlen.
Qed.

Lemma main_running_totals_witness :
  exists w s,
    run_waves idle_clock (fun _ _ => half_listened) 0 StreamProcessor.start WAVES
    = Ok (w, [1200; 3700; 4500]) /\
    summary (StreamProcessor.self w) = Ok s /\
    total_events_processed s = 4500.
Proof.
  apply (main_running_totals idle_clock (fun _ _ => half_listened) WAVES).
  - repeat constructor; lia.
  - reflexivity.
  - intros k i. exact half_listened_possible.
Defined.

(** X19.  The report after the loop of [main]: when at least one event was
    produced, the leaderboard starts with a full bar, and the deep-dive
    finds the top track in [_catalog_map] and shows an average listening
    time between 10 seconds and the duration of that track. *)
Theorem report_after_waves :
  forall time_time (dss : nat -> nat -> EventProducer.draws) (waves : list Z),
    Forall (fun n => 0 <= n) waves ->
    0 < fold_right Z.add 0 waves -> fold_right Z.add 0 waves < 2 ^ 53 ->
    (forall k i, possible_draws (dss k i)) ->
    exists w totals fills top rest c avg,
      run_waves time_time dss 0 StreamProcessor.start waves = Ok (w, totals) /\
      leaderboard_bars (StreamProcessor.self w)
      = map (fun filled => Ok (bar_of filled 30)) (30 :: fills) /\
      StreamProcessor.top_tracks (StreamProcessor.self w) (Z.of_nat (length CATALOG))
      = top :: rest /\
      dict_get (StreamProcessor._catalog_map (StreamProcessor.self w))
        (TrackStats.track_id top) = Some c /\
      TrackStats.avg_listen_s top = Finite avg /\
      (10 <= avg)%Q /\ (avg <= inject_Z (cat_duration_s c))%Q.
Proof.
  intros time_time dss waves Hwaves Hpos Hsum Hds.
  destruct (sum_nonneg_bound waves Hwaves) as (Hle & H0 & Hmax).
  destruct (run_waves_totals time_time dss waves) with (k := 0%nat)
    (events := @nil StreamEvent.t) (w := StreamProcessor.start)
    as (events' & w & Hrun & Hr & Hwf & Hin & Hlen).
  - eapply List.Forall_impl; [| exact Hle]. intros n Hn. cbn beta in Hn. lia.
  - exact Hds.
  - constructor.
  - constructor.
  - cbn [app] in Hr. rewrite Hmax in Hlen.
    assert (Hcat : Forall (fun e => in_catalog e = true) events').
    { eapply List.Forall_impl; [| exact Hin]. intros e He. apply He. }
    assert (Hwd : Forall within_duration events').
    { eapply List.Forall_impl; [| exact Hin]. intros e He. apply He. }
    assert (Htotal : 0 < StreamProcessor._total_processed (StreamProcessor.self w)).
    { pose proof (reachable_inv _ _ _ Hr) as Hinv.
      rewrite (inv_total _ _ Hinv), (filter_all _ _ Hcat). lia. }
    destruct (leaderboard_rows time_time events' w Hr)
      as (top & rest & fill & Htracks & _ & Hbars & Hfirst).
    destruct (top_track_entry time_time events' w Hr Htotal)
      as (top' & rest' & c & Htracks' & Hc & Hid & Hh & Htop).
    rewrite Htracks in Htracks'. injection Htracks' as <- <-.
    destruct (average_within_duration events' c top Hc Hh Htop Hwd)
      as (avg & Havg & Hlo & Hhi).
    destruct (Z.ltb_spec 0 (StreamProcessor._total_processed (StreamProcessor.self w)));
      [| lia].
    cbn [map] in Hbars. rewrite Hfirst in Hbars.
    exists w, (running_totals 0 waves), (map fill rest), top, rest, c, avg.
    split; [exact Hrun |]. split; [exact Hbars |]. split; [exact Htracks |].
    split; [| auto].
    rewrite (reachable_catalog_map time_time events' w Hr), Hid.
    apply catalog_map_lookup. exact Hc.
Qed.

Lemma report_after_waves_witness :
  exists w totals fills top rest c avg,
    run_waves idle_clock (fun _ _ => half_listened) 0 StreamProcessor.start WAVES
    = Ok (w, totals) /\
    leaderboard_bars (StreamProcessor.self w)
    = map (fun filled => Ok (bar_of filled 30)) (30 :: fills) /\
    StreamProcessor.top_tracks (StreamProcessor.self w) (Z.of_nat (length CATALOG))
    = top :: rest /\
    dict_get (StreamProcessor._catalog_map (StreamProcessor.self w))
      (TrackStats.track_id top) = Some c /\
    TrackStats.avg_listen_s top = Finite avg /\
    (10 <= avg)%Q /\ (avg <= inject_Z (cat_duration_s c))%Q.
Proof.
  apply (report_after_waves idle_clock (fun _ _ => half_listened) WAVES).
  - repeat constructor; lia.
  - reflexivity.
  - reflexivity.
  - intros k i. exact half_listened_possible.
Defined.
